(** * LiveAssistant: the live voice session of the AI Health Awareness Assistant

    A shallow embedding of [src/components/LiveAssistant.tsx]: the frame
    codec ([encode], [decode], [decodeAudioData]), the capture callback
    ([onaudioprocess]), the inbound dispatcher ([onmessage]), teardown
    ([cleanup]) and the start/stop toggle ([toggleSession]).

    Conventions.
    - A [Uint8Array] is a [list Z] of values in [0, 256); an [Int16Array] is
      a [list Z] of values in [-32768, 32768).  A JavaScript binary string is
      the list of its code units.
    - A JavaScript number that holds a finite value is its exact rational
      value ([Q]); [NaN] is kept apart.  Every product and quotient the
      component computes on samples is by 32768 = 2^15 and is exact in
      IEEE arithmetic, so nothing is rounded in the sample path.
    - Times (the device clock, the playback cursor, durations) are exact
      rationals as well.  The code holds them as doubles and rounds the
      quotient of a duration and the sums on the cursor; the times of the
      model are the unrounded ones.
    - A thrown exception is the [Throw] case of [result].
    - React state and refs are the fields of [State]; calls on objects of the
      platform (tracks, contexts, sources, the session) are appended to
      [trace]. *)

From Stdlib Require Import ZArith QArith Qround Qminmax Qabs Lia Lqa Ascii String.
From stdpp Require Import base list relations.

Local Open Scope Z_scope.

(** ** Exceptions and results *)

Inductive Exn : Type :=
| RangeError
| InvalidCharacterError
| NotSupportedError
| OtherError (reason : string).

Inductive result (A : Type) : Type :=
| Ok (a : A)
| Throw (e : Exn).
Arguments Ok {A} a.
Arguments Throw {A} e.

Definition bind {A B} (r : result A) (k : A -> result B) : result B :=
  match r with
  | Ok a => k a
  | Throw e => Throw e
  end.

Notation "'try!' x ':=' r 'in' k" := (bind r (fun x => k))
  (at level 10, x name, r at level 100, k at level 200).

Definition throws {A} (r : result A) : bool :=
  match r with Ok _ => false | Throw _ => true end.

Definition is_byte (b : Z) : Prop := 0 <= b < 256.
Definition is_int16 (z : Z) : Prop := -32768 <= z < 32768.

(** ** Base64: the platform's [btoa] and [atob] *)

Module Base64.

(** The character of a 6-bit value. *)
Definition b64_char (i : Z) : ascii :=
  if i <? 26 then ascii_of_N (Z.to_N (i + 65))
  else if i <? 52 then ascii_of_N (Z.to_N (i + 71))
  else if i <? 62 then ascii_of_N (Z.to_N (i - 4))
  else if i =? 62 then "+"%char
  else "/"%char.

(** The 6-bit value of a character of the alphabet. *)
Definition b64_index (c : ascii) : option Z :=
  let n := Z.of_N (N_of_ascii c) in
  if (65 <=? n) && (n <=? 90) then Some (n - 65)
  else if (97 <=? n) && (n <=? 122) then Some (n - 71)
  else if (48 <=? n) && (n <=? 57) then Some (n + 4)
  else if n =? 43 then Some 62
  else if n =? 47 then Some 63
  else None.

Definition pad : ascii := "="%char.

(** Three bytes are four 6-bit values; a rest of one or two bytes is two or
    three of them, the missing bits being zero. *)
Fixpoint sextets_of_bytes (bs : list Z) : list Z :=
  match bs with
  | b0 :: b1 :: b2 :: rest =>
      b0 / 4 :: (b0 mod 4) * 16 + b1 / 16 :: (b1 mod 16) * 4 + b2 / 64
         :: b2 mod 64 :: sextets_of_bytes rest
  | [b0; b1] => [b0 / 4; (b0 mod 4) * 16 + b1 / 16; (b1 mod 16) * 4]
  | [b0] => [b0 / 4; (b0 mod 4) * 16]
  | [] => []
  end.

Fixpoint padding (bs : list Z) : list ascii :=
  match bs with
  | _ :: _ :: _ :: rest => padding rest
  | [_; _] => [pad]
  | [_] => [pad; pad]
  | [] => []
  end.

Definition is_latin1 (c : Z) : bool := (0 <=? c) && (c <? 256).

(** [btoa]: throws [InvalidCharacterError] on a code unit above 255. *)
Definition btoa (binary : list Z) : result string :=
  if forallb is_latin1 binary
  then Ok (string_of_list_ascii
             (map b64_char (sextets_of_bytes binary) ++ padding binary))
  else Throw InvalidCharacterError.

Definition is_ascii_whitespace (c : ascii) : bool :=
  let n := N_of_ascii c in
  ((n =? 9) || (n =? 10) || (n =? 12) || (n =? 13) || (n =? 32))%N.

(** One or two trailing [=] are removed from a text whose length is a
    multiple of four. *)
Definition strip_padding (cs : list ascii) : list ascii :=
  if (length cs mod 4 =? 0)%nat then
    match rev cs with
    | c1 :: c2 :: r =>
        if Ascii.eqb c1 pad
        then if Ascii.eqb c2 pad then rev r else rev (c2 :: r)
        else cs
    | [c1] => if Ascii.eqb c1 pad then [] else cs
    | [] => cs
    end
  else cs.

Fixpoint sextets_of_chars (cs : list ascii) : option (list Z) :=
  match cs with
  | [] => Some []
  | c :: r =>
      match b64_index c, sextets_of_chars r with
      | Some i, Some l => Some (i :: l)
      | _, _ => None
      end
  end.

(** Four 6-bit values are three bytes; of a rest of two (three) values the
    last four (two) bits are dropped. *)
Fixpoint bytes_of_sextets (ss : list Z) : list Z :=
  match ss with
  | s0 :: s1 :: s2 :: s3 :: rest =>
      s0 * 4 + s1 / 16 :: (s1 mod 16) * 16 + s2 / 4 :: (s2 mod 4) * 64 + s3
         :: bytes_of_sextets rest
  | [s0; s1; s2] => [s0 * 4 + s1 / 16; (s1 mod 16) * 16 + s2 / 4]
  | [s0; s1] => [s0 * 4 + s1 / 16]
  | _ => []
  end.

(** [atob] (forgiving base64 decoding): whitespace is removed, padding is
    stripped, and the text is refused when a character is outside the
    alphabet or one character is left over. *)
Definition atob (base64 : string) : result (list Z) :=
  let cs := filter (fun c => is_ascii_whitespace c = false)
                   (list_ascii_of_string base64) in
  let cs := strip_padding cs in
  if (length cs mod 4 =? 1)%nat then Throw InvalidCharacterError
  else match sextets_of_chars cs with
       | Some ss => Ok (bytes_of_sextets ss)
       | None => Throw InvalidCharacterError
       end.

(** The three facts the decoder needs of the character of a 6-bit value,
    as one test. *)
Definition is_sextet (i : Z) : Prop := 0 <= i < 64.

Definition sextet_ok (i : Z) : bool :=
  match b64_index (b64_char i) with
  | Some j => j =? i
  | None => false
  end
  && negb (Ascii.eqb (b64_char i) pad)
  && negb (is_ascii_whitespace (b64_char i)).

End Base64.

(** ** The frame codec *)

Module Codec.
Import Base64.

(** A JavaScript number: a finite value or [NaN]. *)
Inductive number : Type :=
| Num (q : Q)
| NaN.

(** Storing into a [Uint8Array] / an [Int16Array] element keeps the low
    8 / 16 bits (two's complement). *)
Definition ToUint8 (n : Z) : Z := n mod 256.

Definition ToInt16 (n : Z) : Z :=
  let m := n mod 65536 in
  if 32768 <=? m then m - 65536 else m.

(** Truncation toward zero of a rational. *)
Definition Qtruncate (q : Q) : Z := Z.quot (Qnum q) (Z.pos (Qden q)).

(** [int16[i] = v]: a number is truncated, then wrapped; [NaN] stores 0. *)
Definition Int16Array_store (v : number) : Z :=
  match v with
  | Num q => ToInt16 (Qtruncate q)
  | NaN => 0
  end.

(** [new Uint8Array(int16.buffer)]: the bytes of the samples, low byte
    first. *)
Definition int16_bytes (z : Z) : list Z := [z mod 256; (z / 256) mod 256].

Definition Uint8Array_of_Int16Array (samples : list Z) : list Z :=
  flat_map int16_bytes samples.

Fixpoint int16_view (bytes : list Z) : list Z :=
  match bytes with
  | lo :: hi :: rest => ToInt16 (lo + 256 * hi) :: int16_view rest
  | _ => []
  end.

(** [new Int16Array(data.buffer)]: a [RangeError] when the byte length is
    odd. *)
Definition Int16Array_of_buffer (bytes : list Z) : result (list Z) :=
  if Nat.even (length bytes) then Ok (int16_view bytes) else Throw RangeError.

(** [encode], lines 18-25. *)
Definition encode (bytes : list Z) : result string :=
  let binary := fold_left (fun binary b => binary ++ [b]) bytes [] in
  btoa binary.

(** [decode], lines 27-35. *)
Definition decode (base64 : string) : result (list Z) :=
  try! binaryString := atob base64 in
  Ok (map ToUint8 binaryString).

(** The output device context: its clock and the limits of the
    implementation. *)
Record AudioContext : Type := {
  currentTime : Q;
  maxChannels : nat;
  supportsRate : Z -> bool
}.

Record AudioBuffer : Type := {
  numberOfChannels : nat;
  frames : nat;
  sampleRate : Z;
  channels : list (list number)
}.

(** [buffer.duration], in seconds.  Times are exact rationals here; the
    platform holds them as doubles, so a quotient or a sum of times that
    is exact here is rounded there. *)
Definition duration (b : AudioBuffer) : Q :=
  inject_Z (Z.of_nat (frames b)) / inject_Z (sampleRate b).

(** [ctx.createBuffer] of the Web Audio API: the frame count, an
    [unsigned long], is converted to an integer by truncation; an argument
    that is zero or outside its nominal range (no frame, no channel, more
    channels than the implementation has, a rate it does not support) is a
    [NotSupportedError]; the buffer starts silent. *)
Definition createBuffer (ctx : AudioContext) (numChannels : nat)
    (frameCount : Q) (rate : Z) : result AudioBuffer :=
  let len := Z.to_nat (Qtruncate frameCount) in
  if (0 <? numChannels)%nat && (numChannels <=? maxChannels ctx)%nat
     && (0 <? len)%nat && supportsRate ctx rate
  then Ok {| numberOfChannels := numChannels; frames := len;
             sampleRate := rate;
             channels := replicate numChannels (replicate len (Num 0)) |}
  else Throw NotSupportedError.

(** [dataInt16[k] / 32768.0]; reading past the end is [undefined], whose
    quotient is [NaN]. *)
Definition sample_value (dataInt16 : list Z) (k : nat) : number :=
  match dataInt16 !! k with
  | Some z => Num (inject_Z z / 32768)
  | None => NaN
  end.

(** The inner loop, lines 49-51: [i] runs while [i < frameCount]; a store
    past the end of [channelData] is ignored. *)
Definition fill_channel (dataInt16 : list Z) (numChannels : nat)
    (frameCount : Q) (channel : nat) (channelData : list number)
  : list number :=
  fold_left
    (fun cd i => <[i := sample_value dataInt16 (i * numChannels + channel)]> cd)
    (seq 0 (Z.to_nat (Qceiling frameCount))) channelData.

(** [decodeAudioData], lines 37-54. *)
Definition decodeAudioData (data : list Z) (ctx : AudioContext)
    (rate : Z) (numChannels : nat) : result AudioBuffer :=
  try! dataInt16 := Int16Array_of_buffer data in
  let frameCount :=
    (inject_Z (Z.of_nat (length dataInt16)) / inject_Z (Z.of_nat numChannels))%Q in
  try! buffer := createBuffer ctx numChannels frameCount rate in
  Ok {| numberOfChannels := numberOfChannels buffer;
        frames := frames buffer;
        sampleRate := sampleRate buffer;
        channels :=
          fold_left
            (fun chs channel =>
               match chs !! channel with
               | Some cd =>
                   <[channel := fill_channel dataInt16 numChannels
                                  frameCount channel cd]> chs
               | None => chs
               end)
            (seq 0 numChannels) (channels buffer) |}.

(** The block conversion of the capture callback, lines 133-138. *)
Definition to_int16 (inputData : list number) : list Z :=
  map (fun x =>
         Int16Array_store
           match x with Num q => Num (q * 32768) | NaN => NaN end)
      inputData.

(** A context with the limits every implementation has to offer: 32
    channels, rates from 8000 to 96000 Hz. *)
Definition stdAudioContext (now : Q) : AudioContext :=
  {| currentTime := now; maxChannels := 32;
     supportsRate := fun r => (8000 <=? r) && (r <=? 96000) |}.

End Codec.


(** ** The session component *)

Module Live.
Import Codec.

(** [pcmBlob], lines 140-143. *)
Record Packet : Type := {
  data : string;
  mimeType : string
}.

(** What waits on the connection promise: the [then]/[catch] chain of a
    captured block (lines 146-150), or a [cleanup] suspended at its
    [await] (line 62). *)
Inductive Reaction : Type :=
| SendRealtimeInput (media : Packet)
| ResumeCleanup.

Inductive Promise : Type :=
| Pending (reactions : list Reaction)
| Fulfilled
| Rejected (reason : Exn).

(** Calls on the objects of the platform, in the order they are made. *)
Inductive Effect : Type :=
| CleanupCall
| SessionClose (promise : nat)
| SessionSend (promise : nat) (media : Packet)
| TrackStop (track : nat)
| ContextClose (rate : Z)
| SourceStart (source : nat) (when : Q)
| SourceStop (source : nat)
| Connect (promise : nat)
| OpenSelectKey.

Record Source : Type := {
  source_id : nat;
  buffer : AudioBuffer
}.

Record AudioContexts : Type := {
  input : Z;
  output : Z
}.

Record State : Type := {
  (* useState *)
  isActive : bool;
  isConnecting : bool;
  transcription : string;
  errorMsg : option string;
  (* useRef *)
  sessionPromiseRef : option nat;
  audioContextsRef : option AudioContexts;
  streamRef : option (list nat);
  nextStartTimeRef : Q;
  sourcesRef : list Source;
  (* the platform: the promises made so far, the next source object, the
     calls made *)
  promises : list Promise;
  nextSource : nat;
  trace : list Effect
}.

Definition initial : State :=
  {| isActive := false; isConnecting := false; transcription := "";
     errorMsg := None; sessionPromiseRef := None; audioContextsRef := None;
     streamRef := None; nextStartTimeRef := 0; sourcesRef := [];
     promises := []; nextSource := 0; trace := [] |}.

Definition setIsActive (v : bool) (st : State) : State :=
  {| isActive := v; isConnecting := isConnecting st;
     transcription := transcription st; errorMsg := errorMsg st;
     sessionPromiseRef := sessionPromiseRef st;
     audioContextsRef := audioContextsRef st; streamRef := streamRef st;
     nextStartTimeRef := nextStartTimeRef st; sourcesRef := sourcesRef st;
     promises := promises st; nextSource := nextSource st;
     trace := trace st |}.

Definition setIsConnecting (v : bool) (st : State) : State :=
  {| isActive := isActive st; isConnecting := v;
     transcription := transcription st; errorMsg := errorMsg st;
     sessionPromiseRef := sessionPromiseRef st;
     audioContextsRef := audioContextsRef st; streamRef := streamRef st;
     nextStartTimeRef := nextStartTimeRef st; sourcesRef := sourcesRef st;
     promises := promises st; nextSource := nextSource st;
     trace := trace st |}.

Definition setTranscription (v : string) (st : State) : State :=
  {| isActive := isActive st; isConnecting := isConnecting st;
     transcription := v; errorMsg := errorMsg st;
     sessionPromiseRef := sessionPromiseRef st;
     audioContextsRef := audioContextsRef st; streamRef := streamRef st;
     nextStartTimeRef := nextStartTimeRef st; sourcesRef := sourcesRef st;
     promises := promises st; nextSource := nextSource st;
     trace := trace st |}.

Definition setErrorMsg (v : option string) (st : State) : State :=
  {| isActive := isActive st; isConnecting := isConnecting st;
     transcription := transcription st; errorMsg := v;
     sessionPromiseRef := sessionPromiseRef st;
     audioContextsRef := audioContextsRef st; streamRef := streamRef st;
     nextStartTimeRef := nextStartTimeRef st; sourcesRef := sourcesRef st;
     promises := promises st; nextSource := nextSource st;
     trace := trace st |}.

Definition set_sessionPromiseRef (v : option nat) (st : State) : State :=
  {| isActive := isActive st; isConnecting := isConnecting st;
     transcription := transcription st; errorMsg := errorMsg st;
     sessionPromiseRef := v;
     audioContextsRef := audioContextsRef st; streamRef := streamRef st;
     nextStartTimeRef := nextStartTimeRef st; sourcesRef := sourcesRef st;
     promises := promises st; nextSource := nextSource st;
     trace := trace st |}.

Definition set_audioContextsRef (v : option AudioContexts) (st : State)
  : State :=
  {| isActive := isActive st; isConnecting := isConnecting st;
     transcription := transcription st; errorMsg := errorMsg st;
     sessionPromiseRef := sessionPromiseRef st;
     audioContextsRef := v; streamRef := streamRef st;
     nextStartTimeRef := nextStartTimeRef st; sourcesRef := sourcesRef st;
     promises := promises st; nextSource := nextSource st;
     trace := trace st |}.

Definition set_streamRef (v : option (list nat)) (st : State) : State :=
  {| isActive := isActive st; isConnecting := isConnecting st;
     transcription := transcription st; errorMsg := errorMsg st;
     sessionPromiseRef := sessionPromiseRef st;
     audioContextsRef := audioContextsRef st; streamRef := v;
     nextStartTimeRef := nextStartTimeRef st; sourcesRef := sourcesRef st;
     promises := promises st; nextSource := nextSource st;
     trace := trace st |}.

Definition set_nextStartTimeRef (v : Q) (st : State) : State :=
  {| isActive := isActive st; isConnecting := isConnecting st;
     transcription := transcription st; errorMsg := errorMsg st;
     sessionPromiseRef := sessionPromiseRef st;
     audioContextsRef := audioContextsRef st; streamRef := streamRef st;
     nextStartTimeRef := v; sourcesRef := sourcesRef st;
     promises := promises st; nextSource := nextSource st;
     trace := trace st |}.

Definition set_sourcesRef (v : list Source) (st : State) : State :=
  {| isActive := isActive st; isConnecting := isConnecting st;
     transcription := transcription st; errorMsg := errorMsg st;
     sessionPromiseRef := sessionPromiseRef st;
     audioContextsRef := audioContextsRef st; streamRef := streamRef st;
     nextStartTimeRef := nextStartTimeRef st; sourcesRef := v;
     promises := promises st; nextSource := nextSource st;
     trace := trace st |}.

Definition set_promises (v : list Promise) (st : State) : State :=
  {| isActive := isActive st; isConnecting := isConnecting st;
     transcription := transcription st; errorMsg := errorMsg st;
     sessionPromiseRef := sessionPromiseRef st;
     audioContextsRef := audioContextsRef st; streamRef := streamRef st;
     nextStartTimeRef := nextStartTimeRef st; sourcesRef := sourcesRef st;
     promises := v; nextSource := nextSource st;
     trace := trace st |}.

Definition set_nextSource (v : nat) (st : State) : State :=
  {| isActive := isActive st; isConnecting := isConnecting st;
     transcription := transcription st; errorMsg := errorMsg st;
     sessionPromiseRef := sessionPromiseRef st;
     audioContextsRef := audioContextsRef st; streamRef := streamRef st;
     nextStartTimeRef := nextStartTimeRef st; sourcesRef := sourcesRef st;
     promises := promises st; nextSource := v;
     trace := trace st |}.

(** A call on a platform object is recorded at the end of the trace. *)
Definition call (e : Effect) (st : State) : State :=
  {| isActive := isActive st; isConnecting := isConnecting st;
     transcription := transcription st; errorMsg := errorMsg st;
     sessionPromiseRef := sessionPromiseRef st;
     audioContextsRef := audioContextsRef st; streamRef := streamRef st;
     nextStartTimeRef := nextStartTimeRef st; sourcesRef := sourcesRef st;
     promises := promises st; nextSource := nextSource st;
     trace := trace st ++ [e] |}.

(** Several calls in a row. *)
Definition calls (es : list Effect) (st : State) : State :=
  {| isActive := isActive st; isConnecting := isConnecting st;
     transcription := transcription st; errorMsg := errorMsg st;
     sessionPromiseRef := sessionPromiseRef st;
     audioContextsRef := audioContextsRef st; streamRef := streamRef st;
     nextStartTimeRef := nextStartTimeRef st; sourcesRef := sourcesRef st;
     promises := promises st; nextSource := nextSource st;
     trace := trace st ++ es |}.

(** The promise object [p]; an identifier no [connect] has returned stands
    for a promise nobody settles. *)
Definition promise_at (p : nat) (st : State) : Promise :=
  default (Pending []) (promises st !! p).

Definition set_promise (p : nat) (v : Promise) (st : State) : State :=
  set_promises (<[p := v]> (promises st)) st.

(** *** The playback scheduler *)

(** Lines 79-83 and 182-186: every registered source is stopped, the set
    is cleared and the cursor goes back to 0. *)
Definition flush (st : State) : State :=
  let st :=
    fold_left (fun st source => call (SourceStop (source_id source)) st)
              (sourcesRef st) st in
  let st := set_sourcesRef [] st in
  set_nextStartTimeRef 0 st.

(** Line 166: the chunk as the caller decodes it, one channel at 24 kHz. *)
Definition decode_chunk (outputCtx : AudioContext) (base64Audio : string)
  : result AudioBuffer :=
  try! bytes := decode base64Audio in
  decodeAudioData bytes outputCtx 24000 1.

(** Lines 165-177: one inbound chunk.  The state reached and, when
    decoding throws, the exception the handler is left with.  The sum of
    line 176 is exact here, where the code adds two doubles. *)
Definition schedule (outputCtx : AudioContext) (base64Audio : string)
    (st : State) : State * option Exn :=
  let st :=
    set_nextStartTimeRef
      (Qmax (nextStartTimeRef st) (currentTime outputCtx)) st in
  match decode_chunk outputCtx base64Audio with
  | Throw e => (st, Some e)
  | Ok audioBuffer =>
      let source := {| source_id := nextSource st; buffer := audioBuffer |} in
      let st := set_nextSource (S (nextSource st)) st in
      let st := call (SourceStart (source_id source) (nextStartTimeRef st)) st in
      let st :=
        set_nextStartTimeRef
          (nextStartTimeRef st + duration audioBuffer)%Q st in
      let st := set_sourcesRef (sourcesRef st ++ [source]) st in
      (st, None)
  end.

(** The ['ended'] listener of a source, lines 171-173. *)
Definition onended (source : nat) (st : State) : State :=
  set_sourcesRef
    (filter (fun s => source_id s <> source) (sourcesRef st)) st.

(** [message.serverContent.outputTranscription]: an object whose [text]
    may be missing. *)
Record Transcription : Type := {
  text : option string
}.

(** An inbound message, as far as the handler reads it. *)
Record Message : Type := {
  outputTranscription : option Transcription;
  inlineData : option string;
  interrupted : bool
}.

(** What [prev + t.text] adds to [prev]: the text, or ["undefined"] when
    the object has none. *)
Definition appended (t : Transcription) : string :=
  match text t with
  | Some fragment => fragment
  | None => "undefined"
  end.

(** Lines 158-160: the test is on the transcription object, and its [text]
    is appended whatever it is. *)
Definition append_transcription (message : Message) (st : State) : State :=
  match outputTranscription message with
  | Some t => setTranscription (String.append (transcription st) (appended t)) st
  | None => st
  end.

(** [onmessage], lines 156-188.  An exception leaves the handler at the
    point it is thrown: nothing in the handler catches it. *)
Definition onmessage (outputCtx : AudioContext) (message : Message)
    (st : State) : State * option Exn :=
  let st := append_transcription message st in
  let '(st, thrown) :=
    match inlineData message with
    | Some base64Audio =>
        if String.eqb base64Audio "" then (st, None)
        else schedule outputCtx base64Audio st
    | None => (st, None)
    end in
  match thrown with
  | Some e => (st, Some e)
  | None => (if interrupted message then flush st else st, None)
  end.

(** *** Teardown *)

(** Lines 65-83, what [cleanup] does once the promise it awaited has
    settled.  The closing of the two contexts is taken as one step. *)
Definition release (st : State) : State :=
  let st := set_sessionPromiseRef None st in
  let st :=
    match streamRef st with
    | Some tracks =>
        set_streamRef None
          (fold_left (fun st track => call (TrackStop track) st) tracks st)
    | None => st
    end in
  let st :=
    match audioContextsRef st with
    | Some ctxs =>
        set_audioContextsRef None
          (call (ContextClose (output ctxs))
             (call (ContextClose (input ctxs)) st))
    | None => st
    end in
  flush st.

(** Lines 62-64 after the [await]: a session is closed, a rejection is
    swallowed. *)
Definition close_session (p : nat) (settled : Promise) (st : State) : State :=
  match settled with
  | Fulfilled => call (SessionClose p) st
  | _ => st
  end.

(** [cleanup], lines 56-84.  On a pending promise it stops at the [await]
    of line 62 and waits among the promise's reactions.  Otherwise it is
    taken to run to its end before anything else happens: the [await]s of
    lines 62, 74 and 75 are passed in one step, and [close] is taken not
    to reject. *)
Definition cleanup (st : State) : State :=
  let st := call CleanupCall st in
  let st := setIsActive false st in
  let st := setIsConnecting false st in
  match sessionPromiseRef st with
  | Some p =>
      match promise_at p st with
      | Pending reactions =>
          set_promise p (Pending (reactions ++ [ResumeCleanup])) st
      | settled => release (close_session p settled st)
      end
  | None => release st
  end.

(** *** The capture callback *)

(** [onaudioprocess], lines 132-151, of the processor that captured the
    promise [p].  On a resolved promise the [then] callback sends the
    packet ([sendRealtimeInput] is taken not to throw); on a rejected one
    the [catch] callback runs [cleanup]; on a pending one the chain waits
    among the promise's reactions. *)
Definition onaudioprocess (p : nat) (inputData : list number) (st : State)
  : State * option Exn :=
  let int16 := to_int16 inputData in
  match encode (Uint8Array_of_Int16Array int16) with
  | Throw e => (st, Some e)
  | Ok base64 =>
      let pcmBlob := {| data := base64; mimeType := "audio/pcm;rate=16000" |} in
      match promise_at p st with
      | Pending reactions =>
          (set_promise p (Pending (reactions ++ [SendRealtimeInput pcmBlob])) st,
           None)
      | Fulfilled => (call (SessionSend p pcmBlob) st, None)
      | Rejected _ => (cleanup st, None)
      end
  end.

(** The promise [p] settles: its reactions run in the order they were
    registered. *)
Definition react (p : nat) (settled : Promise) (st : State) (r : Reaction)
  : State :=
  match r, settled with
  | SendRealtimeInput media, Fulfilled => call (SessionSend p media) st
  | SendRealtimeInput media, Rejected _ => cleanup st
  | ResumeCleanup, Fulfilled => release (close_session p settled st)
  | ResumeCleanup, Rejected _ => release (close_session p settled st)
  | _, Pending _ => st
  end.

Definition settle (p : nat) (settled : Promise) (st : State) : State :=
  match promise_at p st with
  | Pending reactions =>
      fold_left (react p settled) reactions (set_promise p settled st)
  | _ => st
  end.

(** *** Runs of events and what they leave in the trace *)

(** Inbound messages handled one after the other, each with the output
    context as it is when the message arrives. *)
Definition run_messages (events : list (AudioContext * Message)) (st : State)
  : State :=
  fold_left (fun st ev => fst (onmessage (fst ev) (snd ev) st)) events st.

(** Captured blocks handled one after the other. *)
Definition capture (p : nat) (blocks : list (list number)) (st : State)
  : State :=
  fold_left (fun st inputData => fst (onaudioprocess p inputData st)) blocks st.

(** The packet [onaudioprocess] makes of a block. *)
Definition packet_of (inputData : list number) : option Packet :=
  match encode (Uint8Array_of_Int16Array (to_int16 inputData)) with
  | Ok base64 => Some {| data := base64; mimeType := "audio/pcm;rate=16000" |}
  | Throw _ => None
  end.

Fixpoint start_times (tr : list Effect) : list Q :=
  match tr with
  | [] => []
  | SourceStart _ when :: tr => when :: start_times tr
  | _ :: tr => start_times tr
  end.

Fixpoint sent (tr : list Effect) : list Packet :=
  match tr with
  | [] => []
  | SessionSend _ media :: tr => media :: sent tr
  | _ :: tr => sent tr
  end.

Fixpoint teardowns (tr : list Effect) : nat :=
  match tr with
  | [] => 0
  | CleanupCall :: tr => S (teardowns tr)
  | _ :: tr => teardowns tr
  end.

Fixpoint connects (tr : list Effect) : nat :=
  match tr with
  | [] => 0
  | Connect _ :: tr => S (connects tr)
  | _ :: tr => connects tr
  end.

(** The calls of a [release]: the tracks, the two contexts, the sources. *)
Definition release_calls (st : State) : list Effect :=
  match streamRef st with
  | Some tracks => map TrackStop tracks
  | None => []
  end
  ++ match audioContextsRef st with
     | Some ctxs => [ContextClose (input ctxs); ContextClose (output ctxs)]
     | None => []
     end
  ++ map (fun source => SourceStop (source_id source)) (sourcesRef st).

(** Nothing is held any more: the lifecycle is idle, the three refs are
    null, no source is registered and the cursor is 0. *)
Definition torn_down (st : State) : Prop :=
  isActive st = false /\ isConnecting st = false /\
  sessionPromiseRef st = None /\ streamRef st = None /\
  audioContextsRef st = None /\ sourcesRef st = [] /\
  nextStartTimeRef st = 0%Q.

Definition settled (pr : Promise) : Prop :=
  match pr with Pending _ => False | _ => True end.

(** [cleanup] has nothing to wait for: no session promise is held, or the
    one that is held has settled. *)
Definition can_complete (st : State) : Prop :=
  match sessionPromiseRef st with
  | Some p => settled (promise_at p st)
  | None => True
  end.

(** The packets among the reactions of a promise. *)
Fixpoint sends_of (rs : list Reaction) : list Packet :=
  match rs with
  | [] => []
  | SendRealtimeInput media :: rs => media :: sends_of rs
  | ResumeCleanup :: rs => sends_of rs
  end.

(** The state [cleanup] works on after lines 57-58. *)
Definition entering (st : State) : State :=
  setIsConnecting false (setIsActive false (call CleanupCall st)).

(** Calls that send nothing, tear nothing down, connect nothing and start
    nothing. *)
Definition quiet (es : list Effect) : Prop :=
  sent es = [] /\ teardowns es = 0%nat /\ connects es = 0%nat /\
  start_times es = [].

(** *** A scenario: 100 ms of silence at 24 kHz, one channel *)

(** 2400 frames of two zero bytes each: 4800 bytes, 6400 characters. *)
Definition silence_100ms : string :=
  string_of_list_ascii (repeat "A"%char (64 * 100)).

Definition silent_buffer : AudioBuffer :=
  {| numberOfChannels := 1; frames := 24 * 100; sampleRate := 24000;
     channels := [repeat (Num (0 # 32768)) (24 * 100)] |}.

Definition chunk_message (base64Audio : string) : Message :=
  {| outputTranscription := None; inlineData := Some base64Audio;
     interrupted := false |}.

Definition interruption : Message :=
  {| outputTranscription := None; inlineData := None; interrupted := true |}.

(** *** Lifecycle *)

Record AIError : Type := {
  message : string;
  type : string
}.

(** What the platform answers during a start, call by call in the order of
    lines 104-120: the key dialogue, the client, the microphone, the two
    contexts and their [resume].  Every awaited call is taken to settle. *)
Record StartEnv : Type := {
  hasSelectedApiKey : result bool;
  openSelectKey : result unit;
  newGoogleGenAI : result unit;
  getUserMedia : result (list nat);
  newInputContext : result unit;
  newOutputContext : result unit;
  resumeInput : result unit;
  resumeOutput : result unit
}.

Section Lifecycle.

(** [healthAI.handleError] of [geminiService], which is not part of the
    sources at hand. *)
Variable handleError : Exn -> AIError.

(** [onopen], lines 125-155. *)
Definition onopen (st : State) : State :=
  setIsActive true (setIsConnecting false st).

(** [onerror], lines 189-197. *)
Definition onerror (e : Exn) (st : State) : State :=
  let aiError := handleError e in
  let st := setErrorMsg (Some (message aiError)) st in
  let st := cleanup st in
  if String.eqb (type aiError) "key" then call OpenSelectKey st else st.

(** [onclose], lines 198-201. *)
Definition onclose (st : State) : State := cleanup st.

(** Lines 114-120: the two contexts are made, then stored in the ref, then
    resumed.  A constructor that throws leaves the ref as it was; a
    [resume] that rejects leaves both contexts in the ref. *)
Definition contexts (env : StartEnv) (st : State) : State * option Exn :=
  match newInputContext env with
  | Throw e => (st, Some e)
  | Ok _ =>
      match newOutputContext env with
      | Throw e => (st, Some e)
      | Ok _ =>
          let st :=
            set_audioContextsRef
              (Some {| input := 16000; output := 24000 |}) st in
          match resumeInput env with
          | Throw e => (st, Some e)
          | Ok _ =>
              match resumeOutput env with
              | Throw e => (st, Some e)
              | Ok _ => (st, None)
              end
          end
      end
  end.

(** The [try] block of [toggleSession], lines 103-214.  [ai.live.connect]
    returns the connection promise; it is stored in the ref (line 214) in
    the same turn. *)
Definition start (env : StartEnv) (st : State) : State * option Exn :=
  match hasSelectedApiKey env with
  | Throw e => (st, Some e)
  | Ok hasKey =>
      let '(st, thrown) :=
        if hasKey then (st, None)
        else match openSelectKey env with
             | Ok _ => (call OpenSelectKey st, None)
             | Throw e => (call OpenSelectKey st, Some e)
             end in
      match thrown with
      | Some e => (st, Some e)
      | None =>
          match newGoogleGenAI env with
          | Throw e => (st, Some e)
          | Ok _ =>
              match getUserMedia env with
              | Throw e => (st, Some e)
              | Ok stream =>
                  let st := set_streamRef (Some stream) st in
                  match contexts env st with
                  | (st, Some e) => (st, Some e)
                  | (st, None) =>
                      let sessionPromise := length (promises st) in
                      let st := set_promises (promises st ++ [Pending []]) st in
                      let st := call (Connect sessionPromise) st in
                      (set_sessionPromiseRef (Some sessionPromise) st, None)
                  end
              end
          end
      end
  end.

(** [toggleSession], lines 92-222. *)
Definition toggleSession (env : StartEnv) (st : State) : State :=
  if isActive st || isConnecting st then cleanup st
  else
    let st := setIsConnecting true st in
    let st := setErrorMsg None st in
    let st := setTranscription "" st in
    match start env st with
    | (st, None) => st
    | (st, Some err) =>
        let aiError := handleError err in
        let st := setErrorMsg (Some (message aiError)) st in
        cleanup st
    end.

(** The Dismiss button, line 246. *)
Definition dismiss (st : State) : State := setErrorMsg None st.

End Lifecycle.

(** The first exception among the calls of a start, if any. *)
Definition start_error (env : StartEnv) : option Exn :=
  match
    try! hasKey := hasSelectedApiKey env in
    try! _ := (if hasKey then Ok tt else openSelectKey env) in
    try! _ := newGoogleGenAI env in
    try! _ := getUserMedia env in
    try! _ := newInputContext env in
    try! _ := newOutputContext env in
    try! _ := resumeInput env in
    resumeOutput env
  with
  | Throw e => Some e
  | Ok _ => None
  end.

(** *** A scenario: a session that is connecting *)

Definition ready_env : StartEnv :=
  {| hasSelectedApiKey := Ok true; openSelectKey := Ok tt;
     newGoogleGenAI := Ok tt; getUserMedia := Ok [0%nat];
     newInputContext := Ok tt; newOutputContext := Ok tt;
     resumeInput := Ok tt; resumeOutput := Ok tt |}.

Definition plain_error (e : Exn) : AIError :=
  {| message := "Connection failed"; type := "network" |}.

Definition connecting : State := toggleSession plain_error ready_env initial.

Definition half_scale_block : list number := [Num (1 # 2)].

End Live.

(** ** Reading a decoded buffer back *)

Module Readback.
Import Codec.

(** Frame by frame, channel by channel: the order of the samples on the
    wire. *)
Definition interleave (b : AudioBuffer) : list number :=
  flat_map (fun i => map (fun cd => default NaN (cd !! i)) (channels b))
           (seq 0 (frames b)).

(** The float of one inbound sample. *)
Definition scaled (z : Z) : number := Num (inject_Z z / 32768).

(** The channel data of a chunk of whole frames. *)
Definition deinterleaved (dataInt16 : list Z) (numChannels : nat)
  : list (list number) :=
  map (fun c =>
         map (fun i => sample_value dataInt16 (i * numChannels + c))
             (seq 0 (length dataInt16 / numChannels)))
      (seq 0 numChannels).

End Readback.

(** ** The component as a whole: events and runs *)

Module Session.
Import Codec Live.

(** How the connection promise settles. *)
Inductive Outcome : Type :=
| Resolves
| Rejects (reason : Exn).

Definition promise_of (o : Outcome) : Promise :=
  match o with
  | Resolves => Fulfilled
  | Rejects reason => Rejected reason
  end.

(** What can happen to the mounted component: a click on the button
    (line 280) or on Dismiss (line 246), the callbacks of the connection
    (lines 125, 156, 189, 198), the end of a source (line 171), a captured
    block (line 132), the settling of a connection promise, and the
    unmounting (lines 86-90). *)
Inductive Event : Type :=
| EvToggle (env : StartEnv)
| EvDismiss
| EvOpen
| EvMessage (outputCtx : AudioContext) (message : Message)
| EvError (e : Exn)
| EvClose
| EvEnded (source : nat)
| EvAudioProcess (p : nat) (inputData : list number)
| EvSettle (p : nat) (o : Outcome)
| EvUnmount.

Section Run.

Variable handleError : Exn -> AIError.

Definition step (st : State) (ev : Event) : State :=
  match ev with
  | EvToggle env => toggleSession handleError env st
  | EvDismiss => dismiss st
  | EvOpen => onopen st
  | EvMessage outputCtx message => fst (onmessage outputCtx message st)
  | EvError e => onerror handleError e st
  | EvClose => onclose st
  | EvEnded source => onended source st
  | EvAudioProcess p inputData => fst (onaudioprocess p inputData st)
  | EvSettle p o => settle p (promise_of o) st
  | EvUnmount => cleanup st
  end.

Definition run (events : list Event) (st : State) : State :=
  fold_left step events st.

End Run.

(** The events of an open session whose promise is [p]: inbound messages,
    sources that end, blocks captured by its processor. *)
Definition in_session (p : nat) (ev : Event) : Prop :=
  match ev with
  | EvMessage _ _ | EvEnded _ => True
  | EvAudioProcess p' _ => p' = p
  | _ => False
  end.

(** The sources started so far, with the time each was started at. *)
Fixpoint starts (tr : list Effect) : list (nat * Q) :=
  match tr with
  | [] => []
  | SourceStart source when :: tr => (source, when) :: starts tr
  | _ :: tr => starts tr
  end.

(** The blocks the processor of [p] captured during a run. *)
Fixpoint captured (p : nat) (events : list Event) : list (list number) :=
  match events with
  | [] => []
  | EvAudioProcess p' inputData :: events =>
      if Nat.eqb p' p then inputData :: captured p events
      else captured p events
  | _ :: events => captured p events
  end.

(** The transcript fragments of a run of messages, in order. *)
Fixpoint fragments (events : list (AudioContext * Message)) : string :=
  match events with
  | [] => ""
  | (_, message) :: events =>
      match outputTranscription message with
      | Some t => String.append (appended t) (fragments events)
      | None => fragments events
      end
  end.

(** What the scheduler keeps: the registered sources, the next source
    object, the starts made and the cursor. *)
Record View : Type := {
  v_sources : list Source;
  v_next : nat;
  v_starts : list (nat * Q);
  v_cursor : Q
}.

Definition view (st : State) : View :=
  {| v_sources := sourcesRef st; v_next := nextSource st;
     v_starts := starts (trace st); v_cursor := nextStartTimeRef st |}.

Definition v_reset (v : View) : View :=
  {| v_sources := []; v_next := v_next v; v_starts := v_starts v;
     v_cursor := 0 |}.

(** The four ways a handler changes it. *)
Inductive vstep : View -> View -> Prop :=
| vs_reset v :
    vstep v {| v_sources := []; v_next := v_next v;
               v_starts := v_starts v; v_cursor := 0 |}
| vs_raise v t :
    vstep v {| v_sources := v_sources v; v_next := v_next v;
               v_starts := v_starts v; v_cursor := Qmax (v_cursor v) t |}
| vs_add v t b :
    (0 <= duration b)%Q ->
    vstep v {| v_sources :=
                 v_sources v ++ [{| source_id := v_next v; buffer := b |}];
               v_next := S (v_next v);
               v_starts := v_starts v ++ [(v_next v, Qmax (v_cursor v) t)];
               v_cursor := (Qmax (v_cursor v) t + duration b)%Q |}
| vs_drop v source :
    vstep v {| v_sources :=
                 filter (fun s => source_id s <> source) (v_sources v);
               v_next := v_next v; v_starts := v_starts v;
               v_cursor := v_cursor v |}.

(** Every registered source is a distinct object that was started, at a
    time that is not negative and not after the cursor; the cursor is not
    negative.  Only relations of order are stated of the times, which
    rounding the sums to doubles, as the code does, preserves. *)
Record scheduled (v : View) : Prop := {
  sch_fresh : Forall (fun s => (source_id s < v_next v)%nat) (v_sources v);
  sch_distinct : NoDup (map source_id (v_sources v));
  sch_started_fresh : Forall (fun iw => (fst iw < v_next v)%nat) (v_starts v);
  sch_started_distinct : NoDup (map fst (v_starts v));
  sch_started :
    Forall (fun s => exists w,
                In (source_id s, w) (v_starts v) /\
                (0 <= w)%Q /\ (w <= v_cursor v)%Q)
           (v_sources v);
  sch_cursor : (0 <= v_cursor v)%Q
}.

(** *** What the component shows (lines 279-289) *)

(** The label of the button. *)
Definition buttonLabel (st : State) : string :=
  if isActive st then "End Conversation"
  else if isConnecting st then "Connecting..."
  else "Start Talking Now".

(** [disabled={isConnecting}]. *)
Definition buttonDisabled (st : State) : bool := isConnecting st.

(** At most one of the two lifecycle flags is set. *)
Definition exclusive (st : State) : Prop :=
  isActive st && isConnecting st = false.

(** The call a start makes when no key has been selected. *)
Definition key_calls (env : StartEnv) : list Effect :=
  match hasSelectedApiKey env with
  | Ok false => [OpenSelectKey]
  | _ => []
  end.

(** A session that is open on the promise [p]. *)
Definition open_session (p : nat) (st : State) : Prop :=
  isActive st = true /\ sessionPromiseRef st = Some p /\
  promise_at p st = Fulfilled.

(** Two states that differ at most in the scheduler, the transcript and
    calls that send nothing. *)
Definition same_session (st st' : State) : Prop :=
  isActive st' = isActive st /\ isConnecting st' = isConnecting st /\
  errorMsg st' = errorMsg st /\
  sessionPromiseRef st' = sessionPromiseRef st /\
  promises st' = promises st /\ streamRef st' = streamRef st /\
  audioContextsRef st' = audioContextsRef st /\
  sent (trace st') = sent (trace st) /\
  teardowns (trace st') = teardowns (trace st) /\
  connects (trace st') = connects (trace st).

(** *** A teardown that waits for the connection promise *)





End Session.

(** ** The chat pane ([ChatInterface], src/unnamed/part_000) *)

Module Chat.

(** A JavaScript string: its UTF-16 code units. *)
Definition jsstring : Type := list Z.

Definition js (s : string) : jsstring :=
  map (fun c => Z.of_N (N_of_ascii c)) (list_ascii_of_string s).

(** The white space and line terminators [trim] removes. *)
Definition is_whitespace (c : Z) : bool :=
  ((9 <=? c) && (c <=? 13)) || (c =? 32) || (c =? 160) || (c =? 5760)
  || ((8192 <=? c) && (c <=? 8202)) || (c =? 8232) || (c =? 8233)
  || (c =? 8239) || (c =? 8287) || (c =? 12288) || (c =? 65279).

(** [!text.trim()]. *)
Definition blank (text : jsstring) : bool := forallb is_whitespace text.

(** A string that may be [undefined], as a condition: [undefined] and the
    empty string are false. *)
Definition truthy (s : option jsstring) : bool :=
  match s with
  | Some (_ :: _) => true
  | _ => false
  end.

(** [a || b]. *)
Definition or_else (a b : option jsstring) : option jsstring :=
  if truthy a then a else b.

(** A message id: ['initial'], or the decimal numeral of a time in
    milliseconds; two numerals are equal when the numbers are. *)
Inductive MsgId : Type :=
| InitialId
| TimeId (t : Z).

#[global] Instance MsgId_eq_dec : EqDecision MsgId.
Proof. solve_decision. Defined.

Inductive Role : Type := user | assistant.

Record ChatMessage : Type := {
  id : MsgId;
  role : Role;
  content : jsstring;
  timestamp : Z
}.

Record AIError : Type := {
  type : string;
  message : string;
  isRetryable : bool
}.

(** A grounding chunk of a reply, as far as lines 116-121 read it. *)
Record Place : Type := {
  title : option jsstring;
  uri : option jsstring
}.

Record GroundingChunk : Type := {
  maps : option Place;
  web : option Place
}.

(** A chunk of the reply stream: [chunk.text] and
    [chunk.candidates?.[0]?.groundingMetadata?.groundingChunks]. *)
Record Chunk : Type := {
  text : option jsstring;
  groundingChunks : option (list GroundingChunk)
}.

(** A reference shown under the reply. *)
Record Url : Type := {
  url_title : option jsstring;
  url_uri : option jsstring
}.

Inductive Sound : Type := send | receive.

Inductive ChatEffect : Type :=
| PlayChatSound (sound : Sound)
| SendMessageStream (message : jsstring)
| GenerateSpeech (spoken : jsstring).

Record State : Type := {
  messages : list ChatMessage;
  input : jsstring;
  isTyping : bool;
  isAutoSpeech : bool;
  groundingUrls : list Url;
  lastError : option AIError;
  feedbackRating : option bool;
  feedbackComment : jsstring;
  isFeedbackSubmitted : bool;
  feedbackMsgId : option MsgId;
  effects : list ChatEffect
}.

(** [p?.field]. *)
Definition field (p : option Place) (f : Place -> option jsstring)
  : option jsstring :=
  match p with
  | Some place => f place
  | None => None
  end.

(** Lines 118-121: the references of a chunk. *)
Definition references (grounding : list GroundingChunk) : list Url :=
  List.filter (fun u => truthy (url_uri u))
    (map (fun c =>
            {| url_title :=
                 or_else (or_else (field (maps c) title) (field (web c) title))
                         (Some (js "Reference"));
               url_uri := or_else (field (maps c) uri) (field (web c) uri) |})
         grounding).

(** Lines 125-133: the reply so far replaces the message of this reply, or
    is added when there is none yet. *)
Definition upsert (botMessageId : MsgId) (fullResponse : jsstring) (now : Z)
    (prev : list ChatMessage) : list ChatMessage :=
  let otherMessages := filter (fun m => id m <> botMessageId) prev in
  otherMessages
  ++ [{| id := botMessageId; role := assistant; content := fullResponse;
         timestamp := now |}].

(** The variables of the loop of lines 107-134. *)
Record Loop : Type := {
  state : State;
  fullResponse : jsstring;
  soundPlayed : bool
}.

Definition with_messages (v : list ChatMessage) (st : State) : State :=
  {| messages := v; input := input st; isTyping := isTyping st;
     isAutoSpeech := isAutoSpeech st; groundingUrls := groundingUrls st;
     lastError := lastError st; feedbackRating := feedbackRating st;
     feedbackComment := feedbackComment st;
     isFeedbackSubmitted := isFeedbackSubmitted st;
     feedbackMsgId := feedbackMsgId st; effects := effects st |}.

Definition setIsTyping (v : bool) (st : State) : State :=
  {| messages := messages st; input := input st; isTyping := v;
     isAutoSpeech := isAutoSpeech st; groundingUrls := groundingUrls st;
     lastError := lastError st; feedbackRating := feedbackRating st;
     feedbackComment := feedbackComment st;
     isFeedbackSubmitted := isFeedbackSubmitted st;
     feedbackMsgId := feedbackMsgId st; effects := effects st |}.

Definition setGroundingUrls (v : list Url) (st : State) : State :=
  {| messages := messages st; input := input st; isTyping := isTyping st;
     isAutoSpeech := isAutoSpeech st; groundingUrls := v;
     lastError := lastError st; feedbackRating := feedbackRating st;
     feedbackComment := feedbackComment st;
     isFeedbackSubmitted := isFeedbackSubmitted st;
     feedbackMsgId := feedbackMsgId st; effects := effects st |}.

Definition setLastError (v : option AIError) (st : State) : State :=
  {| messages := messages st; input := input st; isTyping := isTyping st;
     isAutoSpeech := isAutoSpeech st; groundingUrls := groundingUrls st;
     lastError := v; feedbackRating := feedbackRating st;
     feedbackComment := feedbackComment st;
     isFeedbackSubmitted := isFeedbackSubmitted st;
     feedbackMsgId := feedbackMsgId st; effects := effects st |}.

Definition setFeedbackMsgId (v : option MsgId) (st : State) : State :=
  {| messages := messages st; input := input st; isTyping := isTyping st;
     isAutoSpeech := isAutoSpeech st; groundingUrls := groundingUrls st;
     lastError := lastError st; feedbackRating := feedbackRating st;
     feedbackComment := feedbackComment st;
     isFeedbackSubmitted := isFeedbackSubmitted st;
     feedbackMsgId := v; effects := effects st |}.

Definition effect (e : ChatEffect) (st : State) : State :=
  {| messages := messages st; input := input st; isTyping := isTyping st;
     isAutoSpeech := isAutoSpeech st; groundingUrls := groundingUrls st;
     lastError := lastError st; feedbackRating := feedbackRating st;
     feedbackComment := feedbackComment st;
     isFeedbackSubmitted := isFeedbackSubmitted st;
     feedbackMsgId := feedbackMsgId st; effects := effects st ++ [e] |}.

(** The body of the loop for one chunk, received at the time [now]. *)
Definition on_chunk (botMessageId : MsgId) (l : Loop) (arrival : Z * Chunk)
  : Loop :=
  let '(now, chunk) := arrival in
  let st := setIsTyping false (state l) in
  let fullResponse :=
    fullResponse l ++ (if truthy (text chunk) then default [] (text chunk)
                       else []) in
  let st := if soundPlayed l then st else effect (PlayChatSound receive) st in
  let st :=
    match groundingChunks chunk with
    | Some grounding => setGroundingUrls (references grounding) st
    | None => st
    end in
  let st := with_messages (upsert botMessageId fullResponse now (messages st)) st in
  {| state := st; fullResponse := fullResponse; soundPlayed := true |}.

(** What the platform and the service answer during one send: the two
    readings of the clock (lines 83 and 101), and the reply, which fails at
    once or is a stream of chunks, each with its time of arrival, that
    ends or fails. *)
Record SendEnv : Type := {
  now_user : Z;
  now_bot : Z;
  reply : result (list (Z * Chunk) * option Exn)
}.

Section Handlers.

(** [healthAI.handleError] of [geminiService], which is not part of the
    sources at hand. *)
Variable handleError : Exn -> AIError.

(** The [catch] of lines 144-148. *)
Definition failed (error : Exn) (st : State) : State :=
  setLastError (Some (handleError error)) (setIsTyping false st).

(** [handleSend], lines 77-149. *)
Definition handleSend (env : SendEnv) (text : jsstring) (st : State) : State :=
  if blank text then st
  else
    let st := effect (PlayChatSound send) st in
    let userMessage :=
      {| id := TimeId (now_user env); role := user; content := text;
         timestamp := now_user env |} in
    let st :=
      {| messages := messages st ++ [userMessage]; input := [];
         isTyping := true; isAutoSpeech := isAutoSpeech st;
         groundingUrls := []; lastError := None; feedbackRating := None;
         feedbackComment := []; isFeedbackSubmitted := false;
         feedbackMsgId := None; effects := effects st |} in
    let botMessageId := TimeId (now_bot env + 1) in
    let st := effect (SendMessageStream text) st in
    match reply env with
    | Throw error => failed error st
    | Ok (chunks, ending) =>
        let l :=
          fold_left (on_chunk botMessageId) chunks
            {| state := st; fullResponse := []; soundPlayed := false |} in
        match ending with
        | Some error => failed error (state l)
        | None =>
            let st := state l in
            let st :=
              if isAutoSpeech st && truthy (Some (fullResponse l))
              then effect (GenerateSpeech (fullResponse l)) st
              else st in
            setFeedbackMsgId (Some botMessageId) st
        end
    end.

(** The Try Again button, line 392: the content of the last message is
    sent.  (The list is never empty: it starts with the greeting and only
    grows.) *)
Definition tryAgain (env : SendEnv) (st : State) : State :=
  match last (messages st) with
  | Some m => handleSend env (content m) st
  | None => st
  end.

End Handlers.

(** The feedback pane is shown (line 417). *)
Definition feedbackShown (st : State) : bool :=
  match feedbackMsgId st, last (messages st) with
  | Some botMessageId, Some m => bool_decide (id m = botMessageId)
  | _, _ => false
  end.

(** The button of the form is disabled (line 517). *)
Definition submitDisabled (isRecording : bool) (st : State) : bool :=
  blank (input st) || isTyping st || isRecording.

(** The text of a stream of chunks. *)
Definition reply_text (chunks : list (Z * Chunk)) : jsstring :=
  flat_map (fun arrival =>
              if truthy (text (snd arrival))
              then default [] (text (snd arrival)) else [])
           chunks.

End Chat.

(** * The media centre ([MediaCenter]) *)

Module Media.

Definition jsstring : Type := Chat.jsstring.
Definition AIError : Type := Chat.AIError.

Inductive Tab : Type := edit | analyze.

(** A file chosen by the user, as far as the component reads it: its
    [type], and what [FileReader.readAsDataURL] gives for it: the data URL
    passed to [onload], or nothing when the read fails ([onload] is then
    never called). *)
Record File : Type := {
  file_type : jsstring;
  dataURL : option jsstring
}.

Inductive MediaEffect : Type :=
| EditImage (base64 : option jsstring) (mimeType prompt : jsstring)
| AnalyzeMedia (media : File) (prompt : jsstring)
| OpenSelectKey.

Record State : Type := {
  activeTab : Tab;
  loading : bool;
  prompt : jsstring;
  resultUrl : option jsstring;
  analysis : option jsstring;
  file : option File;
  error : option AIError;
  effects : list MediaEffect
}.

(** Lines 5-11. *)
Definition initial : State :=
  {| activeTab := analyze; loading := false; prompt := []; resultUrl := None;
     analysis := None; file := None; error := None; effects := [] |}.

Definition setActiveTab (v : Tab) (st : State) : State :=
  {| activeTab := v; loading := loading st; prompt := prompt st;
     resultUrl := resultUrl st; analysis := analysis st; file := file st;
     error := error st; effects := effects st |}.

Definition setLoading (v : bool) (st : State) : State :=
  {| activeTab := activeTab st; loading := v; prompt := prompt st;
     resultUrl := resultUrl st; analysis := analysis st; file := file st;
     error := error st; effects := effects st |}.

Definition setPrompt (v : jsstring) (st : State) : State :=
  {| activeTab := activeTab st; loading := loading st; prompt := v;
     resultUrl := resultUrl st; analysis := analysis st; file := file st;
     error := error st; effects := effects st |}.

Definition setResultUrl (v : option jsstring) (st : State) : State :=
  {| activeTab := activeTab st; loading := loading st; prompt := prompt st;
     resultUrl := v; analysis := analysis st; file := file st;
     error := error st; effects := effects st |}.

Definition setAnalysis (v : option jsstring) (st : State) : State :=
  {| activeTab := activeTab st; loading := loading st; prompt := prompt st;
     resultUrl := resultUrl st; analysis := v; file := file st;
     error := error st; effects := effects st |}.

Definition setFile (v : option File) (st : State) : State :=
  {| activeTab := activeTab st; loading := loading st; prompt := prompt st;
     resultUrl := resultUrl st; analysis := analysis st; file := v;
     error := error st; effects := effects st |}.

Definition setError (v : option AIError) (st : State) : State :=
  {| activeTab := activeTab st; loading := loading st; prompt := prompt st;
     resultUrl := resultUrl st; analysis := analysis st; file := file st;
     error := v; effects := effects st |}.

Definition effect (e : MediaEffect) (st : State) : State :=
  {| activeTab := activeTab st; loading := loading st; prompt := prompt st;
     resultUrl := resultUrl st; analysis := analysis st; file := file st;
     error := error st; effects := effects st ++ [e] |}.

(** [s.split(sep)] for a separator of one code unit. *)
Fixpoint split (sep : Z) (s : jsstring) : list jsstring :=
  match s with
  | [] => [[]]
  | c :: rest =>
      if c =? sep then [] :: split sep rest
      else match split sep rest with
           | piece :: pieces => (c :: piece) :: pieces
           | [] => [[c]]
           end
  end.

Definition comma : Z := 44.

(** How an [async] function ends: it returns, it throws, or it waits for a
    promise that is never settled. *)
Inductive Completion : Type :=
| Returns
| Throws (e : Exn)
| Hangs.

(** What the service and the platform answer during one task. *)
Record TaskEnv : Type := {
  editImage : result jsstring;
  analyzeMedia : result jsstring;
  openSelectKey : result unit
}.

Section Tasks.

(** [healthAI.handleError] of [geminiService], which is not part of the
    sources at hand. *)
Variable handleError : Exn -> AIError.

(** [wrapAiTask], lines 13-27. *)
Definition wrapAiTask (env : TaskEnv) (task : State -> State * Completion)
    (st : State) : State * Completion :=
  let st := setLoading true st in
  let st := setError None st in
  match task st with
  | (st, Returns) => (setLoading false st, Returns)
  | (st, Hangs) => (st, Hangs)
  | (st, Throws err) =>
      let aiError := handleError err in
      let st := setError (Some aiError) st in
      if String.eqb (Chat.type aiError) "key" then
        let st := effect OpenSelectKey st in
        match openSelectKey env with
        | Ok _ => (setLoading false st, Returns)
        | Throw e => (setLoading false st, Throws e)
        end
      else (setLoading false st, Returns)
  end.

(** [handleEditImage], lines 29-40. *)
Definition handleEditImage (env : TaskEnv) : State -> State * Completion :=
  wrapAiTask env (fun st =>
    match file st with
    | None => (st, Returns)
    | Some f =>
        let st := setResultUrl None st in
        let st := setAnalysis None st in
        match dataURL f with
        | None => (st, Hangs)
        | Some data =>
            let base64 := split comma data !! 1%nat in
            let st := effect (EditImage base64 (file_type f) (prompt st)) st in
            match editImage env with
            | Ok url => (setResultUrl (Some url) st, Returns)
            | Throw e => (st, Throws e)
            end
        end
    end).

(** [handleAnalyze], lines 42-48. *)
Definition handleAnalyze (env : TaskEnv) : State -> State * Completion :=
  wrapAiTask env (fun st =>
    match file st with
    | None => (st, Returns)
    | Some f =>
        let st := setAnalysis None st in
        let st := setResultUrl None st in
        let instructions :=
          if Chat.truthy (Some (prompt st)) then prompt st
          else Chat.js "What is in this media? Focus on health aspects." in
        let st := effect (AnalyzeMedia f instructions) st in
        match analyzeMedia env with
        | Ok result => (setAnalysis (Some result) st, Returns)
        | Throw e => (st, Throws e)
        end
    end).

(** The button of lines 87-89: it is disabled. *)
Definition buttonDisabled (st : State) : bool :=
  loading st || negb (bool_decide (is_Some (file st))).

(** What the user does. *)
Inductive Event : Type :=
| EvTab (tab : Tab)
| EvFile (chosen : option File)
| EvPrompt (value : jsstring)
| EvClick (env : TaskEnv).

Definition step (ev : Event) (st : State) : State :=
  match ev with
  | EvTab tab => setError None (setActiveTab tab st)
  | EvFile chosen => setFile chosen st
  | EvPrompt value => setPrompt value st
  | EvClick env =>
      if buttonDisabled st then st
      else fst (match activeTab st with
                | edit => handleEditImage env st
                | analyze => handleAnalyze env st
                end)
  end.

Definition run (evs : list Event) (st : State) : State :=
  fold_left (fun st ev => step ev st) evs st.

End Tasks.

(** What the result pane shows, lines 113-125. *)
Inductive Pane : Type :=
| Image (url : jsstring)
| Text (result : jsstring)
| Placeholder.

Definition pane (st : State) : Pane :=
  match resultUrl st with
  | Some (c :: url) => Image (c :: url)
  | _ => match analysis st with
         | Some (c :: result) => Text (c :: result)
         | _ => Placeholder
         end
  end.

End Media.

(** * Properties *)

(** ** Base64 round trip *)

Module Base64Facts.
Import Base64.

Lemma sextet_ok_all : forallb sextet_ok (map Z.of_nat (seq 0 64)) = true.
Proof. vm_compute. reflexivity. Qed.

Lemma sextet_ok_true i : is_sextet i -> sextet_ok i = true.
Proof.
  intros Hi. pose proof sextet_ok_all as H.
  rewrite forallb_forall in H. apply H.
  apply in_map_iff. exists (Z.to_nat i). split; [unfold is_sextet in Hi; lia|].
  apply in_seq. unfold is_sextet in Hi. lia.
Qed.

Lemma b64_index_char i : is_sextet i -> b64_index (b64_char i) = Some i.
Proof.
  intros Hi. apply sextet_ok_true in Hi. unfold sextet_ok in Hi.
  apply andb_prop in Hi as [Hi _]. apply andb_prop in Hi as [Hi _].
  destruct (b64_index (b64_char i)) as [j|]; [|discriminate].
  apply Z.eqb_eq in Hi. congruence.
Qed.

Lemma b64_char_not_pad i : is_sextet i -> b64_char i <> pad.
Proof.
  intros Hi Heq. apply sextet_ok_true in Hi. unfold sextet_ok in Hi.
  apply andb_prop in Hi as [Hi _]. apply andb_prop in Hi as [_ Hi].
  rewrite Heq in Hi. vm_compute in Hi. discriminate.
Qed.

Lemma b64_char_not_whitespace i :
  is_sextet i -> is_ascii_whitespace (b64_char i) = false.
Proof.
  intros Hi. apply sextet_ok_true in Hi. unfold sextet_ok in Hi.
  apply andb_prop in Hi as [_ Hi]. now apply negb_true_iff in Hi.
Qed.

(** Induction three elements at a time, the step of both coders. *)
Lemma list_ind3 {A} (P : list A -> Prop) :
  P [] -> (forall a, P [a]) -> (forall a b, P [a; b]) ->
  (forall a b c l, P l -> P (a :: b :: c :: l)) ->
  forall l, P l.
Proof.
  intros H0 H1 H2 H3 l.
  assert (P l /\ (forall a, P (a :: l)) /\ (forall a b, P (a :: b :: l)))
    as [H _]; [|exact H].
  induction l as [|x l (IH0 & IH1 & IH2)]; [now auto|].
  split; [apply IH1|]. split; [intros a; apply IH2|].
  intros a b. apply H3, IH0.
Qed.

Lemma sextets_of_bytes_range bs :
  Forall is_byte bs -> Forall is_sextet (sextets_of_bytes bs).
Proof.
  induction bs as [|a|a b|a b c l IH] using list_ind3; intros H; simpl.
  - constructor.
  - inversion_clear H. unfold is_byte, is_sextet in *.
    repeat constructor; Z.div_mod_to_equations; lia.
  - inversion_clear H as [|? ? Ha H']. inversion_clear H' as [|? ? Hb _].
    unfold is_byte, is_sextet in *.
    repeat constructor; Z.div_mod_to_equations; lia.
  - inversion_clear H as [|? ? Ha H']. inversion_clear H' as [|? ? Hb H''].
    inversion_clear H'' as [|? ? Hc Hl].
    unfold is_byte, is_sextet in *.
    repeat (constructor; [Z.div_mod_to_equations; lia|]). now apply IH.
Qed.

Lemma bytes_of_sextets_of_bytes bs :
  Forall is_byte bs -> bytes_of_sextets (sextets_of_bytes bs) = bs.
Proof.
  induction bs as [|a|a b|a b c l IH] using list_ind3; intros H.
  - reflexivity.
  - inversion_clear H. unfold is_byte in *. simpl. f_equal.
    Z.div_mod_to_equations; lia.
  - inversion_clear H as [|? ? Ha H']. inversion_clear H' as [|? ? Hb _].
    unfold is_byte in *. simpl.
    f_equal; [|f_equal]; Z.div_mod_to_equations; lia.
  - inversion_clear H as [|? ? Ha H']. inversion_clear H' as [|? ? Hb H''].
    inversion_clear H'' as [|? ? Hc Hl].
    unfold is_byte in *.
    change (sextets_of_bytes (a :: b :: c :: l))
      with (a / 4 :: (a mod 4) * 16 + b / 16 :: (b mod 16) * 4 + c / 64
              :: c mod 64 :: sextets_of_bytes l).
    cbn [bytes_of_sextets]. rewrite (IH Hl).
    f_equal; [|f_equal; [|f_equal]]; Z.div_mod_to_equations; lia.
Qed.

Lemma sextets_length_mod bs :
  (length (sextets_of_bytes bs) mod 4 <> 1)%nat /\
  ((length (sextets_of_bytes bs) + length (padding bs)) mod 4 = 0)%nat.
Proof.
  induction bs as [|a|a b|a b c l [IH1 IH2]] using list_ind3;
    try (split; [vm_compute; discriminate | reflexivity]).
  change (sextets_of_bytes (a :: b :: c :: l))
    with (a / 4 :: (a mod 4) * 16 + b / 16 :: (b mod 16) * 4 + c / 64
            :: c mod 64 :: sextets_of_bytes l).
  change (padding (a :: b :: c :: l)) with (padding l).
  cbn [length].
  replace (S (S (S (S (length (sextets_of_bytes l))))))
    with (length (sextets_of_bytes l) + 1 * 4)%nat by lia.
  split.
  - now rewrite Nat.Div0.mod_add.
  - replace (length (sextets_of_bytes l) + 1 * 4 + length (padding l))%nat
      with (length (sextets_of_bytes l) + length (padding l) + 1 * 4)%nat by lia.
    now rewrite Nat.Div0.mod_add.
Qed.

Lemma padding_cases bs :
  padding bs = [] \/ padding bs = [pad] \/ padding bs = [pad; pad].
Proof.
  induction bs as [|a|a b|a b c l IH] using list_ind3; simpl; auto.
Qed.

Lemma strip_padding_app xs p :
  Forall (fun c => c <> pad) xs ->
  p = [] \/ p = [pad] \/ p = [pad; pad] ->
  (length (xs ++ p) mod 4 = 0)%nat ->
  strip_padding (xs ++ p) = xs.
Proof.
  intros Hxs Hp Hlen. unfold strip_padding.
  rewrite Hlen. cbn [Nat.eqb]. rewrite rev_app_distr.
  assert (Hhead : forall c r, rev xs = c :: r -> Ascii.eqb c pad = false).
  { intros c r Hr. apply Ascii.eqb_neq.
    rewrite Forall_forall in Hxs. apply Hxs.
    apply list_elem_of_In, in_rev. rewrite Hr. now left. }
  assert (Hnil : rev xs = [] -> xs = []).
  { intros Hr. rewrite <- (rev_involutive xs), Hr. reflexivity. }
  assert (Hrev : forall c r, rev xs = c :: r -> rev (c :: r) = xs).
  { intros c r Hr. rewrite <- Hr. apply rev_involutive. }
  destruct Hp as [-> | [-> | ->]]; cbn [rev app].
  - rewrite app_nil_r.
    destruct (rev xs) as [|c1 [|c2 r]] eqn:Hr; [reflexivity| |];
      now rewrite (Hhead _ _ eq_refl).
  - destruct (rev xs) as [|c2 r] eqn:Hr; cbn.
    + now rewrite Hnil.
    + rewrite (Hhead _ _ eq_refl). now apply Hrev.
  - destruct (rev xs) as [|c2 r] eqn:Hr; cbn.
    + now rewrite Hnil.
    + now apply Hrev.
Qed.

Lemma sextets_of_chars_map ss :
  Forall is_sextet ss -> sextets_of_chars (map b64_char ss) = Some ss.
Proof.
  induction 1 as [|i ss Hi _ IH]; [reflexivity|].
  cbn. now rewrite (b64_index_char i Hi), IH.
Qed.

Lemma filter_keep_all {A} (P : A -> Prop) `{!forall x, Decision (P x)} l :
  Forall P l -> filter P l = l.
Proof.
  induction 1 as [|x l Hx _ IH]; [reflexivity|].
  rewrite filter_cons_True by exact Hx. now rewrite IH.
Qed.

Lemma forallb_is_latin1 bs : Forall is_byte bs -> forallb is_latin1 bs = true.
Proof.
  induction 1 as [|b bs Hb _ IH]; [reflexivity|].
  cbn. rewrite IH. unfold is_latin1, is_byte in *.
  destruct (Z.leb_spec 0 b), (Z.ltb_spec b 256); first [reflexivity | lia].
Qed.

(** [atob] inverts [btoa] on byte strings. *)
Lemma atob_btoa bs :
  Forall is_byte bs ->
  exists base64, btoa bs = Ok base64 /\ atob base64 = Ok bs.
Proof.
  intros Hbs. unfold btoa. rewrite (forallb_is_latin1 _ Hbs).
  eexists. split; [reflexivity|].
  unfold atob. rewrite list_ascii_of_string_of_list_ascii.
  pose proof (sextets_of_bytes_range bs Hbs) as Hss.
  assert (Hnp : Forall (fun c => c <> pad) (map b64_char (sextets_of_bytes bs))).
  { apply Forall_map. eapply Forall_impl; [exact Hss|].
    intros i Hi. now apply b64_char_not_pad. }
  destruct (sextets_length_mod bs) as [Hm1 Hm0].
  rewrite filter_keep_all.
  2:{ apply Forall_app. split.
      - apply Forall_map. eapply Forall_impl; [exact Hss|].
        intros i Hi. now apply b64_char_not_whitespace.
      - destruct (padding_cases bs) as [-> | [-> | ->]];
          repeat constructor. }
  rewrite strip_padding_app; [|exact Hnp|apply padding_cases|].
  2:{ now rewrite length_app, length_map. }
  rewrite length_map.
  destruct (Nat.eqb_spec (length (sextets_of_bytes bs) mod 4) 1) as [E|_];
    [contradiction|].
  rewrite (sextets_of_chars_map _ Hss).
  now rewrite bytes_of_sextets_of_bytes.
Qed.

End Base64Facts.

(** ** The frame codec *)

Module CodecFacts.
Import Base64 Base64Facts Codec Readback.

Lemma binary_string_of_bytes (bytes acc : list Z) :
  fold_left (fun binary b => binary ++ [b]) bytes acc = acc ++ bytes.
Proof.
  revert acc. induction bytes as [|b bytes IH]; intros acc; cbn.
  - now rewrite app_nil_r.
  - rewrite IH, <- app_assoc. reflexivity.
Qed.

Lemma Uint8Array_of_Int16Array_bytes samples :
  Forall is_byte (Uint8Array_of_Int16Array samples).
Proof.
  induction samples as [|z l IH]; cbn; [constructor|].
  repeat (constructor; [unfold is_byte; Z.div_mod_to_equations; lia|]).
  exact IH.
Qed.

Lemma ToUint8_byte bs : Forall is_byte bs -> map ToUint8 bs = bs.
Proof.
  induction 1 as [|b bs Hb _ IH]; [reflexivity|].
  cbn. rewrite IH. f_equal. unfold ToUint8, is_byte in *.
  now apply Z.mod_small.
Qed.

Lemma ToInt16_bytes z :
  is_int16 z -> ToInt16 (z mod 256 + 256 * ((z / 256) mod 256)) = z.
Proof.
  unfold is_int16, ToInt16. intros Hz.
  destruct (Z.leb_spec 32768
              ((z mod 256 + 256 * ((z / 256) mod 256)) mod 65536));
    Z.div_mod_to_equations; lia.
Qed.

Lemma int16_view_bytes samples :
  Forall is_int16 samples ->
  int16_view (Uint8Array_of_Int16Array samples) = samples.
Proof.
  induction 1 as [|z l Hz _ IH]; [reflexivity|].
  cbn. rewrite ToInt16_bytes by exact Hz. f_equal. exact IH.
Qed.

Lemma Uint8Array_of_Int16Array_length samples :
  length (Uint8Array_of_Int16Array samples) = (2 * length samples)%nat.
Proof.
  unfold Uint8Array_of_Int16Array.
  induction samples as [|z l IH]; [reflexivity|].
  cbn [flat_map int16_bytes app length]. rewrite IH. lia.
Qed.

Lemma Int16Array_of_buffer_bytes samples :
  Forall is_int16 samples ->
  Int16Array_of_buffer (Uint8Array_of_Int16Array samples) = Ok samples.
Proof.
  intros H. unfold Int16Array_of_buffer.
  rewrite Uint8Array_of_Int16Array_length.
  replace (Nat.even (2 * length samples)) with true.
  - now rewrite int16_view_bytes.
  - symmetry. apply Nat.even_spec. now exists (length samples).
Qed.

(** [decode] inverts [encode] on every [Uint8Array]. *)
Lemma decode_encode_bytes bytes :
  Forall is_byte bytes ->
  exists base64, encode bytes = Ok base64 /\ decode base64 = Ok bytes.
Proof.
  intros Hb. unfold encode, decode.
  rewrite binary_string_of_bytes. cbn [app].
  destruct (atob_btoa bytes Hb) as (base64 & He & Hd).
  exists base64. split; [exact He|].
  rewrite Hd. cbn. now rewrite ToUint8_byte.
Qed.

(** *** Frame counts *)

Lemma Qtruncate_div (a : Z) (n : nat) :
  (0 < n)%nat ->
  Qtruncate (inject_Z a / inject_Z (Z.of_nat n)) = Z.quot a (Z.of_nat n).
Proof.
  destruct n as [|n]; [lia|]. intros _.
  unfold Qtruncate, Qdiv, Qmult, Qinv, inject_Z. cbn.
  now rewrite Z.mul_1_r.
Qed.

Lemma Qceiling_div (a : Z) (n : nat) :
  (0 < n)%nat ->
  Qceiling (inject_Z a / inject_Z (Z.of_nat n)) = - ((- a) / Z.of_nat n).
Proof.
  destruct n as [|n]; [lia|]. intros _.
  unfold Qceiling, Qfloor, Qdiv, Qmult, Qinv, Qopp, inject_Z. cbn.
  now rewrite Z.mul_1_r.
Qed.

Lemma frame_count_exact (len n : nat) :
  (0 < n)%nat -> (len mod n = 0)%nat ->
  let frameCount := (inject_Z (Z.of_nat len) / inject_Z (Z.of_nat n))%Q in
  Z.to_nat (Qtruncate frameCount) = (len / n)%nat /\
  Z.to_nat (Qceiling frameCount) = (len / n)%nat.
Proof.
  intros Hn Hmod frameCount. subst frameCount.
  rewrite Qtruncate_div, Qceiling_div by exact Hn.
  assert (Hlen : len = (n * (len / n))%nat).
  { pose proof (Nat.div_mod_eq len n). lia. }
  set (F := (len / n)%nat) in *.
  assert (HZ : Z.of_nat len = Z.of_nat F * Z.of_nat n) by lia.
  rewrite HZ. split.
  - rewrite Z.quot_mul by lia. lia.
  - rewrite <- Z.mul_opp_l, Z.div_mul by lia. lia.
Qed.

(** *** The two loops of [decodeAudioData] *)

Lemma fold_insert_seq {A} (f : nat -> A) (k : nat) (l : list A) :
  (k <= length l)%nat ->
  fold_left (fun cd i => <[i := f i]> cd) (seq 0 k) l
  = map f (seq 0 k) ++ drop k l.
Proof.
  induction k as [|k IH]; intros Hk; [reflexivity|].
  rewrite seq_S, fold_left_app, map_app. cbn [fold_left map Nat.add].
  rewrite IH by lia.
  destruct (lookup_lt_is_Some_2 l k ltac:(lia)) as [x Hx].
  rewrite (drop_S _ _ _ Hx).
  rewrite insert_app_r_alt by (rewrite length_map, length_seq; lia).
  rewrite length_map, length_seq, Nat.sub_diag. cbn.
  now rewrite <- app_assoc.
Qed.

Lemma fill_channel_exact dataInt16 numChannels frameCount channel cd :
  Z.to_nat (Qceiling frameCount) = length cd ->
  fill_channel dataInt16 numChannels frameCount channel cd
  = map (fun i => sample_value dataInt16 (i * numChannels + channel))
        (seq 0 (length cd)).
Proof.
  intros Hc. unfold fill_channel. rewrite Hc.
  rewrite fold_insert_seq by lia.
  now rewrite drop_all, app_nil_r.
Qed.

Lemma fold_channels {A} (g : nat -> A -> A) (z : A) (m k : nat) :
  (k <= m)%nat ->
  fold_left
    (fun chs c =>
       match chs !! c with
       | Some cd => <[c := g c cd]> chs
       | None => chs
       end)
    (seq 0 k) (replicate m z)
  = map (fun c => g c z) (seq 0 k) ++ replicate (m - k) z.
Proof.
  induction k as [|k IH]; intros Hk.
  - cbn. now rewrite Nat.sub_0_r.
  - rewrite seq_S, fold_left_app, map_app. cbn [fold_left map Nat.add].
    rewrite IH by lia.
    replace (m - k)%nat with (S (m - S k)) by lia. cbn [replicate].
    rewrite lookup_app_r by (rewrite length_map, length_seq; lia).
    rewrite length_map, length_seq, Nat.sub_diag. cbn [lookup list_lookup].
    rewrite insert_app_r_alt by (rewrite length_map, length_seq; lia).
    rewrite length_map, length_seq, Nat.sub_diag. cbn.
    now rewrite <- app_assoc.
Qed.

Lemma decodeAudioData_whole_frames data ctx rate numChannels :
  Nat.even (length data) = true ->
  (0 < numChannels <= maxChannels ctx)%nat ->
  supportsRate ctx rate = true ->
  (length (int16_view data) mod numChannels = 0)%nat ->
  (0 < length (int16_view data))%nat ->
  decodeAudioData data ctx rate numChannels
  = Ok {| numberOfChannels := numChannels;
          frames := length (int16_view data) / numChannels;
          sampleRate := rate;
          channels := deinterleaved (int16_view data) numChannels |}.
Proof.
  intros Heven [Hn Hmax] Hrate Hmod Hpos.
  unfold decodeAudioData, Int16Array_of_buffer. rewrite Heven. cbn [bind].
  destruct (frame_count_exact _ _ Hn Hmod) as [Ht Hc].
  unfold createBuffer. rewrite Ht, Hrate.
  assert (HF : (0 < length (int16_view data) / numChannels)%nat).
  { pose proof (Nat.div_mod_eq (length (int16_view data)) numChannels). nia. }
  destruct (Nat.ltb_spec 0 numChannels); [|lia].
  destruct (Nat.leb_spec numChannels (maxChannels ctx)); [|lia].
  destruct (Nat.ltb_spec 0 (length (int16_view data) / numChannels)); [|lia].
  cbn [andb bind numberOfChannels frames sampleRate channels].
  f_equal. f_equal.
  rewrite fold_channels by lia. rewrite Nat.sub_diag. cbn [replicate].
  rewrite app_nil_r. unfold deinterleaved.
  apply map_ext. intros c.
  rewrite fill_channel_exact by (now rewrite length_replicate).
  now rewrite length_replicate.
Qed.

(** *** Reading the buffer back *)

Lemma map_seq_from {A} (g : nat -> A) (a n : nat) :
  map g (seq a n) = map (fun c => g (a + c)%nat) (seq 0 n).
Proof.
  revert a. induction n as [|n IH]; intros a; [reflexivity|].
  cbn [seq map]. rewrite Nat.add_0_r. f_equal.
  rewrite IH, <- seq_shift, map_map.
  apply map_ext. intros c. f_equal. lia.
Qed.

Lemma flat_map_seq_blocks {A} (g : nat -> A) (n F : nat) :
  flat_map (fun i => map (fun c => g (i * n + c)%nat) (seq 0 n)) (seq 0 F)
  = map g (seq 0 (F * n)).
Proof.
  induction F as [|F IH]; [reflexivity|].
  rewrite seq_S, flat_map_app, IH. cbn [flat_map Nat.add].
  rewrite app_nil_r.
  replace (S F * n)%nat with (F * n + n)%nat by lia.
  rewrite seq_app, map_app. f_equal.
  cbn [Nat.add]. now rewrite (map_seq_from g (F * n) n).
Qed.

Lemma sample_values_scaled (s : list Z) :
  map (sample_value s) (seq 0 (length s)) = map scaled s.
Proof.
  induction s as [|z s IH]; [reflexivity|].
  cbn [length seq map]. f_equal.
  rewrite <- seq_shift, map_map. rewrite <- IH.
  apply map_ext. intros k. reflexivity.
Qed.

Lemma lookup_map_seq {A} (f : nat -> A) (F i : nat) :
  (i < F)%nat -> map f (seq 0 F) !! i = Some (f i).
Proof.
  intros Hi. change (map f (seq 0 F)) with (f <$> seq 0 F).
  rewrite list_lookup_fmap, lookup_seq_lt by exact Hi. reflexivity.
Qed.

Lemma flat_map_ext_on {A B} (f g : A -> list B) (l : list A) :
  (forall a, In a l -> f a = g a) -> flat_map f l = flat_map g l.
Proof.
  induction l as [|a l IH]; intros H; [reflexivity|].
  cbn. rewrite (H a) by now left.
  rewrite IH; [reflexivity|]. intros b Hb. apply H. now right.
Qed.

Lemma interleave_deinterleaved (s : list Z) (n : nat) :
  (0 < n)%nat -> (length s mod n = 0)%nat ->
  flat_map (fun i => map (fun cd => default NaN (cd !! i)) (deinterleaved s n))
           (seq 0 (length s / n))
  = map scaled s.
Proof.
  intros Hn Hmod.
  assert (Hlen : length s = (length s / n * n)%nat).
  { pose proof (Nat.div_mod_eq (length s) n). lia. }
  rewrite <- sample_values_scaled.
  replace (seq 0 (length s)) with (seq 0 (length s / n * n))
    by (now rewrite <- Hlen).
  rewrite <- flat_map_seq_blocks.
  apply flat_map_ext_on. intros i Hi. apply in_seq in Hi.
  unfold deinterleaved. rewrite map_map. apply map_ext. intros c.
  rewrite lookup_map_seq by lia. reflexivity.
Qed.

(** *** Sample scaling *)

Lemma ToInt16_small z : is_int16 z -> ToInt16 z = z.
Proof.
  unfold is_int16, ToInt16. intros Hz.
  destruct (Z.leb_spec 32768 (z mod 65536)); Z.div_mod_to_equations; lia.
Qed.

Lemma Qtruncate_scaled_range (q : Q) :
  (-1 <= q)%Q -> (q < 1)%Q -> is_int16 (Qtruncate (q * 32768)).
Proof.
  destruct q as [a b]. unfold Qle, Qlt, Qtruncate, is_int16. cbn.
  intros Hlo Hhi. rewrite Pos.mul_1_r.
  Z.to_euclidean_division_equations. nia.
Qed.

(** *** One channel, the caller's case *)

Lemma int16_view_length data :
  length (int16_view data) = (length data / 2)%nat.
Proof.
  assert (H : length (int16_view data) = (length data / 2)%nat /\
              forall a, length (int16_view (a :: data))
                        = (length (a :: data) / 2)%nat);
    [|exact (proj1 H)].
  induction data as [|b data [IH0 IH1]]; [split; reflexivity|].
  split; [apply IH1|]. intros a.
  cbn [int16_view length]. rewrite IH0.
  change (S (S (length data))) with (1 * 2 + length data)%nat.
  rewrite Nat.div_add_l by lia. reflexivity.
Qed.

Lemma deinterleaved_mono (dataInt16 : list Z) :
  deinterleaved dataInt16 1 = [map scaled dataInt16].
Proof.
  unfold deinterleaved. cbn [seq map]. rewrite Nat.div_1_r.
  f_equal. rewrite <- sample_values_scaled.
  apply map_ext. intros i. f_equal. lia.
Qed.

Lemma decodeAudioData_mono data ctx rate :
  Nat.even (length data) = true -> data <> [] ->
  (1 <= maxChannels ctx)%nat -> supportsRate ctx rate = true ->
  decodeAudioData data ctx rate 1
  = Ok {| numberOfChannels := 1;
          frames := length (int16_view data);
          sampleRate := rate;
          channels := [map scaled (int16_view data)] |}.
Proof.
  intros Heven Hne Hmax Hrate.
  assert (Hpos : (0 < length (int16_view data))%nat).
  { destruct data as [|a [|b data]]; [congruence|discriminate|cbn; lia]. }
  rewrite decodeAudioData_whole_frames; try assumption; try lia.
  - now rewrite Nat.div_1_r, deinterleaved_mono.
  - apply Nat.mod_1_r.
Qed.

Lemma decodeAudioData_odd data ctx rate numChannels :
  Nat.even (length data) = false ->
  decodeAudioData data ctx rate numChannels = Throw RangeError.
Proof.
  intros H. unfold decodeAudioData, Int16Array_of_buffer. now rewrite H.
Qed.

Lemma decodeAudioData_empty ctx rate numChannels :
  decodeAudioData [] ctx rate numChannels = Throw NotSupportedError.
Proof.
  unfold decodeAudioData, Int16Array_of_buffer. cbn [length Nat.even bind int16_view].
  unfold createBuffer.
  replace (Z.to_nat (Qtruncate (inject_Z (Z.of_nat 0) / inject_Z (Z.of_nat numChannels))))
    with 0%nat.
  - cbn [Nat.ltb Nat.leb]. now rewrite andb_false_r.
  - unfold Qtruncate, Qdiv, Qmult. reflexivity.
Qed.

End CodecFacts.

(** ** The session component *)

Module LiveFacts.
Import Codec Live CodecFacts.

(** *** Traces *)

Lemma calls_call e es st : calls es (call e st) = calls (e :: es) st.
Proof. unfold calls, call. cbn. now rewrite <- app_assoc. Qed.

Lemma calls_nil st : calls [] st = st.
Proof. destruct st. unfold calls. cbn. now rewrite app_nil_r. Qed.

Lemma fold_call {A} (f : A -> Effect) (l : list A) (st : State) :
  fold_left (fun st x => call (f x) st) l st = calls (map f l) st.
Proof.
  revert st. induction l as [|a l IH]; intros st; cbn.
  - now rewrite calls_nil.
  - now rewrite IH, calls_call.
Qed.

Lemma start_times_app a b : start_times (a ++ b) = start_times a ++ start_times b.
Proof.
  induction a as [|e a IH]; [reflexivity|].
  destruct e; cbn; now rewrite IH.
Qed.

Lemma sent_app a b : sent (a ++ b) = sent a ++ sent b.
Proof.
  induction a as [|e a IH]; [reflexivity|].
  destruct e; cbn; now rewrite IH.
Qed.

Lemma teardowns_app a b : teardowns (a ++ b) = (teardowns a + teardowns b)%nat.
Proof.
  induction a as [|e a IH]; [reflexivity|].
  destruct e; cbn; now rewrite IH.
Qed.

Lemma connects_app a b : connects (a ++ b) = (connects a + connects b)%nat.
Proof.
  induction a as [|e a IH]; [reflexivity|].
  destruct e; cbn; now rewrite IH.
Qed.

(** A release sends nothing, tears nothing down again and connects
    nothing. *)
Lemma release_calls_quiet st :
  sent (release_calls st) = [] /\ teardowns (release_calls st) = 0%nat /\
  connects (release_calls st) = 0%nat /\ start_times (release_calls st) = [].
Proof.
  unfold release_calls.
  rewrite !sent_app, !teardowns_app, !connects_app, !start_times_app.
  assert (H1 : forall l, sent (map TrackStop l) = [] /\
                         teardowns (map TrackStop l) = 0%nat /\
                         connects (map TrackStop l) = 0%nat /\
                         start_times (map TrackStop l) = []).
  { induction l; cbn; auto. }
  assert (H2 : forall l : list Source,
             let es := map (fun source => SourceStop (source_id source)) l in
             sent es = [] /\ teardowns es = 0%nat /\ connects es = 0%nat /\
             start_times es = []).
  { induction l; cbn; auto. }
  destruct (streamRef st) as [tracks|], (audioContextsRef st) as [ctxs|];
    repeat match goal with
      | |- context [map TrackStop ?l] =>
          destruct (H1 l) as (-> & -> & -> & ->)
      | |- context [map (fun source => SourceStop (source_id source)) ?l] =>
          destruct (H2 l) as (-> & -> & -> & ->)
      end; cbn; auto.
Qed.

(** *** [flush], [release] and [cleanup] as records *)

Lemma flush_eq st :
  flush st
  = {| isActive := isActive st; isConnecting := isConnecting st;
       transcription := transcription st; errorMsg := errorMsg st;
       sessionPromiseRef := sessionPromiseRef st;
       audioContextsRef := audioContextsRef st; streamRef := streamRef st;
       nextStartTimeRef := 0; sourcesRef := [];
       promises := promises st; nextSource := nextSource st;
       trace := trace st
                ++ map (fun source => SourceStop (source_id source))
                     (sourcesRef st) |}.
Proof. unfold flush. rewrite fold_call. reflexivity. Qed.

Lemma release_eq st :
  release st
  = {| isActive := isActive st; isConnecting := isConnecting st;
       transcription := transcription st; errorMsg := errorMsg st;
       sessionPromiseRef := None;
       audioContextsRef := None; streamRef := None;
       nextStartTimeRef := 0; sourcesRef := [];
       promises := promises st; nextSource := nextSource st;
       trace := trace st ++ release_calls st |}.
Proof.
  destruct st as [a c t e sp [ctxs|] [tracks|] ns srcs ps n tr];
    unfold release, release_calls; cbn;
    rewrite ?fold_call, flush_eq; cbn;
    rewrite <- ?app_assoc; reflexivity.
Qed.

Lemma release_torn_down st :
  isActive st = false -> isConnecting st = false -> torn_down (release st).
Proof. intros Ha Hc. rewrite release_eq. now repeat split. Qed.

Lemma cleanup_cases st :
  cleanup st
  = match sessionPromiseRef st with
    | Some p =>
        match promise_at p st with
        | Pending reactions =>
            set_promise p (Pending (reactions ++ [ResumeCleanup]))
              (entering st)
        | pr => release (close_session p pr (entering st))
        end
    | None => release (entering st)
    end.
Proof. reflexivity. Qed.

Lemma cleanup_settled st p :
  sessionPromiseRef st = Some p -> settled (promise_at p st) ->
  cleanup st = release (close_session p (promise_at p st) (entering st)).
Proof.
  intros Hp Hs. rewrite cleanup_cases, Hp.
  destruct (promise_at p st); [contradiction|reflexivity|reflexivity].
Qed.

Lemma cleanup_no_session st :
  sessionPromiseRef st = None -> cleanup st = release (entering st).
Proof. intros Hp. now rewrite cleanup_cases, Hp. Qed.

Ltac case_cleanup st :=
  rewrite (cleanup_cases st);
  destruct (sessionPromiseRef st) as [?p|];
  [destruct (promise_at _ st) as [?rs| |?reason]|];
  rewrite ?release_eq; cbn.

Lemma cleanup_errorMsg st : errorMsg (cleanup st) = errorMsg st.
Proof. case_cleanup st; reflexivity. Qed.

Lemma cleanup_transcription st : transcription (cleanup st) = transcription st.
Proof. case_cleanup st; reflexivity. Qed.

Lemma cleanup_idle st :
  isActive (cleanup st) = false /\ isConnecting (cleanup st) = false.
Proof. case_cleanup st; auto. Qed.

Lemma cleanup_nextStart st :
  nextStartTimeRef (cleanup st) = 0%Q \/
  nextStartTimeRef (cleanup st) = nextStartTimeRef st.
Proof. case_cleanup st; auto. Qed.


(** What [cleanup] adds to the trace: its own mark, then calls that send
    nothing, tear nothing down again, connect nothing and start nothing. *)
Lemma cleanup_trace st :
  exists tail, trace (cleanup st) = trace st ++ CleanupCall :: tail /\ quiet tail.
Proof.
  rewrite cleanup_cases.
  destruct (sessionPromiseRef st) as [p|];
    [destruct (promise_at p st) as [rs| |reason]|].
  - exists []. split; [reflexivity|]. now repeat split.
  - rewrite release_eq.
    exists (SessionClose p
              :: release_calls (close_session p Fulfilled (entering st))).
    split.
    + cbn [trace].
      change (trace (close_session p Fulfilled (entering st)))
        with ((trace st ++ [CleanupCall]) ++ [SessionClose p]).
      now rewrite <- !app_assoc.
    + destruct (release_calls_quiet (close_session p Fulfilled (entering st)))
        as (H1 & H2 & H3 & H4).
      unfold quiet. cbn [sent teardowns connects start_times]. auto.
  - rewrite release_eq.
    exists (release_calls (close_session p (Rejected reason) (entering st))).
    split; [|apply release_calls_quiet].
    cbn [trace].
    change (trace (close_session p (Rejected reason) (entering st)))
      with (trace st ++ [CleanupCall]).
    now rewrite <- app_assoc.
  - rewrite release_eq. exists (release_calls (entering st)).
    split; [|apply release_calls_quiet].
    cbn [trace].
    change (trace (entering st)) with (trace st ++ [CleanupCall]).
    now rewrite <- app_assoc.
Qed.

Lemma cleanup_sent st : sent (trace (cleanup st)) = sent (trace st).
Proof.
  destruct (cleanup_trace st) as (tail & -> & Hs & _).
  rewrite sent_app. cbn. now rewrite Hs, app_nil_r.
Qed.

Lemma cleanup_teardowns st :
  teardowns (trace (cleanup st)) = S (teardowns (trace st)).
Proof.
  destruct (cleanup_trace st) as (tail & -> & _ & Ht & _).
  rewrite teardowns_app. cbn. rewrite Ht. lia.
Qed.


(** *** The scheduler *)

Lemma schedule_ok outputCtx base64Audio st audioBuffer :
  decode_chunk outputCtx base64Audio = Ok audioBuffer ->
  schedule outputCtx base64Audio st
  = ({| isActive := isActive st; isConnecting := isConnecting st;
        transcription := transcription st; errorMsg := errorMsg st;
        sessionPromiseRef := sessionPromiseRef st;
        audioContextsRef := audioContextsRef st; streamRef := streamRef st;
        nextStartTimeRef :=
          Qmax (nextStartTimeRef st) (currentTime outputCtx)
          + duration audioBuffer;
        sourcesRef :=
          sourcesRef st
          ++ [{| source_id := nextSource st; buffer := audioBuffer |}];
        promises := promises st; nextSource := S (nextSource st);
        trace :=
          trace st
          ++ [SourceStart (nextSource st)
                (Qmax (nextStartTimeRef st) (currentTime outputCtx))] |},
     None).
Proof. intros H. unfold schedule. now rewrite H. Qed.

Lemma schedule_throw outputCtx base64Audio st e :
  decode_chunk outputCtx base64Audio = Throw e ->
  schedule outputCtx base64Audio st
  = (set_nextStartTimeRef
       (Qmax (nextStartTimeRef st) (currentTime outputCtx)) st,
     Some e).
Proof. intros H. unfold schedule. now rewrite H. Qed.

Lemma decodeAudioData_sampleRate data ctx rate numChannels b :
  decodeAudioData data ctx rate numChannels = Ok b -> sampleRate b = rate.
Proof.
  unfold decodeAudioData, Int16Array_of_buffer, createBuffer.
  destruct (Nat.even (length data)); [|discriminate]. cbn [bind].
  match goal with |- context [if ?c then _ else _] => destruct c end;
    [|discriminate].
  cbn. intros H. injection H as <-. reflexivity.
Qed.

Lemma decode_chunk_duration outputCtx base64Audio b :
  decode_chunk outputCtx base64Audio = Ok b -> (0 <= duration b)%Q.
Proof.
  unfold decode_chunk. destruct (decode base64Audio) as [bytes|]; [|discriminate].
  cbn [bind]. intros H. apply decodeAudioData_sampleRate in H.
  unfold duration. rewrite H.
  unfold Qle, Qdiv, Qmult, Qinv, inject_Z. cbn. lia.
Qed.

Lemma schedule_cursor outputCtx base64Audio st :
  (nextStartTimeRef st
   <= nextStartTimeRef (fst (schedule outputCtx base64Audio st)))%Q.
Proof.
  pose proof (Q.le_max_l (nextStartTimeRef st) (currentTime outputCtx)) as Hm.
  destruct (decode_chunk outputCtx base64Audio) as [b|e] eqn:Hd.
  - rewrite (schedule_ok _ _ _ _ Hd). cbn.
    pose proof (decode_chunk_duration _ _ _ Hd). lra.
  - rewrite (schedule_throw _ _ _ _ Hd). exact Hm.
Qed.

Lemma onmessage_cursor outputCtx message st :
  interrupted message = false ->
  (nextStartTimeRef st
   <= nextStartTimeRef (fst (onmessage outputCtx message st)))%Q.
Proof.
  intros Hi. unfold onmessage. rewrite Hi.
  assert (Ht : nextStartTimeRef (append_transcription message st)
               = nextStartTimeRef st).
  { unfold append_transcription. now destruct (outputTranscription message). }
  set (st0 := append_transcription message st) in *.
  destruct (inlineData message) as [a|]; [destruct (String.eqb a "")|].
  - cbn. rewrite Ht. apply Qle_refl.
  - pose proof (schedule_cursor outputCtx a st0) as Hs.
    destruct (schedule outputCtx a st0) as [st1 [e|]]; cbn in *;
      rewrite <- Ht; exact Hs.
  - cbn. rewrite Ht. apply Qle_refl.
Qed.

Lemma run_messages_cursor events st :
  Forall (fun ev => interrupted (snd ev) = false) events ->
  (nextStartTimeRef st <= nextStartTimeRef (run_messages events st))%Q.
Proof.
  intros H. revert st.
  induction H as [|[ctx m] events Hi _ IH]; intros st; cbn.
  - apply Qle_refl.
  - eapply Qle_trans; [|apply IH]. now apply onmessage_cursor.
Qed.

Lemma onmessage_interrupted outputCtx message st :
  interrupted message = true ->
  snd (onmessage outputCtx message st) = None ->
  nextStartTimeRef (fst (onmessage outputCtx message st)) = 0%Q /\
  sourcesRef (fst (onmessage outputCtx message st)) = [].
Proof.
  unfold onmessage. intros Hi.
  destruct (match inlineData message with
            | Some a => if String.eqb a "" then (_, None) else _
            | None => _
            end) as [st1 [e|]]; cbn; [discriminate|].
  intros _. rewrite Hi, flush_eq. now split.
Qed.

Lemma Qmax_left (x y : Q) : (y <= x)%Q -> Qmax x y = x.
Proof.
  intros H. unfold Qmax, GenericMinMax.gmax.
  destruct (x ?= y)%Q eqn:E; try reflexivity.
  apply Qlt_alt in E. lra.
Qed.

Lemma calls_stops_start_times (l : list Source) :
  start_times (map (fun source => SourceStop (source_id source)) l) = [].
Proof. induction l; cbn; auto. Qed.

Lemma flush_start_times st :
  start_times (trace (flush st)) = start_times (trace st).
Proof.
  rewrite flush_eq. cbn.
  now rewrite start_times_app, calls_stops_start_times, app_nil_r.
Qed.

Lemma onmessage_chunk outputCtx message st base64Audio :
  inlineData message = Some base64Audio -> base64Audio <> ""%string ->
  onmessage outputCtx message st
  = match decode_chunk outputCtx base64Audio with
    | Throw e =>
        (set_nextStartTimeRef
           (Qmax (nextStartTimeRef (append_transcription message st))
                 (currentTime outputCtx))
           (append_transcription message st),
         Some e)
    | Ok _ =>
        let st1 :=
          fst (schedule outputCtx base64Audio
                 (append_transcription message st)) in
        (if interrupted message then flush st1 else st1, None)
    end.
Proof.
  intros Ha Hne. unfold onmessage. rewrite Ha.
  destruct (String.eqb_spec base64Audio ""); [contradiction|].
  destruct (decode_chunk outputCtx base64Audio) as [b|e] eqn:Hd.
  - now rewrite (schedule_ok _ _ _ _ Hd).
  - now rewrite (schedule_throw _ _ _ _ Hd).
Qed.

Lemma append_transcription_frame message st :
  nextStartTimeRef (append_transcription message st) = nextStartTimeRef st /\
  trace (append_transcription message st) = trace st /\
  sourcesRef (append_transcription message st) = sourcesRef st.
Proof. unfold append_transcription. now destruct (outputTranscription message). Qed.

Lemma cleanup_can_complete st :
  can_complete st -> torn_down (cleanup st).
Proof.
  unfold can_complete. intros H. rewrite cleanup_cases.
  destruct (sessionPromiseRef st) as [p|];
    [destruct (promise_at p st); [contradiction| |]|];
    now apply release_torn_down.
Qed.

(** *** The capture callback and the connection promise *)

Lemma packet_of_total inputData : exists pkt, packet_of inputData = Some pkt.
Proof.
  unfold packet_of.
  destruct (decode_encode_bytes _
              (Uint8Array_of_Int16Array_bytes (to_int16 inputData)))
    as (base64 & -> & _).
  eauto.
Qed.

Lemma onaudioprocess_cases p inputData st :
  exists pkt,
    packet_of inputData = Some pkt /\
    onaudioprocess p inputData st
    = match promise_at p st with
      | Pending reactions =>
          (set_promise p (Pending (reactions ++ [SendRealtimeInput pkt])) st,
           None)
      | Fulfilled => (call (SessionSend p pkt) st, None)
      | Rejected _ => (cleanup st, None)
      end.
Proof.
  destruct (packet_of_total inputData) as [pkt Hpkt].
  exists pkt. split; [exact Hpkt|].
  unfold packet_of in Hpkt. unfold onaudioprocess.
  destruct (encode (Uint8Array_of_Int16Array (to_int16 inputData)));
    [|discriminate].
  injection Hpkt as <-. reflexivity.
Qed.

Lemma promise_at_lookup p st pr :
  promises st !! p = Some pr -> promise_at p st = pr.
Proof. intros H. unfold promise_at. now rewrite H. Qed.

Lemma set_promise_lookup p pr st :
  (p < length (promises st))%nat ->
  promises (set_promise p pr st) !! p = Some pr.
Proof. intros H. cbn. now apply list_lookup_insert_eq. Qed.

Lemma set_promise_twice p pr pr' st :
  set_promise p pr (set_promise p pr' st) = set_promise p pr st.
Proof.
  unfold set_promise, set_promises. cbn.
  now rewrite list_insert_insert_eq.
Qed.

Lemma set_promise_same p pr st :
  promises st !! p = Some pr -> set_promise p pr st = st.
Proof.
  intros H. unfold set_promise, set_promises.
  rewrite list_insert_id by exact H. now destruct st.
Qed.

Lemma omap_packet_of_length blocks :
  length (omap packet_of blocks) = length blocks.
Proof.
  induction blocks as [|b blocks IH]; [reflexivity|].
  destruct (packet_of_total b) as [pkt Hpkt].
  cbn. rewrite Hpkt. cbn. now rewrite IH.
Qed.

(** Blocks captured while the promise is pending are chained on it, in
    order; nothing else changes. *)
Lemma capture_pending p blocks : forall st rs,
  promises st !! p = Some (Pending rs) ->
  capture p blocks st
  = set_promise p
      (Pending (rs ++ map SendRealtimeInput (omap packet_of blocks))) st.
Proof.
  induction blocks as [|b blocks IH]; intros st rs Hp.
  - cbn. rewrite app_nil_r. symmetry. now apply set_promise_same.
  - unfold capture. cbn [fold_left].
    destruct (onaudioprocess_cases p b st) as (pkt & Hpkt & ->).
    rewrite (promise_at_lookup _ _ _ Hp). cbn [fst].
    fold (capture p blocks
            (set_promise p (Pending (rs ++ [SendRealtimeInput pkt])) st)).
    rewrite (IH _ (rs ++ [SendRealtimeInput pkt])).
    + rewrite set_promise_twice. cbn [omap list_omap]. rewrite Hpkt.
      cbn [map]. now rewrite <- app_assoc.
    + apply set_promise_lookup. eapply lookup_lt_Some, Hp.
Qed.

Lemma settle_pending p outcome st rs :
  promise_at p st = Pending rs ->
  settle p outcome st
  = fold_left (react p outcome) rs (set_promise p outcome st).
Proof. intros H. unfold settle. now rewrite H. Qed.

Lemma release_sent st : sent (trace (release st)) = sent (trace st).
Proof.
  rewrite release_eq. cbn [trace]. rewrite sent_app.
  destruct (release_calls_quiet st) as (-> & _). apply app_nil_r.
Qed.

Lemma react_fulfilled_sent p rs : forall st,
  sent (trace (fold_left (react p Fulfilled) rs st))
  = sent (trace st) ++ sends_of rs.
Proof.
  induction rs as [|r rs IH]; intros st; cbn [fold_left sends_of].
  - now rewrite app_nil_r.
  - rewrite IH. destruct r as [media|]; cbn [react sends_of].
    + cbn [call trace]. rewrite sent_app. cbn. now rewrite <- app_assoc.
    + rewrite release_sent. cbn [close_session call trace].
      rewrite sent_app. cbn. now rewrite app_nil_r.
Qed.

Lemma react_rejected_sent p reason rs : forall st,
  sent (trace (fold_left (react p (Rejected reason)) rs st))
  = sent (trace st).
Proof.
  induction rs as [|r rs IH]; intros st; cbn [fold_left]; [reflexivity|].
  rewrite IH. destruct r as [media|]; cbn [react].
  - apply cleanup_sent.
  - now rewrite release_sent.
Qed.

Lemma sends_of_app rs pkts :
  sends_of (rs ++ map SendRealtimeInput pkts) = sends_of rs ++ pkts.
Proof.
  induction rs as [|r rs IH].
  - cbn. induction pkts as [|k pkts IHp]; cbn; [reflexivity|]. now rewrite IHp.
  - destruct r; cbn; now rewrite IH.
Qed.

(** *** Teardown, again and again *)

Lemma cleanup_keeps_settled p st :
  settled (promise_at p st) -> promise_at p (cleanup st) = promise_at p st.
Proof.
  intros Hs. rewrite cleanup_cases.
  destruct (sessionPromiseRef st) as [p0|];
    [destruct (promise_at p0 st) as [rs| |reason] eqn:Hp0|];
    rewrite ?release_eq; try reflexivity.
  unfold promise_at, set_promise. cbn.
  destruct (Nat.eq_dec p0 p) as [->|Hne].
  - rewrite Hp0 in Hs. contradiction.
  - now rewrite list_lookup_insert_ne.
Qed.

Lemma capture_rejected p reason blocks : forall st,
  promise_at p st = Rejected reason ->
  teardowns (trace (capture p blocks st))
  = (teardowns (trace st) + length blocks)%nat /\
  sent (trace (capture p blocks st)) = sent (trace st).
Proof.
  induction blocks as [|b blocks IH]; intros st Hp.
  - cbn. split; [lia|reflexivity].
  - unfold capture. cbn [fold_left].
    destruct (onaudioprocess_cases p b st) as (pkt & _ & ->).
    rewrite Hp. cbn [fst]. fold (capture p blocks (cleanup st)).
    destruct (IH (cleanup st)) as [Ht Hs].
    { rewrite cleanup_keeps_settled; rewrite Hp; [reflexivity|exact I]. }
    rewrite Ht, Hs, cleanup_teardowns, cleanup_sent. cbn [length].
    split; [lia|reflexivity].
Qed.

Lemma cleanup_torn_down st : torn_down st -> cleanup st = call CleanupCall st.
Proof.
  destruct st as [a c t e sp ctxs str ns srcs ps n tr].
  unfold torn_down. cbn. intros (-> & -> & -> & -> & -> & -> & ->).
  reflexivity.
Qed.

Lemma capture_torn_down p reason blocks : forall st,
  promise_at p st = Rejected reason -> torn_down st ->
  capture p blocks st = calls (repeat CleanupCall (length blocks)) st.
Proof.
  induction blocks as [|b blocks IH]; intros st Hp Htd.
  - cbn. now rewrite calls_nil.
  - unfold capture. cbn [fold_left].
    destruct (onaudioprocess_cases p b st) as (pkt & _ & ->).
    rewrite Hp. cbn [fst]. fold (capture p blocks (cleanup st)).
    rewrite (cleanup_torn_down st Htd).
    rewrite (IH (call CleanupCall st)); [|exact Hp|exact Htd].
    cbn [length repeat]. apply calls_call.
Qed.

Lemma release_teardowns st :
  teardowns (trace (release st)) = teardowns (trace st).
Proof.
  rewrite release_eq. cbn [trace]. rewrite teardowns_app.
  destruct (release_calls_quiet st) as (_ & -> & _). lia.
Qed.

Lemma react_rejected_teardowns p reason rs : forall st,
  teardowns (trace (fold_left (react p (Rejected reason)) rs st))
  = (teardowns (trace st) + length (sends_of rs))%nat.
Proof.
  induction rs as [|r rs IH]; intros st; cbn [fold_left sends_of length];
    [lia|].
  rewrite IH. destruct r as [media|]; cbn [react sends_of length].
  - rewrite cleanup_teardowns. lia.
  - now rewrite release_teardowns.
Qed.

(** *** Reactions keep what teardown keeps *)

Lemma react_frame p outcome st r :
  errorMsg (react p outcome st r) = errorMsg st /\
  transcription (react p outcome st r) = transcription st /\
  (isActive st = false -> isActive (react p outcome st r) = false) /\
  (isConnecting st = false -> isConnecting (react p outcome st r) = false).
Proof.
  destruct r as [media|], outcome as [rs| |reason]; cbn [react];
    rewrite ?cleanup_errorMsg, ?cleanup_transcription, ?release_eq;
    cbn; try tauto;
    destruct (cleanup_idle st) as [-> ->]; tauto.
Qed.

Lemma fold_react_frame p outcome rs : forall st,
  errorMsg (fold_left (react p outcome) rs st) = errorMsg st /\
  transcription (fold_left (react p outcome) rs st) = transcription st /\
  (isActive st = false ->
   isActive (fold_left (react p outcome) rs st) = false) /\
  (isConnecting st = false ->
   isConnecting (fold_left (react p outcome) rs st) = false).
Proof.
  induction rs as [|r rs IH]; intros st; cbn [fold_left]; [tauto|].
  destruct (IH (react p outcome st r)) as (-> & -> & Ha & Hc).
  destruct (react_frame p outcome st r) as (-> & -> & Ha' & Hc').
  tauto.
Qed.

Lemma settle_frame p outcome st :
  errorMsg (settle p outcome st) = errorMsg st /\
  transcription (settle p outcome st) = transcription st.
Proof.
  unfold settle. destruct (promise_at p st) as [rs| |reason]; try tauto.
  destruct (fold_react_frame p outcome rs (set_promise p outcome st))
    as (-> & -> & _).
  tauto.
Qed.

(** A [cleanup] that had to wait finishes when the promise settles. *)
Lemma settle_resumes_cleanup p outcome st rs :
  promises st !! p = Some (Pending rs) -> sessionPromiseRef st = Some p ->
  settled outcome ->
  torn_down (settle p outcome (cleanup st)).
Proof.
  intros Hp Href Hs.
  assert (Hlt : (p < length (promises st))%nat) by (eapply lookup_lt_Some, Hp).
  rewrite cleanup_cases, Href, (promise_at_lookup _ _ _ Hp).
  rewrite (settle_pending _ _ _ (rs ++ [ResumeCleanup])).
  2:{ apply promise_at_lookup, set_promise_lookup. exact Hlt. }
  rewrite set_promise_twice, fold_left_app. cbn [fold_left].
  set (st1 := fold_left (react p outcome) rs
                (set_promise p outcome (entering st))).
  destruct (fold_react_frame p outcome rs
              (set_promise p outcome (entering st)))
    as (_ & _ & Ha & Hc).
  fold st1 in Ha, Hc. specialize (Ha eq_refl). specialize (Hc eq_refl).
  destruct outcome as [rs'| |reason]; [contradiction| |];
    cbn [react]; apply release_torn_down; assumption.
Qed.

(** *** Starting *)

Lemma start_snd env st : snd (start env st) = start_error env.
Proof.
  unfold start, contexts, start_error.
  destruct env as [[[|]|e1] [u|e2] [g|e3] [c|e4] [i|e5] [o|e6] [ri|e7] [ro|e8]];
    reflexivity.
Qed.

Lemma start_frame env st :
  errorMsg (fst (start env st)) = errorMsg st /\
  transcription (fst (start env st)) = transcription st /\
  connects (trace (fst (start env st)))
  = (connects (trace st)
     + match start_error env with None => 1 | Some _ => 0 end)%nat.
Proof.
  unfold start, contexts, start_error.
  destruct env as [[[|]|e1] [u|e2] [g|e3] [c|e4] [i|e5] [o|e6] [ri|e7] [ro|e8]];
    cbn; rewrite ?connects_app; cbn; repeat split; lia.
Qed.

Lemma toggleSession_live handleError env st :
  isActive st || isConnecting st = true ->
  toggleSession handleError env st = cleanup st.
Proof. intros H. unfold toggleSession. now rewrite H. Qed.

Lemma toggleSession_idle handleError env st :
  isActive st || isConnecting st = false ->
  toggleSession handleError env st
  = let st1 :=
      fst (start env
             (setTranscription ""
                (setErrorMsg None (setIsConnecting true st)))) in
    match start_error env with
    | None => st1
    | Some err => cleanup (setErrorMsg (Some (message (handleError err))) st1)
    end.
Proof.
  intros H. unfold toggleSession. rewrite H.
  rewrite <- (start_snd env
                (setTranscription ""
                   (setErrorMsg None (setIsConnecting true st)))).
  now destruct (start env _) as [st1 [err|]].
Qed.

End LiveFacts.

(** * The claims *)

Import Base64 Codec Readback Live Base64Facts CodecFacts LiveFacts.

(** ** C1: the codec round trip *)

(** C1, as the claim states it, fails at the empty sequence: its wire form
    is the empty string, which decodes to no bytes, and [decodeAudioData]
    then throws, because a buffer of zero frames cannot be created. *)
Lemma decode_encode_empty_throws :
  (length ([] : list Z) mod 1 = 0)%nat /\
  encode (Uint8Array_of_Int16Array []) = Ok ""%string /\
  decode "" = Ok [] /\
  decodeAudioData [] (stdAudioContext 0) 24000 1 = Throw NotSupportedError.
Proof. repeat split. Qed.

(** C1 (amended): for every non-empty sequence [s] of signed 16-bit samples
    whose length is a multiple of a channel count the context supports,
    [encode] succeeds on the bytes of [s], [decode] gives these bytes back,
    their 16-bit view is exactly [s], and [decodeAudioData] returns a buffer
    of [length s / numChannels] frames whose channels, read frame by frame,
    are the samples of [s] in order, each divided by 32768. *)
Theorem decode_encode_roundtrip (s : list Z) (numChannels : nat)
    (ctx : AudioContext) (rate : Z) :
  Forall is_int16 s -> s <> [] ->
  (0 < numChannels <= maxChannels ctx)%nat ->
  supportsRate ctx rate = true ->
  (length s mod numChannels = 0)%nat ->
  exists base64 bytes buffer,
    encode (Uint8Array_of_Int16Array s) = Ok base64 /\
    decode base64 = Ok bytes /\
    Int16Array_of_buffer bytes = Ok s /\
    decodeAudioData bytes ctx rate numChannels = Ok buffer /\
    numberOfChannels buffer = numChannels /\
    (frames buffer * numChannels)%nat = length s /\
    interleave buffer = map scaled s.
Proof.
  intros Hs Hne Hn Hrate Hmod.
  destruct (decode_encode_bytes _ (Uint8Array_of_Int16Array_bytes s))
    as (base64 & He & Hd).
  exists base64, (Uint8Array_of_Int16Array s).
  eexists. split; [exact He|]. split; [exact Hd|].
  split; [now apply Int16Array_of_buffer_bytes|].
  assert (Hview : int16_view (Uint8Array_of_Int16Array s) = s)
    by now apply int16_view_bytes.
  split.
  - apply decodeAudioData_whole_frames; try assumption.
    + rewrite Uint8Array_of_Int16Array_length.
      apply Nat.even_spec. now exists (length s).
    + now rewrite Hview.
    + rewrite Hview. destruct s; [congruence|cbn; lia].
  - rewrite Hview. cbn [numberOfChannels frames].
    split; [reflexivity|]. split.
    + pose proof (Nat.div_mod_eq (length s) numChannels). lia.
    + unfold interleave. cbn [frames channels].
      apply interleave_deinterleaved; [lia|exact Hmod].
Qed.

Lemma decode_encode_roundtrip_witness :
  exists base64 bytes buffer,
    encode (Uint8Array_of_Int16Array [1; -1; 32767; -32768]) = Ok base64 /\
    decode base64 = Ok bytes /\
    Int16Array_of_buffer bytes = Ok [1; -1; 32767; -32768] /\
    decodeAudioData bytes (stdAudioContext 0) 24000 2 = Ok buffer /\
    numberOfChannels buffer = 2%nat /\
    (frames buffer * 2)%nat = length [1; -1; 32767; -32768] /\
    interleave buffer = map scaled [1; -1; 32767; -32768].
Proof.
  apply (decode_encode_roundtrip [1; -1; 32767; -32768] 2
           (stdAudioContext 0) 24000).
  - repeat constructor; unfold is_int16; lia.
  - discriminate.
  - cbn. lia.
  - reflexivity.
  - reflexivity.
Defined.

(** ** C7: sample scaling *)

(** C7, as the claim states it, fails at the in-range sample 1.0: the
    product 32768 does not fit 16 bits and the stored sample wraps to
    -32768. *)
Lemma full_scale_sample_wraps :
  (-1 <= 1)%Q /\ (1 <= 1)%Q /\
  to_int16 [Num 1] = [-32768] /\ ~ is_int16 (Qtruncate (1 * 32768)).
Proof.
  split; [discriminate|]. split; [discriminate|]. split; [reflexivity|].
  intros [_ H]. vm_compute in H. discriminate.
Qed.

(** C7 (amended): every outbound sample [q] with [-1 <= q < 1] is stored as
    [q * 32768] truncated toward zero, a value of the signed 16-bit range,
    so nothing wraps; and every inbound signed 16-bit sample of a chunk is
    turned into the float sample / 32768. *)
Theorem sample_scaling (inputData : list Q) (data : list Z)
    (ctx : AudioContext) :
  Forall (fun q => -1 <= q /\ q < 1)%Q inputData ->
  Nat.even (length data) = true -> data <> [] ->
  (1 <= maxChannels ctx)%nat -> supportsRate ctx 24000 = true ->
  to_int16 (map Num inputData)
    = map (fun q => Qtruncate (q * 32768)) inputData /\
  Forall is_int16 (to_int16 (map Num inputData)) /\
  exists buffer,
    decodeAudioData data ctx 24000 1 = Ok buffer /\
    channels buffer
      = [map (fun z => Num (inject_Z z / 32768)) (int16_view data)].
Proof.
  intros Hin Heven Hne Hmax Hrate.
  assert (Hout : to_int16 (map Num inputData)
                 = map (fun q => Qtruncate (q * 32768)) inputData).
  { unfold to_int16.
    induction Hin as [|q l [Hlo Hhi] _ IH]; [reflexivity|].
    cbn [map Int16Array_store]. rewrite IH. f_equal.
    apply ToInt16_small. now apply Qtruncate_scaled_range. }
  split; [exact Hout|]. split.
  - rewrite Hout. apply Forall_map.
    eapply Forall_impl; [exact Hin|].
    intros q [Hlo Hhi]. now apply Qtruncate_scaled_range.
  - eexists. split; [now apply decodeAudioData_mono|]. reflexivity.
Qed.

Lemma sample_scaling_witness :
  to_int16 (map Num [-1; 1 # 2; 32767 # 32768; -1 # 3]%Q)
    = map (fun q => Qtruncate (q * 32768)) [-1; 1 # 2; 32767 # 32768; -1 # 3]%Q /\
  Forall is_int16 (to_int16 (map Num [-1; 1 # 2; 32767 # 32768; -1 # 3]%Q)) /\
  exists buffer,
    decodeAudioData [0; 128; 255; 127] (stdAudioContext 0) 24000 1 = Ok buffer /\
    channels buffer
      = [map (fun z => Num (inject_Z z / 32768)) (int16_view [0; 128; 255; 127])].
Proof.
  apply (sample_scaling [-1; 1 # 2; 32767 # 32768; -1 # 3]%Q
           [0; 128; 255; 127] (stdAudioContext 0)).
  - repeat constructor; cbn; unfold Qle, Qlt; cbn; lia.
  - reflexivity.
  - discriminate.
  - cbn. lia.
  - reflexivity.
Defined.

(** ** C3: gap-free scheduling *)

(** C3: a chunk starts at [max(nextStart, currentTime)] and the cursor then
    advances by the chunk's duration; when the next chunk arrives while the
    first is still scheduled to play, it starts at the first chunk's start
    plus the first chunk's duration, not at its arrival time. *)
Theorem gap_free_scheduling (ctx1 ctx2 : AudioContext) (m1 m2 : Message)
    (a1 a2 : string) (b1 b2 : AudioBuffer) (st : State) :
  inlineData m1 = Some a1 -> a1 <> ""%string ->
  decode_chunk ctx1 a1 = Ok b1 -> interrupted m1 = false ->
  inlineData m2 = Some a2 -> a2 <> ""%string ->
  decode_chunk ctx2 a2 = Ok b2 ->
  (currentTime ctx2
   <= Qmax (nextStartTimeRef st) (currentTime ctx1) + duration b1)%Q ->
  start_times (trace (fst (onmessage ctx1 m1 st)))
    = start_times (trace st)
      ++ [Qmax (nextStartTimeRef st) (currentTime ctx1)] /\
  nextStartTimeRef (fst (onmessage ctx1 m1 st))
    = (Qmax (nextStartTimeRef st) (currentTime ctx1) + duration b1)%Q /\
  start_times (trace (run_messages [(ctx1, m1); (ctx2, m2)] st))
    = start_times (trace st)
      ++ [Qmax (nextStartTimeRef st) (currentTime ctx1);
          (Qmax (nextStartTimeRef st) (currentTime ctx1) + duration b1)%Q].
Proof.
  intros Ha1 Hn1 Hd1 Hi1 Ha2 Hn2 Hd2 Hlate.
  destruct (append_transcription_frame m1 st) as (Hc & Ht & _).
  assert (H1 : fst (onmessage ctx1 m1 st)
               = fst (schedule ctx1 a1 (append_transcription m1 st))).
  { rewrite (onmessage_chunk _ _ _ _ Ha1 Hn1), Hd1. cbn. now rewrite Hi1. }
  rewrite (schedule_ok _ _ _ _ Hd1) in H1. cbn [fst] in H1.
  assert (Hstart1 : start_times (trace (fst (onmessage ctx1 m1 st)))
                    = start_times (trace st)
                      ++ [Qmax (nextStartTimeRef st) (currentTime ctx1)]).
  { rewrite H1. cbn [trace]. now rewrite start_times_app, Ht, Hc. }
  assert (Hcur : nextStartTimeRef (fst (onmessage ctx1 m1 st))
                 = (Qmax (nextStartTimeRef st) (currentTime ctx1)
                    + duration b1)%Q).
  { rewrite H1. cbn [nextStartTimeRef]. now rewrite Hc. }
  split; [exact Hstart1|]. split; [exact Hcur|].
  unfold run_messages. cbn [fold_left fst snd].
  set (st1 := fst (onmessage ctx1 m1 st)) in *.
  destruct (append_transcription_frame m2 st1) as (Hc2 & Ht2 & _).
  rewrite (onmessage_chunk _ _ _ _ Ha2 Hn2), Hd2.
  rewrite (schedule_ok _ _ _ _ Hd2). cbn [fst].
  assert (Hgoal : forall s : State,
             trace s = trace (append_transcription m2 st1)
                       ++ [SourceStart (nextSource (append_transcription m2 st1))
                             (Qmax (nextStartTimeRef (append_transcription m2 st1))
                                   (currentTime ctx2))] ->
             start_times (trace s)
             = start_times (trace st)
               ++ [Qmax (nextStartTimeRef st) (currentTime ctx1);
                   (Qmax (nextStartTimeRef st) (currentTime ctx1)
                    + duration b1)%Q]).
  { intros s ->. rewrite start_times_app, Ht2, Hstart1, Hc2, Hcur.
    cbn [start_times]. rewrite (Qmax_left _ _ Hlate).
    now rewrite <- app_assoc. }
  destruct (interrupted m2).
  - rewrite flush_start_times. now apply Hgoal.
  - now apply Hgoal.
Qed.

(** The scenario of the specification: two chunks of 100 ms arrive 10 ms
    apart, at 5 s and 5.01 s of the device clock; the second one starts
    where the first one ends. *)
Lemma gap_free_scheduling_witness :
  start_times
    (trace (run_messages
              [(stdAudioContext 5, chunk_message silence_100ms);
               (stdAudioContext (501 # 100), chunk_message silence_100ms)]
              initial))
  = [Qmax 0 5; (Qmax 0 5 + duration silent_buffer)%Q].
Proof.
  apply (gap_free_scheduling (stdAudioContext 5) (stdAudioContext (501 # 100))
           (chunk_message silence_100ms) (chunk_message silence_100ms)
           silence_100ms silence_100ms silent_buffer silent_buffer initial).
  - reflexivity.
  - vm_compute. discriminate.
  - vm_compute. reflexivity.
  - reflexivity.
  - reflexivity.
  - vm_compute. discriminate.
  - vm_compute. reflexivity.
  - vm_compute. discriminate.
Defined.

(** ** C4: the playback cursor *)

(** C4: over any run of inbound messages none of which carries the
    interruption flag, the cursor never decreases from one point of the run
    to a later one, also across chunks that fail to decode; and right after
    a flush, be it [flush] itself, the interruption branch of [onmessage]
    or a [cleanup] that has nothing to wait for, the cursor is exactly 0. *)
Theorem cursor_monotone_and_reset
    (before after : list (AudioContext * Message)) (st st1 st2 : State)
    (ctx : AudioContext) (message : Message) :
  Forall (fun ev => interrupted (snd ev) = false) (before ++ after) ->
  interrupted message = true ->
  snd (onmessage ctx message st1) = None ->
  can_complete st2 ->
  (nextStartTimeRef st <= nextStartTimeRef (run_messages before st))%Q /\
  (nextStartTimeRef (run_messages before st)
   <= nextStartTimeRef (run_messages (before ++ after) st))%Q /\
  nextStartTimeRef (flush st1) = 0%Q /\
  nextStartTimeRef (fst (onmessage ctx message st1)) = 0%Q /\
  nextStartTimeRef (cleanup st2) = 0%Q.
Proof.
  intros Hev Hi Hok Hc2.
  apply Forall_app in Hev as [Hb Ha].
  split; [now apply run_messages_cursor|]. split.
  - unfold run_messages at 2. rewrite fold_left_app.
    now apply run_messages_cursor.
  - split; [now rewrite flush_eq|]. split.
    + now apply onmessage_interrupted.
    + apply (cleanup_can_complete st2 Hc2).
Qed.

Lemma cursor_monotone_and_reset_witness :
  (nextStartTimeRef initial
   <= nextStartTimeRef
        (run_messages [(stdAudioContext 5, chunk_message "AAAAAAAA")] initial))%Q /\
  (nextStartTimeRef
     (run_messages [(stdAudioContext 5, chunk_message "AAAAAAAA")] initial)
   <= nextStartTimeRef
        (run_messages
           ([(stdAudioContext 5, chunk_message "AAAAAAAA")]
            ++ [(stdAudioContext 2, chunk_message "AAAA")]) initial))%Q /\
  nextStartTimeRef
    (flush (run_messages [(stdAudioContext 5, chunk_message "AAAAAAAA")] initial))
  = 0%Q /\
  nextStartTimeRef
    (fst (onmessage (stdAudioContext 6) interruption
            (run_messages [(stdAudioContext 5, chunk_message "AAAAAAAA")] initial)))
  = 0%Q /\
  nextStartTimeRef
    (cleanup (run_messages [(stdAudioContext 5, chunk_message "AAAAAAAA")] initial))
  = 0%Q.
Proof.
  apply (cursor_monotone_and_reset
           [(stdAudioContext 5, chunk_message "AAAAAAAA")]
           [(stdAudioContext 2, chunk_message "AAAA")]
           initial
           (run_messages [(stdAudioContext 5, chunk_message "AAAAAAAA")] initial)
           (run_messages [(stdAudioContext 5, chunk_message "AAAAAAAA")] initial)
           (stdAudioContext 6) interruption).
  - repeat constructor.
  - reflexivity.
  - reflexivity.
  - vm_compute. exact I.
Defined.

(** ** C2: a chunk that does not decode *)

(** C2, as the claim states it, fails twice.  Six bytes are not a multiple
    of 2 x 2, yet [decodeAudioData] with two channels returns a buffer (of
    one frame); and no bytes at all are a multiple of 2 x 1, yet
    [decodeAudioData] throws, with the [NotSupportedError] of
    [createBuffer]. *)
Lemma decodeAudioData_length_check_differs :
  ((6 mod (2 * 2) <> 0)%nat /\
   decodeAudioData [1; 2; 3; 4; 5; 6] (stdAudioContext 0) 24000 2
   = Ok {| numberOfChannels := 2; frames := 1; sampleRate := 24000;
           channels := [[Num (513 # 32768)]; [Num (1027 # 32768)]] |}) /\
  ((0 mod (2 * 1) = 0)%nat /\
   decodeAudioData [] (stdAudioContext 0) 24000 1 = Throw NotSupportedError).
Proof.
  split; split; try reflexivity. vm_compute. discriminate.
Qed.

(** C2 (amended): with the one channel the caller passes, [decodeAudioData]
    throws exactly when the byte length is odd (the [RangeError] of the
    16-bit view) or zero (the [NotSupportedError] of [createBuffer]), and
    returns a buffer otherwise.  The caller catches nothing: the exception
    leaves [onmessage]; by then the transcript fragment has been appended
    and the cursor raised to [max(nextStart, currentTime)], and nothing
    else has changed: no source is created or started, the session is not
    torn down, and the rest of the message is not looked at. *)
Theorem malformed_chunk (ctx : AudioContext) (message : Message)
    (base64Audio : string) (data : list Z) (st : State) :
  (1 <= maxChannels ctx)%nat -> supportsRate ctx 24000 = true ->
  inlineData message = Some base64Audio -> base64Audio <> ""%string ->
  decode base64Audio = Ok data ->
  (decodeAudioData data ctx 24000 1 = Throw RangeError
   <-> Nat.even (length data) = false) /\
  (decodeAudioData data ctx 24000 1 = Throw NotSupportedError
   <-> data = []) /\
  (throws (decodeAudioData data ctx 24000 1) = false
   <-> Nat.even (length data) = true /\ data <> []) /\
  onmessage ctx message st
  = match decodeAudioData data ctx 24000 1 with
    | Throw e =>
        (set_nextStartTimeRef
           (Qmax (nextStartTimeRef st) (currentTime ctx))
           (append_transcription message st),
         Some e)
    | Ok _ =>
        let st1 :=
          fst (schedule ctx base64Audio (append_transcription message st)) in
        (if interrupted message then flush st1 else st1, None)
    end.
Proof.
  intros Hmax Hrate Ha Hne Hd.
  assert (Hcases :
    (Nat.even (length data) = false /\
     decodeAudioData data ctx 24000 1 = Throw RangeError) \/
    (data = [] /\
     decodeAudioData data ctx 24000 1 = Throw NotSupportedError) \/
    (Nat.even (length data) = true /\ data <> [] /\
     exists b, decodeAudioData data ctx 24000 1 = Ok b)).
  { destruct (Nat.even (length data)) eqn:He.
    - destruct data as [|x data'] eqn:Hdata.
      + right. left. split; [reflexivity|]. apply decodeAudioData_empty.
      + right. right. split; [reflexivity|]. split; [discriminate|].
        eexists. apply decodeAudioData_mono; try assumption. discriminate.
    - left. split; [reflexivity|]. now apply decodeAudioData_odd. }
  split; [|split; [|split]].
  - destruct Hcases as [[He ->] | [[-> ->] | (He & Hn & b & ->)]];
      split; intros H; try reflexivity; try discriminate; congruence.
  - destruct Hcases as [[He ->] | [[-> ->] | (He & Hn & b & ->)]];
      split; intros H; try reflexivity; try discriminate; try congruence.
    subst data. discriminate.
  - destruct Hcases as [[He ->] | [[-> ->] | (He & Hn & b & ->)]];
      split; cbn; try tauto; try discriminate; try congruence;
      intros [H1 H2]; congruence.
  - rewrite (onmessage_chunk _ _ _ _ Ha Hne).
    unfold decode_chunk. rewrite Hd. cbn [bind].
    destruct (append_transcription_frame message st) as (-> & _).
    reflexivity.
Qed.

Lemma malformed_chunk_witness :
  onmessage (stdAudioContext 7) (chunk_message "AAAA") initial
  = (set_nextStartTimeRef (Qmax 0 7)
       (append_transcription (chunk_message "AAAA") initial),
     Some RangeError).
Proof.
  apply (malformed_chunk (stdAudioContext 7) (chunk_message "AAAA") "AAAA"
           [0; 0; 0] initial).
  - cbn. lia.
  - reflexivity.
  - reflexivity.
  - discriminate.
  - reflexivity.
Defined.

(** ** C5: blocks captured before the connection is ready *)

(** C5, as the claim states it, fails: a block captured while the
    connection promise is pending is not dropped.  Its send waits on the
    promise and the packet is transmitted when the promise resolves. *)
Lemma block_captured_before_ready_is_sent :
  promise_at 0 connecting = Pending [] /\
  sent (trace (capture 0 [half_scale_block] connecting)) = [] /\
  sent (trace (settle 0 Fulfilled (capture 0 [half_scale_block] connecting)))
  = [{| data := "AEA="; mimeType := "audio/pcm;rate=16000" |}].
Proof. vm_compute. repeat split. Qed.

(** C5 (amended): a block captured while the connection promise is pending
    is neither transmitted nor dropped at that time: its packet is chained
    on the promise, after what already waits there, and the capture
    callback changes nothing else.  When the promise resolves, every
    chained packet is transmitted, in the order of capture; when it
    rejects, none is. *)
Theorem pending_sends_are_chained (p : nat) (blocks : list (list number))
    (rs : list Reaction) (reason : Exn) (st : State) :
  promises st !! p = Some (Pending rs) ->
  capture p blocks st
  = set_promise p
      (Pending (rs ++ map SendRealtimeInput (omap packet_of blocks))) st /\
  length (omap packet_of blocks) = length blocks /\
  trace (capture p blocks st) = trace st /\
  sent (trace (settle p Fulfilled (capture p blocks st)))
  = sent (trace st) ++ sends_of rs ++ omap packet_of blocks /\
  sent (trace (settle p (Rejected reason) (capture p blocks st)))
  = sent (trace st).
Proof.
  intros Hp.
  assert (Hlt : (p < length (promises st))%nat) by (eapply lookup_lt_Some, Hp).
  rewrite (capture_pending p blocks st rs Hp).
  split; [reflexivity|]. split; [apply omap_packet_of_length|].
  split; [reflexivity|].
  set (rs' := rs ++ map SendRealtimeInput (omap packet_of blocks)).
  assert (Hp' : promise_at p (set_promise p (Pending rs') st) = Pending rs').
  { apply promise_at_lookup, set_promise_lookup. exact Hlt. }
  split.
  - rewrite (settle_pending _ _ _ _ Hp'), react_fulfilled_sent.
    unfold rs'. now rewrite sends_of_app.
  - rewrite (settle_pending _ _ _ _ Hp'). now rewrite react_rejected_sent.
Qed.

Lemma pending_sends_are_chained_witness :
  capture 0 [half_scale_block; half_scale_block] connecting
  = set_promise 0
      (Pending ([] ++ map SendRealtimeInput
                        (omap packet_of [half_scale_block; half_scale_block])))
      connecting /\
  length (omap packet_of [half_scale_block; half_scale_block])
  = length [half_scale_block; half_scale_block] /\
  trace (capture 0 [half_scale_block; half_scale_block] connecting)
  = trace connecting /\
  sent (trace (settle 0 Fulfilled
                 (capture 0 [half_scale_block; half_scale_block] connecting)))
  = sent (trace connecting) ++ sends_of []
    ++ omap packet_of [half_scale_block; half_scale_block] /\
  sent (trace (settle 0 (Rejected RangeError)
                 (capture 0 [half_scale_block; half_scale_block] connecting)))
  = sent (trace connecting).
Proof.
  apply (pending_sends_are_chained 0 [half_scale_block; half_scale_block]
           [] RangeError connecting).
  reflexivity.
Defined.

(** ** C6: teardown on a failed connection *)

(** C6, as the claim states it, fails: after the connection promise has
    rejected, three captured blocks invoke [cleanup] three times. *)
Lemma three_failed_sends_three_teardowns :
  promise_at 0 (settle 0 (Rejected (OtherError "refused")) connecting)
  = Rejected (OtherError "refused") /\
  teardowns (trace (settle 0 (Rejected (OtherError "refused")) connecting))
  = 0%nat /\
  teardowns
    (trace (capture 0 [half_scale_block; half_scale_block; half_scale_block]
              (settle 0 (Rejected (OtherError "refused")) connecting)))
  = 3%nat.
Proof. vm_compute. repeat split. Qed.

(** C6 (amended): every send attempted against a connection promise that
    has rejected invokes [cleanup] once, so [k] captured blocks invoke it
    [k] times, and so do [k] sends that were waiting when the promise
    rejected; none of the packets is transmitted.  On a session that is
    already torn down the further invocations do nothing but be invoked:
    no platform object is called and the state is unchanged. *)
Theorem teardown_per_failed_send (p : nat) (reason : Exn)
    (blocks : list (list number)) (st st' st0 : State) :
  promise_at p st = Rejected reason ->
  promise_at p st' = Rejected reason -> torn_down st' ->
  promises st0 !! p = Some (Pending []) ->
  teardowns (trace (capture p blocks st))
  = (teardowns (trace st) + length blocks)%nat /\
  sent (trace (capture p blocks st)) = sent (trace st) /\
  capture p blocks st' = calls (repeat CleanupCall (length blocks)) st' /\
  teardowns (trace (settle p (Rejected reason) (capture p blocks st0)))
  = (teardowns (trace st0) + length blocks)%nat.
Proof.
  intros Hp Hp' Htd Hp0.
  destruct (capture_rejected p reason blocks st Hp) as [Ht Hs].
  split; [exact Ht|]. split; [exact Hs|].
  split; [now apply (capture_torn_down p reason)|].
  assert (Hlt : (p < length (promises st0))%nat)
    by (eapply lookup_lt_Some, Hp0).
  rewrite (capture_pending p blocks st0 [] Hp0). cbn [app].
  rewrite (settle_pending _ _ _ (map SendRealtimeInput (omap packet_of blocks)))
    by (apply promise_at_lookup, set_promise_lookup; exact Hlt).
  rewrite react_rejected_teardowns.
  change (map SendRealtimeInput (omap packet_of blocks))
    with ([] ++ map SendRealtimeInput (omap packet_of blocks)).
  rewrite sends_of_app. cbn [sends_of app].
  now rewrite omap_packet_of_length.
Qed.

Lemma teardown_per_failed_send_witness :
  teardowns
    (trace (capture 0 [half_scale_block; half_scale_block]
              (settle 0 (Rejected RangeError) connecting)))
  = (teardowns (trace (settle 0 (Rejected RangeError) connecting))
     + length [half_scale_block; half_scale_block])%nat /\
  sent
    (trace (capture 0 [half_scale_block; half_scale_block]
              (settle 0 (Rejected RangeError) connecting)))
  = sent (trace (settle 0 (Rejected RangeError) connecting)) /\
  capture 0 [half_scale_block; half_scale_block]
    (cleanup (settle 0 (Rejected RangeError) connecting))
  = calls (repeat CleanupCall (length [half_scale_block; half_scale_block]))
      (cleanup (settle 0 (Rejected RangeError) connecting)) /\
  teardowns
    (trace (settle 0 (Rejected RangeError)
              (capture 0 [half_scale_block; half_scale_block] connecting)))
  = (teardowns (trace connecting)
     + length [half_scale_block; half_scale_block])%nat.
Proof.
  apply (teardown_per_failed_send 0 RangeError
           [half_scale_block; half_scale_block]
           (settle 0 (Rejected RangeError) connecting)
           (cleanup (settle 0 (Rejected RangeError) connecting))
           connecting).
  - reflexivity.
  - reflexivity.
  - vm_compute. repeat split.
  - reflexivity.
Defined.

(** ** C10: the error message and teardown *)

(** C10: [cleanup] leaves [errorMsg] as it is, whether it runs to the end
    or waits for the promise, and so does the settling of the promise that
    lets a waiting [cleanup] finish.  The message [onerror] records is
    therefore still there once the session is idle again; a stop request
    or a remote close keeps it; the Dismiss button clears it; and a start
    request from the idle state replaces it, by nothing when the start goes
    through and by the message of the new failure otherwise. *)
Theorem errorMsg_survives_teardown (handleError : Exn -> AIError)
    (env : StartEnv) (e : Exn) (p : nat) (outcome : Promise) (st : State) :
  errorMsg (cleanup st) = errorMsg st /\
  errorMsg (settle p outcome st) = errorMsg st /\
  errorMsg (onclose st) = errorMsg st /\
  errorMsg (onerror handleError e st) = Some (message (handleError e)) /\
  isActive (onerror handleError e st) = false /\
  isConnecting (onerror handleError e st) = false /\
  errorMsg (toggleSession handleError env st)
  = (if isActive st || isConnecting st then errorMsg st
     else match start_error env with
          | None => None
          | Some err => Some (message (handleError err))
          end) /\
  errorMsg (dismiss st) = None.
Proof.
  split; [apply cleanup_errorMsg|].
  split; [apply settle_frame|].
  split; [apply cleanup_errorMsg|].
  assert (Herr : errorMsg (onerror handleError e st)
                 = Some (message (handleError e)) /\
                 isActive (onerror handleError e st) = false /\
                 isConnecting (onerror handleError e st) = false).
  { unfold onerror.
    pose proof (cleanup_errorMsg
                  (setErrorMsg (Some (message (handleError e))) st)) as Hm.
    destruct (cleanup_idle
                (setErrorMsg (Some (message (handleError e))) st)) as [Ha Hc].
    destruct (String.eqb (type (handleError e)) "key"); cbn; auto. }
  destruct Herr as (H1 & H2 & H3).
  split; [exact H1|]. split; [exact H2|]. split; [exact H3|].
  split; [|reflexivity].
  destruct (isActive st || isConnecting st) eqn:Hlive.
  - rewrite (toggleSession_live _ _ _ Hlive). apply cleanup_errorMsg.
  - rewrite (toggleSession_idle _ _ _ Hlive). cbn zeta.
    destruct (start_frame env
                (setTranscription ""
                   (setErrorMsg None (setIsConnecting true st))))
      as (Hm & _).
    destruct (start_error env) as [err|]; [|exact Hm].
    now rewrite cleanup_errorMsg.
Qed.

(** * Further properties of the code *)

(** ** The codec on arbitrary input *)

Module CodecMore.
Import Base64 Base64Facts Codec Readback CodecFacts.

Lemma string_of_list_ascii_length (cs : list ascii) :
  String.length (string_of_list_ascii cs) = length cs.
Proof. induction cs as [|c cs IH]; cbn; [reflexivity|]. now rewrite IH. Qed.

Lemma btoa_chars_length (bs : list Z) :
  length (map b64_char (sextets_of_bytes bs) ++ padding bs)
  = (4 * ((length bs + 2) / 3))%nat.
Proof.
  induction bs as [|a|a b|a b c l IH] using list_ind3; try reflexivity.
  change (sextets_of_bytes (a :: b :: c :: l))
    with (a / 4 :: (a mod 4) * 16 + b / 16 :: (b mod 16) * 4 + c / 64
            :: c mod 64 :: sextets_of_bytes l).
  change (padding (a :: b :: c :: l)) with (padding l).
  cbn [map app length]. rewrite IH.
  replace (S (S (S (length l))) + 2)%nat with (1 * 3 + (length l + 2))%nat by lia.
  rewrite Nat.div_add_l by lia. lia.
Qed.

Lemma encode_length bytes base64 :
  encode bytes = Ok base64 ->
  String.length base64 = (4 * ((length bytes + 2) / 3))%nat.
Proof.
  unfold encode. rewrite binary_string_of_bytes. cbn [app]. unfold btoa.
  destruct (forallb is_latin1 bytes); [|discriminate].
  intros H. injection H as <-.
  now rewrite string_of_list_ascii_length, btoa_chars_length.
Qed.

Lemma ToInt16_range n : is_int16 (ToInt16 n).
Proof.
  unfold is_int16, ToInt16.
  destruct (Z.leb_spec 32768 (n mod 65536)); Z.div_mod_to_equations; lia.
Qed.

Lemma to_int16_range inputData : Forall is_int16 (to_int16 inputData).
Proof.
  unfold to_int16. apply Forall_map.
  induction inputData as [|x l IH]; constructor; [|exact IH].
  destruct x as [q|]; cbn; [apply ToInt16_range|unfold is_int16; lia].
Qed.

(** *** Frame counts that do not divide *)

Lemma frame_count_floor (len n : nat) :
  (0 < n)%nat ->
  let frameCount := (inject_Z (Z.of_nat len) / inject_Z (Z.of_nat n))%Q in
  Z.to_nat (Qtruncate frameCount) = (len / n)%nat /\
  (len / n <= Z.to_nat (Qceiling frameCount))%nat.
Proof.
  intros Hn frameCount. subst frameCount.
  rewrite Qtruncate_div, Qceiling_div by exact Hn.
  rewrite Z.quot_div_nonneg by lia.
  rewrite <- Nat2Z.inj_div, Nat2Z.id. split; [reflexivity|].
  apply Nat2Z.inj_le. rewrite Nat2Z.inj_div, Z2Nat.id.
  - Z.div_mod_to_equations. nia.
  - Z.div_mod_to_equations. nia.
Qed.

Lemma fold_insert_beyond {A} (f : nat -> A) (k : nat) : forall (a : nat) (l : list A),
  (length l <= a)%nat ->
  fold_left (fun cd i => <[i := f i]> cd) (seq a k) l = l.
Proof.
  induction k as [|k IH]; intros a l Ha; [reflexivity|].
  cbn [seq fold_left]. rewrite list_insert_ge by exact Ha.
  apply IH. lia.
Qed.

Lemma fill_channel_floor dataInt16 numChannels frameCount channel cd :
  (length cd <= Z.to_nat (Qceiling frameCount))%nat ->
  fill_channel dataInt16 numChannels frameCount channel cd
  = map (fun i => sample_value dataInt16 (i * numChannels + channel))
        (seq 0 (length cd)).
Proof.
  intros Hc. unfold fill_channel.
  replace (Z.to_nat (Qceiling frameCount))
    with (length cd + (Z.to_nat (Qceiling frameCount) - length cd))%nat by lia.
  rewrite seq_app, fold_left_app, fold_insert_seq by lia.
  rewrite drop_all, app_nil_r.
  apply fold_insert_beyond. now rewrite length_map, length_seq.
Qed.

Lemma sample_values_take (s : list Z) : forall k,
  (k <= length s)%nat ->
  map (sample_value s) (seq 0 k) = map scaled (take k s).
Proof.
  induction s as [|z s IH]; intros k Hk.
  - cbn in Hk. replace k with 0%nat by lia. reflexivity.
  - destruct k as [|k]; [reflexivity|].
    cbn [seq map take]. f_equal.
    rewrite <- seq_shift, map_map. rewrite <- IH by (cbn in Hk; lia).
    apply map_ext. intros i. reflexivity.
Qed.

End CodecMore.

Import Base64 Codec Readback Live Base64Facts CodecFacts LiveFacts CodecMore.

(** X1.  [decode] inverts [encode] on every byte array, of any length:
    [encode] never fails on bytes, its text has four characters for every
    three bytes begun, and [decode] gives the bytes back. *)
Theorem encode_decode_bytes_roundtrip (bytes : list Z) :
  Forall is_byte bytes ->
  exists base64,
    encode bytes = Ok base64 /\
    String.length base64 = (4 * ((length bytes + 2) / 3))%nat /\
    decode base64 = Ok bytes.
Proof.
  intros Hb. destruct (decode_encode_bytes bytes Hb) as (base64 & He & Hd).
  exists base64. split; [exact He|]. split; [|exact Hd].
  now apply encode_length.
Qed.

Lemma encode_decode_bytes_roundtrip_witness :
  exists base64,
    encode [72; 105; 255; 0; 7] = Ok base64 /\
    String.length base64 = (4 * ((length [72; 105; 255; 0; 7] + 2) / 3))%nat /\
    decode base64 = Ok [72; 105; 255; 0; 7].
Proof.
  apply (encode_decode_bytes_roundtrip [72; 105; 255; 0; 7]).
  repeat constructor; unfold is_byte; lia.
Defined.

(** X2.  What [decodeAudioData] returns, for every input.  An odd byte
    length is a [RangeError].  Otherwise the call needs a channel count
    the context has, a supported rate and at least one whole frame, and is
    a [NotSupportedError] without them; with them the buffer has
    [samples / numChannels] frames, rounded down, channel [c] holds the
    samples [i * numChannels + c], and the samples of a trailing partial
    frame are left out. *)
Theorem decodeAudioData_outcome (data : list Z) (ctx : AudioContext)
    (rate : Z) (numChannels : nat) :
  decodeAudioData data ctx rate numChannels
  = (if Nat.even (length data)
     then if (0 <? numChannels)%nat && (numChannels <=? maxChannels ctx)%nat
             && (numChannels <=? length data / 2)%nat && supportsRate ctx rate
          then Ok {| numberOfChannels := numChannels;
                     frames := length data / 2 / numChannels;
                     sampleRate := rate;
                     channels := deinterleaved (int16_view data) numChannels |}
          else Throw NotSupportedError
     else Throw RangeError) /\
  forall buffer,
    decodeAudioData data ctx rate numChannels = Ok buffer ->
    interleave buffer
    = map scaled (take (frames buffer * numChannels) (int16_view data)).
Proof.
  assert (Heq :
    decodeAudioData data ctx rate numChannels
    = (if Nat.even (length data)
       then if (0 <? numChannels)%nat && (numChannels <=? maxChannels ctx)%nat
               && (numChannels <=? length data / 2)%nat && supportsRate ctx rate
            then Ok {| numberOfChannels := numChannels;
                       frames := length data / 2 / numChannels;
                       sampleRate := rate;
                       channels := deinterleaved (int16_view data) numChannels |}
            else Throw NotSupportedError
       else Throw RangeError)).
  { destruct (Nat.even (length data)) eqn:Heven;
      [|now apply decodeAudioData_odd].
    unfold decodeAudioData, Int16Array_of_buffer. rewrite Heven. cbn [bind].
    rewrite int16_view_length. unfold createBuffer.
    destruct numChannels as [|n]; [reflexivity|].
    destruct (frame_count_floor (length data / 2) (S n) ltac:(lia)) as [Ht Hc].
    rewrite Ht.
    set (L := (length data / 2)%nat) in *. set (F := (L / S n)%nat) in *.
    assert (HF : (0 <? F)%nat = (S n <=? L)%nat).
    { pose proof (Nat.div_mod_eq L (S n)) as Hdm.
      pose proof (Nat.mod_upper_bound L (S n) ltac:(lia)) as Hub.
      fold F in Hdm.
      destruct (Nat.ltb_spec 0 F), (Nat.leb_spec (S n) L);
        try reflexivity; nia. }
    rewrite HF.
    destruct ((0 <? S n)%nat && (S n <=? maxChannels ctx)%nat
              && (S n <=? L)%nat && supportsRate ctx rate); [|reflexivity].
    cbn [bind numberOfChannels frames sampleRate channels].
    f_equal. f_equal.
    rewrite fold_channels by lia. rewrite Nat.sub_diag. cbn [replicate].
    rewrite app_nil_r. unfold deinterleaved.
    rewrite int16_view_length. fold L. fold F.
    apply map_ext. intros c.
    rewrite fill_channel_floor by (now rewrite length_replicate).
    now rewrite length_replicate. }
  split; [exact Heq|].
  intros buffer Hok. rewrite Heq in Hok.
  destruct (Nat.even (length data)); [|discriminate].
  destruct ((0 <? numChannels)%nat && (numChannels <=? maxChannels ctx)%nat
            && (numChannels <=? length data / 2)%nat && supportsRate ctx rate);
    [|discriminate].
  rewrite <- (int16_view_length data) in Hok.
  injection Hok as <-. unfold interleave. cbn [frames channels].
  set (s := int16_view data).
  rewrite <- sample_values_take.
  2:{ pose proof (Nat.div_mod_eq (length s) numChannels). nia. }
  rewrite <- flat_map_seq_blocks.
  apply flat_map_ext_on. intros i Hi. apply in_seq in Hi.
  unfold deinterleaved. rewrite map_map. apply map_ext. intros c.
  rewrite lookup_map_seq by lia. reflexivity.
Qed.

Lemma decodeAudioData_outcome_witness :
  match decodeAudioData [0; 64; 0; 192; 1; 0] (stdAudioContext 0) 24000 2 with
  | Ok buffer =>
      interleave buffer
      = map scaled (take (frames buffer * 2) (int16_view [0; 64; 0; 192; 1; 0]))
  | Throw _ => False
  end.
Proof.
  generalize (proj2 (decodeAudioData_outcome [0; 64; 0; 192; 1; 0]
                       (stdAudioContext 0) 24000 2)).
  destruct (decodeAudioData [0; 64; 0; 192; 1; 0] (stdAudioContext 0) 24000 2)
    as [buffer|e] eqn:E.
  - intros H. apply H. reflexivity.
  - vm_compute in E. discriminate E.
Defined.

(** X3.  The capture callback on any block, whatever the samples and the
    state of the connection: every stored sample is a signed 16-bit value
    (out-of-range input wraps, [NaN] stores 0), one per input sample; the
    block always encodes, to a packet tagged [audio/pcm;rate=16000] of
    four characters for every three bytes begun, which decodes to the
    bytes of the stored samples; and the callback throws nothing. *)
Theorem capture_block_packet (p : nat) (inputData : list number) (st : State) :
  Forall is_int16 (to_int16 inputData) /\
  length (to_int16 inputData) = length inputData /\
  snd (onaudioprocess p inputData st) = None /\
  exists pkt,
    packet_of inputData = Some pkt /\
    mimeType pkt = "audio/pcm;rate=16000"%string /\
    String.length (data pkt) = (4 * ((2 * length inputData + 2) / 3))%nat /\
    decode (data pkt) = Ok (Uint8Array_of_Int16Array (to_int16 inputData)).
Proof.
  split; [apply to_int16_range|].
  assert (Hlen : length (to_int16 inputData) = length inputData)
    by (unfold to_int16; apply length_map).
  split; [exact Hlen|]. split.
  - destruct (onaudioprocess_cases p inputData st) as (pkt & _ & ->).
    now destruct (promise_at p st).
  - destruct (decode_encode_bytes _
                (Uint8Array_of_Int16Array_bytes (to_int16 inputData)))
      as (base64 & He & Hd).
    exists {| data := base64; mimeType := "audio/pcm;rate=16000" |}.
    unfold packet_of. rewrite He. cbn [data mimeType].
    split; [reflexivity|]. split; [reflexivity|]. split; [|exact Hd].
    rewrite (encode_length _ _ He), Uint8Array_of_Int16Array_length, Hlen.
    reflexivity.
Qed.

(** X4.  A captured sample [q] in [-1, 1) and the float it is played back
    as, [trunc(q * 32768) / 32768], differ by less than 1/32768, and the
    played sample is never the larger of the two in magnitude. *)
Theorem quantisation_error (q : Q) :
  (-1 <= q)%Q -> (q < 1)%Q ->
  to_int16 [Num q] = [Qtruncate (q * 32768)] /\
  (Qabs (q - inject_Z (Qtruncate (q * 32768)) / 32768) < 1 / 32768)%Q /\
  (Qabs (inject_Z (Qtruncate (q * 32768)) / 32768) <= Qabs q)%Q.
Proof.
  intros Hlo Hhi.
  split.
  { cbn. f_equal. apply ToInt16_small. now apply Qtruncate_scaled_range. }
  assert (Hsplit :
    ((0 <= q)%Q /\
     (inject_Z (Qtruncate (q * 32768)) <= q * 32768)%Q /\
     (q * 32768 < inject_Z (Qtruncate (q * 32768)) + 1)%Q /\
     (0 <= inject_Z (Qtruncate (q * 32768)))%Q) \/
    ((q <= 0)%Q /\
     (q * 32768 <= inject_Z (Qtruncate (q * 32768)))%Q /\
     (inject_Z (Qtruncate (q * 32768)) - 1 < q * 32768)%Q /\
     (inject_Z (Qtruncate (q * 32768)) <= 0)%Q)).
  { destruct q as [a b].
    unfold Qle, Qlt, Qtruncate, Qplus, Qminus, Qopp, Qmult, inject_Z in *.
    cbn in *. rewrite ?Pos.mul_1_r.
    destruct (Z_le_gt_dec 0 a); [left|right];
      Z.to_euclidean_division_equations; nia. }
  set (z := inject_Z (Qtruncate (q * 32768))) in *. clearbody z.
  assert (E : (z / 32768 == z * (1 # 32768))%Q) by (unfold Qdiv; reflexivity).
  change (1 / 32768)%Q with (1 # 32768)%Q. rewrite E.
  split.
  - apply Qabs_Qlt_condition.
    destruct Hsplit as [(H0 & H1 & H2 & H3)|(H0 & H1 & H2 & H3)]; split; lra.
  - destruct Hsplit as [(H0 & H1 & H2 & H3)|(H0 & H1 & H2 & H3)].
    + rewrite !Qabs_pos by lra. lra.
    + rewrite !Qabs_neg by lra. lra.
Qed.

Lemma quantisation_error_witness :
  to_int16 [Num (-1 # 3)] = [Qtruncate ((-1 # 3) * 32768)] /\
  (Qabs ((-1 # 3) - inject_Z (Qtruncate ((-1 # 3) * 32768)) / 32768)
   < 1 / 32768)%Q /\
  (Qabs (inject_Z (Qtruncate ((-1 # 3) * 32768)) / 32768) <= Qabs (-1 # 3))%Q.
Proof.
  apply (quantisation_error (-1 # 3)).
  - vm_compute. discriminate.
  - vm_compute. reflexivity.
Defined.

(** X5.  The capture conversion inverts the playback conversion: the
    floats an inbound chunk is played as, fed to the capture callback, are
    stored as the very samples of the chunk. *)
Theorem capture_inverts_playback (samples : list Z) :
  Forall is_int16 samples -> to_int16 (map scaled samples) = samples.
Proof.
  unfold to_int16. induction 1 as [|z l Hz _ IH]; [reflexivity|].
  cbn [map scaled Int16Array_store]. rewrite IH. f_equal.
  assert (Ht : Qtruncate (inject_Z z / 32768 * 32768) = z).
  { unfold Qtruncate, Qdiv, Qmult, Qinv, inject_Z. cbn.
    rewrite Z.mul_1_r. apply Z.quot_mul. lia. }
  rewrite Ht. now apply ToInt16_small.
Qed.

Lemma capture_inverts_playback_witness :
  to_int16 (map scaled [-32768; -1; 0; 1; 32767]) = [-32768; -1; 0; 1; 32767].
Proof.
  apply (capture_inverts_playback [-32768; -1; 0; 1; 32767]).
  repeat constructor; unfold is_int16; lia.
Defined.

(** X6.  Once the connection promise has resolved, every captured block is
    sent at once: the packets go out in the order of capture, one
    [sendRealtimeInput] each, and nothing else changes. *)
Theorem capture_while_resolved (p : nat) (blocks : list (list number))
    (st : State) :
  promise_at p st = Fulfilled ->
  capture p blocks st
  = calls (map (SessionSend p) (omap packet_of blocks)) st /\
  length (omap packet_of blocks) = length blocks.
Proof.
  intros Hp. split; [|apply omap_packet_of_length].
  revert st Hp. induction blocks as [|b blocks IH]; intros st Hp.
  - cbn. now rewrite calls_nil.
  - unfold capture. cbn [fold_left].
    destruct (onaudioprocess_cases p b st) as (pkt & Hpkt & ->).
    rewrite Hp. cbn [fst].
    fold (capture p blocks (call (SessionSend p pkt) st)).
    rewrite (IH (call (SessionSend p pkt) st) Hp).
    cbn [omap list_omap]. rewrite Hpkt. cbn [map]. apply calls_call.
Qed.

Lemma capture_while_resolved_witness :
  capture 0 [half_scale_block; half_scale_block]
    (settle 0 Fulfilled (onopen connecting))
  = calls (map (SessionSend 0)
             (omap packet_of [half_scale_block; half_scale_block]))
      (settle 0 Fulfilled (onopen connecting)) /\
  length (omap packet_of [half_scale_block; half_scale_block])
  = length [half_scale_block; half_scale_block].
Proof.
  apply (capture_while_resolved 0 [half_scale_block; half_scale_block]
           (settle 0 Fulfilled (onopen connecting))).
  reflexivity.
Defined.

(** ** The component as a whole *)

Module SessionFacts.
Import Codec Live LiveFacts Session.

Lemma starts_app a b : starts (a ++ b) = starts a ++ starts b.
Proof.
  induction a as [|e a IH]; [reflexivity|].
  destruct e; cbn; now rewrite IH.
Qed.

Lemma starts_quiet es : start_times es = [] -> starts es = [].
Proof.
  induction es as [|e es IH]; [reflexivity|].
  destruct e; cbn; try exact IH. discriminate.
Qed.

Lemma view_call e st :
  starts [e] = [] -> view (call e st) = view st.
Proof.
  intros He. unfold view. cbn. now rewrite starts_app, He, app_nil_r.
Qed.

Lemma view_release st : view (release st) = v_reset (view st).
Proof.
  rewrite release_eq. unfold view, v_reset. cbn.
  rewrite starts_app, (starts_quiet (release_calls st)), app_nil_r;
    [reflexivity|apply release_calls_quiet].
Qed.

Lemma view_cleanup st :
  view (cleanup st) = view st \/ view (cleanup st) = v_reset (view st).
Proof.
  rewrite cleanup_cases.
  assert (He : view (entering st) = view st)
    by (unfold entering; apply (view_call CleanupCall); reflexivity).
  destruct (sessionPromiseRef st) as [p|];
    [destruct (promise_at p st) as [rs| |reason]|].
  - left. exact He.
  - right. rewrite view_release. cbn [close_session].
    now rewrite (view_call (SessionClose p)), He.
  - right. rewrite view_release. cbn [close_session]. now rewrite He.
  - right. now rewrite view_release, He.
Qed.

Lemma vstep_reset v : rtc vstep v (v_reset v).
Proof. apply rtc_once, vs_reset. Qed.

Lemma cleanup_vsteps st : rtc vstep (view st) (view (cleanup st)).
Proof.
  destruct (view_cleanup st) as [-> | ->]; [apply rtc_refl|apply vstep_reset].
Qed.

Lemma react_vsteps p outcome st r :
  rtc vstep (view st) (view (react p outcome st r)).
Proof.
  destruct r as [media|], outcome as [rs| |reason]; cbn [react];
    try apply rtc_refl; try apply cleanup_vsteps.
  - rewrite (view_call (SessionSend p media)) by reflexivity. apply rtc_refl.
  - rewrite view_release. cbn [close_session].
    rewrite (view_call (SessionClose p)) by reflexivity. apply vstep_reset.
  - rewrite view_release. cbn [close_session]. apply vstep_reset.
Qed.

Lemma fold_react_vsteps p outcome rs : forall st,
  rtc vstep (view st) (view (fold_left (react p outcome) rs st)).
Proof.
  induction rs as [|r rs IH]; intros st; cbn [fold_left]; [apply rtc_refl|].
  eapply rtc_trans; [apply react_vsteps|apply IH].
Qed.

Lemma settle_vsteps p outcome st :
  rtc vstep (view st) (view (settle p outcome st)).
Proof.
  unfold settle. destruct (promise_at p st) as [rs| |reason];
    try apply rtc_refl.
  apply (fold_react_vsteps p outcome rs (set_promise p outcome st)).
Qed.

Lemma flush_vsteps st : rtc vstep (view st) (view (flush st)).
Proof.
  replace (view (flush st)) with (v_reset (view st)); [apply vstep_reset|].
  rewrite flush_eq. unfold view, v_reset. cbn.
  rewrite starts_app, (starts_quiet _ (calls_stops_start_times _)).
  now rewrite app_nil_r.
Qed.

Lemma schedule_vsteps outputCtx base64Audio st :
  rtc vstep (view st) (view (fst (schedule outputCtx base64Audio st))).
Proof.
  destruct (decode_chunk outputCtx base64Audio) as [b|e] eqn:Hd.
  - rewrite (schedule_ok _ _ _ _ Hd). cbn [fst].
    apply rtc_once.
    match goal with |- vstep _ ?tgt => replace tgt with
      {| v_sources :=
           v_sources (view st)
           ++ [{| source_id := v_next (view st); buffer := b |}];
         v_next := S (v_next (view st));
         v_starts :=
           v_starts (view st)
           ++ [(v_next (view st),
                Qmax (v_cursor (view st)) (currentTime outputCtx))];
         v_cursor :=
           (Qmax (v_cursor (view st)) (currentTime outputCtx)
            + duration b)%Q |} end.
    + apply vs_add. eapply decode_chunk_duration, Hd.
    + unfold view. cbn. now rewrite starts_app.
  - rewrite (schedule_throw _ _ _ _ Hd). cbn [fst].
    apply rtc_once. apply (vs_raise (view st) (currentTime outputCtx)).
Qed.

Lemma onmessage_vsteps outputCtx message st :
  rtc vstep (view st) (view (fst (onmessage outputCtx message st))).
Proof.
  unfold onmessage.
  assert (Ha : view (append_transcription message st) = view st).
  { unfold append_transcription. now destruct (outputTranscription message). }
  rewrite <- Ha. set (st0 := append_transcription message st).
  assert (Hfl : forall s, rtc vstep (view st0) (view s) ->
                rtc vstep (view st0)
                  (view (if interrupted message then flush s else s))).
  { intros s Hs. destruct (interrupted message); [|exact Hs].
    eapply rtc_trans; [exact Hs|apply flush_vsteps]. }
  destruct (inlineData message) as [a|];
    [destruct (String.eqb a "")|]; cbn [fst].
  - apply Hfl, rtc_refl.
  - pose proof (schedule_vsteps outputCtx a st0) as Hs.
    destruct (schedule outputCtx a st0) as [st1 [e|]]; cbn [fst] in *.
    + exact Hs.
    + now apply Hfl.
  - apply Hfl, rtc_refl.
Qed.

Lemma view_start env st : view (fst (start env st)) = view st.
Proof.
  unfold start, contexts, view.
  destruct env as [[[|]|e1] [u|e2] [g|e3] [c|e4] [i|e5] [o|e6] [ri|e7] [ro|e8]];
    cbn;
    rewrite ?starts_app; cbn; rewrite ?app_nil_r; reflexivity.
Qed.

Lemma toggleSession_vsteps handleError env st :
  rtc vstep (view st) (view (toggleSession handleError env st)).
Proof.
  destruct (isActive st || isConnecting st) eqn:Hlive.
  - rewrite (toggleSession_live _ _ _ Hlive). apply cleanup_vsteps.
  - rewrite (toggleSession_idle _ _ _ Hlive). cbn zeta.
    set (st0 := setTranscription ""
                  (setErrorMsg None (setIsConnecting true st))).
    assert (H0 : view (fst (start env st0)) = view st)
      by now rewrite view_start.
    destruct (start_error env) as [err|].
    + rewrite <- H0.
      apply (cleanup_vsteps
               (setErrorMsg (Some (message (handleError err)))
                  (fst (start env st0)))).
    + rewrite H0. apply rtc_refl.
Qed.

Lemma onaudioprocess_vsteps p inputData st :
  rtc vstep (view st) (view (fst (onaudioprocess p inputData st))).
Proof.
  destruct (onaudioprocess_cases p inputData st) as (pkt & _ & ->).
  destruct (promise_at p st) as [rs| |reason]; cbn [fst].
  - apply rtc_refl.
  - rewrite (view_call (SessionSend p pkt)) by reflexivity. apply rtc_refl.
  - apply cleanup_vsteps.
Qed.

Lemma step_vsteps handleError st ev :
  rtc vstep (view st) (view (step handleError st ev)).
Proof.
  destruct ev as [env| | |ctx m|e| |source|p b|p o|]; cbn [step].
  - apply toggleSession_vsteps.
  - apply rtc_refl.
  - apply rtc_refl.
  - apply onmessage_vsteps.
  - unfold onerror.
    destruct (String.eqb (type (handleError e)) "key").
    + rewrite (view_call OpenSelectKey) by reflexivity.
      apply (cleanup_vsteps (setErrorMsg (Some (message (handleError e))) st)).
    + apply (cleanup_vsteps (setErrorMsg (Some (message (handleError e))) st)).
  - apply cleanup_vsteps.
  - apply rtc_once. apply (vs_drop (view st) source).
  - apply onaudioprocess_vsteps.
  - apply settle_vsteps.
  - apply cleanup_vsteps.
Qed.

(** *** The scheduler's invariant *)

Lemma scheduled_vstep v v' : scheduled v -> vstep v v' -> scheduled v'.
Proof.
  intros [Hf Hd Hsf Hsd He Hc] Hstep.
  destruct Hstep as [v|v t|v t b Hb|v source]; constructor; cbn;
    try assumption.
  - constructor.
  - constructor.
  - constructor.
  - apply Qle_refl.
  - eapply Forall_impl; [exact He|].
    intros s (w & Hin & Hpos & Hle). exists w. split; [exact Hin|].
    pose proof (Q.le_max_l (v_cursor v) t). split; lra.
  - pose proof (Q.le_max_l (v_cursor v) t). lra.
  - apply Forall_app. split.
    + eapply Forall_impl; [exact Hf|]. cbn. intros s Hs. lia.
    + constructor; [cbn; lia|constructor].
  - rewrite map_app. apply NoDup_app. split; [exact Hd|]. split.
    + intros x Hx Hx'. apply list_elem_of_singleton in Hx'. subst x.
      change (map source_id (v_sources v)) with (source_id <$> v_sources v)
        in Hx.
      apply list_elem_of_fmap in Hx as (s & Hs & Hin).
      rewrite Forall_forall in Hf. specialize (Hf s Hin). cbn in Hs. lia.
    + apply NoDup_singleton.
  - apply Forall_app. split.
    + eapply Forall_impl; [exact Hsf|]. cbn. intros s Hs. lia.
    + constructor; [cbn; lia|constructor].
  - rewrite map_app. apply NoDup_app. split; [exact Hsd|]. split.
    + intros x Hx Hx'. apply list_elem_of_singleton in Hx'. subst x.
      change (map fst (v_starts v)) with (fst <$> v_starts v) in Hx.
      apply list_elem_of_fmap in Hx as (s & Hs & Hin).
      rewrite Forall_forall in Hsf. specialize (Hsf s Hin). cbn in Hs. lia.
    + apply NoDup_singleton.
  - pose proof (Q.le_max_l (v_cursor v) t) as Hm.
    apply Forall_app. split.
    + eapply Forall_impl; [exact He|].
      intros s (w & Hin & Hpos & Hle). exists w. split.
      * apply in_or_app. now left.
      * split; lra.
    + repeat constructor. cbn.
      exists (Qmax (v_cursor v) t). split.
      * apply in_or_app. right. now left.
      * split; lra.
  - pose proof (Q.le_max_l (v_cursor v) t). lra.
  - apply Forall_forall. intros s Hs.
    apply list_elem_of_filter in Hs as [_ Hs].
    rewrite Forall_forall in Hf. now apply Hf.
  - eapply sublist_NoDup; [exact Hd|].
    change (map source_id ?l) with (source_id <$> l).
    apply fmap_sublist, sublist_filter.
  - apply Forall_forall. intros s Hs.
    apply list_elem_of_filter in Hs as [_ Hs].
    rewrite Forall_forall in He. now apply He.
Qed.

Lemma scheduled_vsteps v v' : scheduled v -> rtc vstep v v' -> scheduled v'.
Proof.
  intros Hv Hsteps. induction Hsteps as [v|v1 v2 v3 H12 _ IH]; [exact Hv|].
  apply IH. eapply scheduled_vstep; eassumption.
Qed.

Lemma scheduled_initial : scheduled (view initial).
Proof.
  constructor; cbn; try constructor. apply Qle_refl.
Qed.

Lemma run_scheduled handleError events : forall st,
  scheduled (view st) -> scheduled (view (run handleError events st)).
Proof.
  induction events as [|ev events IH]; intros st Hst; [exact Hst|].
  cbn [run fold_left]. apply IH.
  eapply scheduled_vsteps; [exact Hst|apply step_vsteps].
Qed.

End SessionFacts.

Import Session SessionFacts.

(** X7.  In every state the component can reach from its initial state,
    whatever the events and their order, the registered sources are
    distinct objects, each was started exactly once, at a time that is not
    negative and not after the playback cursor, and the cursor is not
    negative. *)
Theorem registered_sources_started_once (handleError : Exn -> AIError)
    (events : list Event) :
  NoDup (map source_id (sourcesRef (run handleError events initial))) /\
  NoDup (map fst (starts (trace (run handleError events initial)))) /\
  Forall (fun s => exists w,
              In (source_id s, w)
                 (starts (trace (run handleError events initial))) /\
              (0 <= w)%Q /\
              (w <= nextStartTimeRef (run handleError events initial))%Q)
         (sourcesRef (run handleError events initial)) /\
  (0 <= nextStartTimeRef (run handleError events initial))%Q.
Proof.
  destruct (run_scheduled handleError events initial scheduled_initial)
    as [_ Hd _ Hsd He Hc].
  auto.
Qed.

(** ** Messages, interruptions and the end of a source *)

Module MessageFacts.
Import Codec Live LiveFacts Session SessionFacts.

Lemma string_append_assoc (a b c : string) :
  String.append (String.append a b) c = String.append a (String.append b c).
Proof. induction a as [|x a IH]; cbn; [reflexivity|]. now rewrite IH. Qed.

Lemma string_append_nil_r (a : string) : String.append a "" = a.
Proof. induction a as [|x a IH]; cbn; [reflexivity|]. now rewrite IH. Qed.

Lemma sent_stops (l : list Source) :
  sent (map (fun source => SourceStop (source_id source)) l) = [] /\
  teardowns (map (fun source => SourceStop (source_id source)) l) = 0%nat /\
  connects (map (fun source => SourceStop (source_id source)) l) = 0%nat.
Proof. induction l; cbn; auto. Qed.

Lemma same_session_refl st : same_session st st.
Proof. unfold same_session. tauto. Qed.

Lemma same_session_trans st1 st2 st3 :
  same_session st1 st2 -> same_session st2 st3 -> same_session st1 st3.
Proof.
  unfold same_session.
  intros (A1 & A2 & A3 & A4 & A5 & A6 & A7 & A8 & A9 & A10)
         (B1 & B2 & B3 & B4 & B5 & B6 & B7 & B8 & B9 & B10).
  repeat split; congruence.
Qed.

Lemma same_session_flush st : same_session st (flush st).
Proof.
  rewrite flush_eq. unfold same_session. cbn.
  rewrite sent_app, teardowns_app, connects_app.
  destruct (sent_stops (sourcesRef st)) as (-> & -> & ->).
  rewrite app_nil_r. repeat split; lia.
Qed.

Lemma same_session_schedule outputCtx base64Audio st :
  same_session st (fst (schedule outputCtx base64Audio st)) /\
  transcription (fst (schedule outputCtx base64Audio st)) = transcription st.
Proof.
  destruct (decode_chunk outputCtx base64Audio) as [b|e] eqn:Hd.
  - rewrite (schedule_ok _ _ _ _ Hd). unfold same_session. cbn.
    rewrite sent_app, teardowns_app, connects_app. cbn.
    rewrite app_nil_r. repeat split; lia.
  - rewrite (schedule_throw _ _ _ _ Hd). unfold same_session. cbn. tauto.
Qed.

Lemma onmessage_frame outputCtx message st :
  same_session st (fst (onmessage outputCtx message st)) /\
  transcription (fst (onmessage outputCtx message st))
  = transcription (append_transcription message st).
Proof.
  unfold onmessage.
  assert (Ha : same_session st (append_transcription message st)).
  { unfold append_transcription, same_session.
    destruct (outputTranscription message); cbn; tauto. }
  set (st0 := append_transcription message st) in *.
  assert (Hfl : forall s, same_session st0 s ->
                transcription s = transcription st0 ->
                same_session st (if interrupted message then flush s else s) /\
                transcription (if interrupted message then flush s else s)
                = transcription st0).
  { intros s Hs Ht. destruct (interrupted message).
    - split.
      + eapply same_session_trans; [exact Ha|].
        eapply same_session_trans; [exact Hs|apply same_session_flush].
      + rewrite flush_eq. exact Ht.
    - split; [eapply same_session_trans; eassumption|exact Ht]. }
  destruct (inlineData message) as [a|];
    [destruct (String.eqb a "")|]; cbn [fst].
  - apply Hfl; [apply same_session_refl|reflexivity].
  - destruct (same_session_schedule outputCtx a st0) as [Hs Ht].
    destruct (schedule outputCtx a st0) as [st1 [e|]]; cbn [fst] in *.
    + split; [eapply same_session_trans; eassumption|exact Ht].
    + now apply Hfl.
  - apply Hfl; [apply same_session_refl|reflexivity].
Qed.

Lemma Qmax_right (x y : Q) : (x < y)%Q -> Qmax x y = y.
Proof.
  intros H. unfold Qmax, GenericMinMax.gmax.
  destruct (x ?= y)%Q eqn:E; [| reflexivity |].
  - apply Qeq_alt in E. lra.
  - apply Qgt_alt in E. lra.
Qed.

End MessageFacts.

Import MessageFacts.

(** X9.  The transcript of a run of inbound messages is the transcript
    before it followed by what each message with a transcription object
    adds, in the order they arrived: nothing is lost or reordered, whether
    or not the audio of a message decodes and whether or not it
    interrupts.  What a message adds is the [text] of the object, and the
    word "undefined" when the object has no [text]. *)
Theorem transcript_accumulates (events : list (AudioContext * Message))
    (st : State) :
  transcription (run_messages events st)
  = String.append (transcription st) (fragments events) /\
  forall (outputCtx : AudioContext) (audio : option string) (flag : bool),
    transcription
      (fst (onmessage outputCtx
              {| outputTranscription := Some {| text := None |};
                 inlineData := audio; interrupted := flag |} st))
    = String.append (transcription st) "undefined".
Proof.
  split.
  - revert st. induction events as [|[ctx m] events IH]; intros st.
    + cbn. now rewrite string_append_nil_r.
    + cbn [run_messages fold_left fst snd fragments].
      fold (run_messages events (fst (onmessage ctx m st))).
      rewrite IH. destruct (onmessage_frame ctx m st) as [_ ->].
      unfold append_transcription.
      destruct (outputTranscription m) as [t|]; [|reflexivity].
      cbn. now rewrite string_append_assoc.
  - intros outputCtx audio flag.
    now destruct (onmessage_frame outputCtx
                    {| outputTranscription := Some {| text := None |};
                       inlineData := audio; interrupted := flag |} st)
      as [_ ->].
Qed.

(** X10.  An interruption stops every registered source, once each and in
    the order of registration, empties the set and puts the cursor back to
    0, and it does the same thing again on an empty set with no call at
    all; the next chunk then starts at the device time of its arrival, not
    at the cursor of before the interruption. *)
Theorem interruption_restarts_the_clock (outputCtx outputCtx' : AudioContext)
    (message : Message) (base64Audio : string) (audioBuffer : AudioBuffer)
    (st : State) :
  interrupted message = true -> inlineData message = None ->
  decode_chunk outputCtx' base64Audio = Ok audioBuffer ->
  (0 < currentTime outputCtx')%Q ->
  snd (onmessage outputCtx message st) = None /\
  sourcesRef (fst (onmessage outputCtx message st)) = [] /\
  nextStartTimeRef (fst (onmessage outputCtx message st)) = 0%Q /\
  trace (fst (onmessage outputCtx message st))
  = trace st ++ map (fun s => SourceStop (source_id s)) (sourcesRef st) /\
  flush (flush st) = flush st /\
  start_times
    (trace (fst (schedule outputCtx' base64Audio
                   (fst (onmessage outputCtx message st)))))
  = start_times (trace st) ++ [currentTime outputCtx'].
Proof.
  intros Hi Hn Hd Hpos.
  assert (Hm : onmessage outputCtx message st
               = (flush (append_transcription message st), None)).
  { unfold onmessage. now rewrite Hn, Hi. }
  destruct (append_transcription_frame message st) as (Hc & Ht & Hs).
  rewrite Hm. cbn [fst snd]. rewrite flush_eq. cbn [sourcesRef nextStartTimeRef trace].
  rewrite Ht, Hs.
  split; [reflexivity|]. split; [reflexivity|]. split; [reflexivity|].
  split; [reflexivity|]. split.
  - rewrite !flush_eq. cbn. now rewrite app_nil_r.
  - rewrite (schedule_ok _ _ _ _ Hd). cbn [fst trace nextStartTimeRef].
    rewrite !start_times_app, calls_stops_start_times, app_nil_r.
    cbn [start_times]. now rewrite (Qmax_right _ _ Hpos).
Qed.

Lemma interruption_restarts_the_clock_witness :
  start_times
    (trace (fst (schedule (stdAudioContext 9) "AAAAAAAA"
                   (fst (onmessage (stdAudioContext 6) interruption
                           (run_messages
                              [(stdAudioContext 5, chunk_message "AAAAAAAA")]
                              initial))))))
  = start_times
      (trace (run_messages [(stdAudioContext 5, chunk_message "AAAAAAAA")]
                initial))
    ++ [currentTime (stdAudioContext 9)].
Proof.
  apply (interruption_restarts_the_clock (stdAudioContext 6)
           (stdAudioContext 9) interruption "AAAAAAAA"
           {| numberOfChannels := 1; frames := 3; sampleRate := 24000;
              channels := [[Num (0 # 32768); Num (0 # 32768); Num (0 # 32768)]] |}
           (run_messages [(stdAudioContext 5, chunk_message "AAAAAAAA")]
              initial)).
  - reflexivity.
  - reflexivity.
  - vm_compute. reflexivity.
  - vm_compute. reflexivity.
Defined.

(** X11.  When a source ends it is taken out of the set and nothing else
    changes: in every reachable state, scheduling a chunk and then ending
    the source just created leaves the set of sources as it was before the
    chunk, while the cursor and the calls made stay as the chunk left
    them; ending a source that is not registered changes nothing. *)
Theorem ended_source_is_deregistered (handleError : Exn -> AIError)
    (events : list Event) (outputCtx : AudioContext) (base64Audio : string)
    (audioBuffer : AudioBuffer) (other : nat) :
  decode_chunk outputCtx base64Audio = Ok audioBuffer ->
  Forall (fun s => source_id s <> other)
         (sourcesRef (run handleError events initial)) ->
  sourcesRef
    (onended (nextSource (run handleError events initial))
       (fst (schedule outputCtx base64Audio
               (run handleError events initial))))
  = sourcesRef (run handleError events initial) /\
  nextStartTimeRef
    (onended (nextSource (run handleError events initial))
       (fst (schedule outputCtx base64Audio
               (run handleError events initial))))
  = nextStartTimeRef
      (fst (schedule outputCtx base64Audio
              (run handleError events initial))) /\
  trace
    (onended (nextSource (run handleError events initial))
       (fst (schedule outputCtx base64Audio
               (run handleError events initial))))
  = trace (fst (schedule outputCtx base64Audio
                  (run handleError events initial))) /\
  onended other (run handleError events initial)
  = run handleError events initial.
Proof.
  intros Hd Hother. set (st := run handleError events initial) in *.
  destruct (run_scheduled handleError events initial scheduled_initial)
    as [Hf _ _ _ _ _].
  fold st in Hf. cbn in Hf.
  split; [|split; [reflexivity|split; [reflexivity|]]].
  - rewrite (schedule_ok _ _ _ _ Hd). cbn [fst]. unfold onended.
    cbn [sourcesRef set_sourcesRef].
    rewrite filter_app, Base64Facts.filter_keep_all.
    + rewrite filter_cons_False, filter_nil by (cbn; intros H; now apply H).
      apply app_nil_r.
    + eapply Forall_impl; [exact Hf|]. cbn. intros s Hs. lia.
  - unfold onended. rewrite Base64Facts.filter_keep_all by exact Hother.
    now destruct st.
Qed.

Lemma ended_source_is_deregistered_witness :
  onended 7
    (run plain_error
       [EvToggle ready_env; EvOpen; EvSettle 0 Resolves;
        EvMessage (stdAudioContext 5) (chunk_message "AAAAAAAA")] initial)
  = run plain_error
      [EvToggle ready_env; EvOpen; EvSettle 0 Resolves;
       EvMessage (stdAudioContext 5) (chunk_message "AAAAAAAA")] initial.
Proof.
  apply (ended_source_is_deregistered plain_error
           [EvToggle ready_env; EvOpen; EvSettle 0 Resolves;
            EvMessage (stdAudioContext 5) (chunk_message "AAAAAAAA")]
           (stdAudioContext 6) "AAAAAAAA"
           {| numberOfChannels := 1; frames := 3; sampleRate := 24000;
              channels := [[Num (0 # 32768); Num (0 # 32768); Num (0 # 32768)]] |}
           7%nat).
  - vm_compute. reflexivity.
  - vm_compute. repeat constructor; discriminate.
Defined.

(** ** The lifecycle *)

Module LifecycleFacts.
Import Codec Live LiveFacts Session SessionFacts MessageFacts.

Lemma start_flags env st :
  isActive (fst (start env st)) = isActive st /\
  isConnecting (fst (start env st)) = isConnecting st.
Proof.
  unfold start, contexts.
  destruct env as [[[|]|e1] [u|e2] [g|e3] [c|e4] [i|e5] [o|e6] [ri|e7] [ro|e8]];
    cbn; auto.
Qed.

Lemma react_exclusive p outcome st r :
  exclusive st -> exclusive (react p outcome st r).
Proof.
  unfold exclusive. intros H.
  destruct r as [media|], outcome as [rs| |reason]; cbn [react];
    try exact H; rewrite ?release_eq; cbn; try exact H;
    destruct (cleanup_idle st) as [-> ->]; reflexivity.
Qed.

Lemma step_exclusive handleError st ev :
  exclusive st -> exclusive (step handleError st ev).
Proof.
  unfold exclusive. intros H.
  destruct ev as [env| | |ctx m|e| |source|p b|p o|]; cbn [step].
  - destruct (isActive st || isConnecting st) eqn:Hlive.
    + rewrite (toggleSession_live _ _ _ Hlive).
      now destruct (cleanup_idle st) as [-> ->].
    + rewrite (toggleSession_idle _ _ _ Hlive). cbn zeta.
      destruct (start_flags env
                  (setTranscription ""
                     (setErrorMsg None (setIsConnecting true st))))
        as [Ha Hc].
      destruct (start_error env) as [err|].
      * match goal with |- context [cleanup ?s] =>
          now destruct (cleanup_idle s) as [-> ->] end.
      * rewrite Ha. cbn. apply orb_false_elim in Hlive as [-> _].
        reflexivity.
  - exact H.
  - reflexivity.
  - destruct (onmessage_frame ctx m st) as [(-> & -> & _) _]. exact H.
  - unfold onerror.
    destruct (cleanup_idle (setErrorMsg (Some (message (handleError e))) st))
      as [Ha Hc].
    destruct (String.eqb (type (handleError e)) "key"); cbn; now rewrite Ha.
  - unfold onclose. now destruct (cleanup_idle st) as [-> ->].
  - exact H.
  - destruct (onaudioprocess_cases p b st) as (pkt & _ & ->).
    destruct (promise_at p st); cbn [fst]; try exact H.
    now destruct (cleanup_idle st) as [-> ->].
  - unfold settle. destruct (promise_at p st) as [rs| |reason]; try exact H.
    assert (Hf : forall rs s, isActive s && isConnecting s = false ->
               isActive (fold_left (react p (promise_of o)) rs s)
               && isConnecting (fold_left (react p (promise_of o)) rs s)
               = false).
    { clear. induction rs as [|r rs IH]; intros s Hs; [exact Hs|].
      cbn [fold_left]. apply IH. now apply react_exclusive. }
    apply Hf. exact H.
  - now destruct (cleanup_idle st) as [-> ->].
Qed.

Lemma run_exclusive handleError events : forall st,
  exclusive st -> exclusive (run handleError events st).
Proof.
  induction events as [|ev events IH]; intros st H; [exact H|].
  cbn [run fold_left]. apply IH. now apply step_exclusive.
Qed.

(** *** A start that goes through, a start that fails *)

Lemma start_ok env st stream :
  start_error env = None -> getUserMedia env = Ok stream ->
  fst (start env st)
  = {| isActive := isActive st; isConnecting := isConnecting st;
       transcription := transcription st; errorMsg := errorMsg st;
       sessionPromiseRef := Some (length (promises st));
       audioContextsRef := Some {| input := 16000; output := 24000 |};
       streamRef := Some stream;
       nextStartTimeRef := nextStartTimeRef st; sourcesRef := sourcesRef st;
       promises := promises st ++ [Pending []];
       nextSource := nextSource st;
       trace := trace st ++ key_calls env
                ++ [Connect (length (promises st))] |}.
Proof.
  unfold start, contexts, start_error, key_calls.
  destruct st as [a c t em sp ctxs str ns srcs ps n tr].
  destruct env as [[[|]|e1] [u|e2] [g|e3] [x|e4] [i|e5] [o|e6] [ri|e7] [ro|e8]];
    cbn;
    intros Herr Hs; try discriminate; injection Hs as <-;
    unfold set_sessionPromiseRef, call, set_promises, set_audioContextsRef,
      set_streamRef; cbn;
    rewrite <- ?app_assoc; reflexivity.
Qed.


(** *** An open session *)

Lemma captured_cons p ev events :
  captured p (ev :: events) = captured p [ev] ++ captured p events.
Proof.
  destruct ev; cbn; try reflexivity.
  now destruct (Nat.eqb _ p).
Qed.

Lemma in_session_step handleError p st ev :
  open_session p st -> in_session p ev ->
  open_session p (step handleError st ev) /\
  streamRef (step handleError st ev) = streamRef st /\
  audioContextsRef (step handleError st ev) = audioContextsRef st /\
  sent (trace (step handleError st ev))
  = sent (trace st) ++ omap packet_of (captured p [ev]) /\
  teardowns (trace (step handleError st ev)) = teardowns (trace st).
Proof.
  unfold open_session. intros (Ha & Hr & Hp) Hev.
  destruct ev as [env| | |ctx m|e| |source|p' b|p' o|]; cbn in Hev;
    try contradiction; cbn [step captured omap list_omap].
  - destruct (onmessage_frame ctx m st)
      as [(E1 & E2 & E3 & E4 & E5 & E6 & E7 & E8 & E9 & E10) _].
    unfold promise_at in *. rewrite E1, E4, E5, E6, E7, E8, E9, app_nil_r.
    auto.
  - unfold onended. cbn. rewrite app_nil_r. auto.
  - subst p'. rewrite Nat.eqb_refl.
    destruct (onaudioprocess_cases p b st) as (pkt & Hpkt & ->).
    rewrite Hp. cbn [fst omap list_omap]. rewrite Hpkt.
    cbn. rewrite sent_app, teardowns_app. cbn.
    repeat split; auto.
Qed.

Lemma in_session_run handleError p events : forall st,
  open_session p st -> Forall (in_session p) events ->
  open_session p (run handleError events st) /\
  streamRef (run handleError events st) = streamRef st /\
  audioContextsRef (run handleError events st) = audioContextsRef st /\
  sent (trace (run handleError events st))
  = sent (trace st) ++ omap packet_of (captured p events) /\
  teardowns (trace (run handleError events st)) = teardowns (trace st).
Proof.
  induction events as [|ev events IH]; intros st Hst Hev.
  - cbn. rewrite app_nil_r. auto.
  - apply Forall_cons in Hev as [Hev Hevs].
    destruct (in_session_step handleError p st ev Hst Hev)
      as (Ho & Hs & Hc & Hsent & Ht).
    destruct (IH (step handleError st ev) Ho Hevs)
      as (Ho' & Hs' & Hc' & Hsent' & Ht').
    cbn [run fold_left]. fold (run handleError events (step handleError st ev)).
    rewrite (captured_cons p ev events), omap_app.
    rewrite Hsent', Hsent, Hs', Hs, Hc', Hc, Ht', Ht, <- app_assoc.
    auto.
Qed.

End LifecycleFacts.

Import LifecycleFacts.

(** X13.  In every reachable state at most one of [isActive] and
    [isConnecting] is set.  So what the button shows is consistent: it is
    disabled exactly when it reads "Connecting...", and it is enabled
    whenever it reads "End Conversation" or "Start Talking Now". *)
Theorem lifecycle_flags_exclusive (handleError : Exn -> AIError)
    (events : list Event) :
  isActive (run handleError events initial)
  && isConnecting (run handleError events initial) = false /\
  (buttonDisabled (run handleError events initial) = true
   <-> buttonLabel (run handleError events initial) = "Connecting..."%string) /\
  (buttonDisabled (run handleError events initial) = false
   <-> buttonLabel (run handleError events initial) = "End Conversation"%string
       \/ buttonLabel (run handleError events initial)
          = "Start Talking Now"%string).
Proof.
  assert (H : exclusive (run handleError events initial))
    by (apply run_exclusive; reflexivity).
  unfold exclusive in H. split; [exact H|].
  unfold buttonDisabled, buttonLabel.
  destruct (isActive (run handleError events initial)),
           (isConnecting (run handleError events initial));
    try discriminate; repeat split; intros; try discriminate; auto;
    repeat match goal with
      | H : _ \/ _ |- _ => destruct H
      end; try discriminate; auto.
Qed.

(** The state after a start that goes through. *)
Lemma toggleSession_started (handleError : Exn -> AIError) (env : StartEnv)
    (stream : list nat) (st : State) :
  isActive st || isConnecting st = false ->
  start_error env = None -> getUserMedia env = Ok stream ->
  toggleSession handleError env st
  = {| isActive := false; isConnecting := true;
       transcription := ""; errorMsg := None;
       sessionPromiseRef := Some (length (promises st));
       audioContextsRef := Some {| input := 16000; output := 24000 |};
       streamRef := Some stream;
       nextStartTimeRef := nextStartTimeRef st; sourcesRef := sourcesRef st;
       promises := promises st ++ [Pending []];
       nextSource := nextSource st;
       trace := trace st ++ key_calls env
                ++ [Connect (length (promises st))] |}.
Proof.
  intros Hidle Herr Hs.
  rewrite (toggleSession_idle _ _ _ Hidle), Herr. cbn zeta.
  rewrite (start_ok env _ stream Herr Hs). cbn.
  apply orb_false_elim in Hidle as [-> _]. reflexivity.
Qed.

(** X14.  A start request in the idle state that goes through leaves the
    component connecting: the transcript and the error message are
    cleared, the microphone stream is held, the two contexts run at 16000
    and 24000 Hz, one new connection promise is pending with nothing
    waiting on it and is the one the component holds, exactly one
    connection was opened, after the key selection was opened if no key
    was selected (which does not stop the start), and the scheduler is
    as it was. *)
Theorem start_goes_through (handleError : Exn -> AIError) (env : StartEnv)
    (stream : list nat) (st : State) :
  isActive st || isConnecting st = false ->
  start_error env = None -> getUserMedia env = Ok stream ->
  toggleSession handleError env st
  = {| isActive := false; isConnecting := true;
       transcription := ""; errorMsg := None;
       sessionPromiseRef := Some (length (promises st));
       audioContextsRef := Some {| input := 16000; output := 24000 |};
       streamRef := Some stream;
       nextStartTimeRef := nextStartTimeRef st; sourcesRef := sourcesRef st;
       promises := promises st ++ [Pending []];
       nextSource := nextSource st;
       trace := trace st ++ key_calls env
                ++ [Connect (length (promises st))] |} /\
  promise_at (length (promises st)) (toggleSession handleError env st)
  = Pending [] /\
  (forall p, (p < length (promises st))%nat ->
             promise_at p (toggleSession handleError env st)
             = promise_at p st).
Proof.
  intros Hidle Herr Hs.
  pose proof (toggleSession_started handleError env stream st Hidle Herr Hs)
    as Heq.
  split; [exact Heq|]. rewrite Heq. unfold promise_at. cbn [promises].
  split.
  - rewrite lookup_app_r by lia. now rewrite Nat.sub_diag.
  - intros p Hp. now rewrite lookup_app_l by exact Hp.
Qed.

Lemma start_goes_through_witness :
  promise_at (length (promises initial))
    (toggleSession plain_error ready_env initial)
  = Pending [].
Proof.
  exact (proj1 (proj2 (start_goes_through plain_error ready_env [0%nat]
                         initial eq_refl eq_refl eq_refl))).
Defined.



(** X16.  When the microphone is granted and an audio context then cannot
    be created, be it the first or the second, the start does not keep the
    microphone: from a torn-down state the only calls made are the
    teardown and one [stop] on every track of the stream just acquired. *)
Theorem microphone_released_when_contexts_fail
    (handleError : Exn -> AIError) (env : StartEnv) (stream : list nat)
    (e : Exn) (st : State) :
  torn_down st ->
  hasSelectedApiKey env = Ok true -> newGoogleGenAI env = Ok tt ->
  getUserMedia env = Ok stream ->
  newInputContext env = Throw e
  \/ (newInputContext env = Ok tt /\ newOutputContext env = Throw e) ->
  trace (toggleSession handleError env st)
  = trace st ++ [CleanupCall] ++ map TrackStop stream /\
  streamRef (toggleSession handleError env st) = None /\
  errorMsg (toggleSession handleError env st) = Some (message (handleError e)).
Proof.
  intros (Ha & Hc & Hr & Hs & Hx & Hsrc & Hn) Hk Hg Hm He.
  assert (Hidle : isActive st || isConnecting st = false)
    by now rewrite Ha, Hc.
  assert (Herr : start_error env = Some e).
  { unfold start_error. rewrite Hk, Hg, Hm.
    destruct He as [He|[Hi He]]; [now rewrite He|now rewrite Hi, He]. }
  rewrite (toggleSession_idle _ _ _ Hidle), Herr. cbn zeta.
  set (st0 := setTranscription ""
                (setErrorMsg None (setIsConnecting true st))).
  assert (Hst : fst (start env st0) = set_streamRef (Some stream) st0).
  { unfold start, contexts. rewrite Hk, Hg, Hm.
    destruct He as [He|[Hi He]]; [now rewrite He|now rewrite Hi, He]. }
  rewrite Hst, cleanup_no_session by exact Hr.
  rewrite release_eq. unfold release_calls.
  cbn [trace streamRef audioContextsRef sourcesRef errorMsg entering
       setErrorMsg set_streamRef setIsConnecting setIsActive call st0
       setTranscription].
  rewrite Hx, Hsrc. cbn [map app].
  rewrite app_nil_r, <- app_assoc. auto.
Qed.

Lemma microphone_released_when_contexts_fail_witness :
  trace
    (toggleSession plain_error
       {| hasSelectedApiKey := Ok true; openSelectKey := Ok tt;
          newGoogleGenAI := Ok tt; getUserMedia := Ok [0%nat; 1%nat];
          newInputContext := Ok tt;
          newOutputContext := Throw (OtherError "no audio device");
          resumeInput := Ok tt; resumeOutput := Ok tt |}
       initial)
  = trace initial ++ [CleanupCall] ++ map TrackStop [0%nat; 1%nat].
Proof.
  apply (microphone_released_when_contexts_fail plain_error
           {| hasSelectedApiKey := Ok true; openSelectKey := Ok tt;
              newGoogleGenAI := Ok tt; getUserMedia := Ok [0%nat; 1%nat];
              newInputContext := Ok tt;
              newOutputContext := Throw (OtherError "no audio device");
              resumeInput := Ok tt; resumeOutput := Ok tt |}
           [0%nat; 1%nat] (OtherError "no audio device") initial).
  - vm_compute. repeat split.
  - reflexivity.
  - reflexivity.
  - reflexivity.
  - right. split; reflexivity.
Defined.

(** X28.  When both contexts have been made and resuming one of them
    fails, the start gives back everything it had acquired: from a
    torn-down state the only calls made are the teardown, one [stop] on
    every track of the stream, and the closing of the two contexts, in this
    order; no connection is opened. *)
Theorem contexts_closed_when_resume_fails
    (handleError : Exn -> AIError) (env : StartEnv) (stream : list nat)
    (e : Exn) (st : State) :
  torn_down st ->
  hasSelectedApiKey env = Ok true -> newGoogleGenAI env = Ok tt ->
  getUserMedia env = Ok stream ->
  newInputContext env = Ok tt -> newOutputContext env = Ok tt ->
  resumeInput env = Throw e
  \/ (resumeInput env = Ok tt /\ resumeOutput env = Throw e) ->
  trace (toggleSession handleError env st)
  = trace st ++ [CleanupCall] ++ map TrackStop stream
    ++ [ContextClose 16000; ContextClose 24000] /\
  torn_down (toggleSession handleError env st) /\
  errorMsg (toggleSession handleError env st) = Some (message (handleError e)).
Proof.
  intros (Ha & Hc & Hr & Hs & Hx & Hsrc & Hn) Hk Hg Hm Hi Ho He.
  assert (Hidle : isActive st || isConnecting st = false)
    by now rewrite Ha, Hc.
  assert (Herr : start_error env = Some e).
  { unfold start_error. rewrite Hk, Hg, Hm, Hi, Ho.
    destruct He as [He|[Hri He]]; [now rewrite He|now rewrite Hri, He]. }
  rewrite (toggleSession_idle _ _ _ Hidle), Herr. cbn zeta.
  set (st0 := setTranscription ""
                (setErrorMsg None (setIsConnecting true st))).
  assert (Hst : fst (start env st0)
                = set_audioContextsRef
                    (Some {| input := 16000; output := 24000 |})
                    (set_streamRef (Some stream) st0)).
  { unfold start, contexts. rewrite Hk, Hg, Hm, Hi, Ho.
    destruct He as [He|[Hri He]]; [now rewrite He|now rewrite Hri, He]. }
  rewrite Hst, cleanup_no_session by exact Hr.
  rewrite release_eq. unfold release_calls, torn_down.
  cbn [trace streamRef audioContextsRef sourcesRef errorMsg entering
       setErrorMsg set_streamRef set_audioContextsRef setIsConnecting
       setIsActive call st0 setTranscription isActive isConnecting
       sessionPromiseRef nextStartTimeRef input output].
  rewrite Hsrc. cbn [map app].
  rewrite <- !app_assoc. cbn [app]. auto 10.
Qed.

Lemma contexts_closed_when_resume_fails_witness :
  trace
    (toggleSession plain_error
       {| hasSelectedApiKey := Ok true; openSelectKey := Ok tt;
          newGoogleGenAI := Ok tt; getUserMedia := Ok [0%nat; 1%nat];
          newInputContext := Ok tt; newOutputContext := Ok tt;
          resumeInput := Throw (OtherError "not allowed to start");
          resumeOutput := Ok tt |}
       initial)
  = trace initial ++ [CleanupCall] ++ map TrackStop [0%nat; 1%nat]
    ++ [ContextClose 16000; ContextClose 24000].
Proof.
  apply (contexts_closed_when_resume_fails plain_error
           {| hasSelectedApiKey := Ok true; openSelectKey := Ok tt;
              newGoogleGenAI := Ok tt; getUserMedia := Ok [0%nat; 1%nat];
              newInputContext := Ok tt; newOutputContext := Ok tt;
              resumeInput := Throw (OtherError "not allowed to start");
              resumeOutput := Ok tt |}
           [0%nat; 1%nat] (OtherError "not allowed to start") initial).
  - vm_compute. repeat split.
  - reflexivity.
  - reflexivity.
  - reflexivity.
  - reflexivity.
  - reflexivity.
  - left. reflexivity.
Defined.

(** X17.  A whole session.  From a state in which a session is open,
    whatever messages arrive, sources end and blocks are captured, a stop
    request tears the session down: the lifecycle is idle, the refs are
    null, the set is empty and the cursor is 0; the session is closed
    once, every track is stopped, both contexts are closed and the sources
    still registered are stopped, in this order; every block captured
    during the session was sent, in order, and nothing was torn down
    before the stop. *)
Theorem session_stop_releases_everything (handleError : Exn -> AIError)
    (env : StartEnv) (events : list Event) (p : nat) (tracks : list nat)
    (ctxs : AudioContexts) (st : State) :
  open_session p st -> streamRef st = Some tracks ->
  audioContextsRef st = Some ctxs -> Forall (in_session p) events ->
  torn_down (toggleSession handleError env (run handleError events st)) /\
  trace (toggleSession handleError env (run handleError events st))
  = trace (run handleError events st)
    ++ [CleanupCall; SessionClose p]
    ++ map TrackStop tracks
    ++ [ContextClose (input ctxs); ContextClose (output ctxs)]
    ++ map (fun s => SourceStop (source_id s))
         (sourcesRef (run handleError events st)) /\
  sent (trace (toggleSession handleError env (run handleError events st)))
  = sent (trace st) ++ omap packet_of (captured p events) /\
  teardowns (trace (toggleSession handleError env (run handleError events st)))
  = S (teardowns (trace st)).
Proof.
  intros Hopen Hs Hc Hev.
  destruct (in_session_run handleError p events st Hopen Hev)
    as ((Ha & Hr & Hp) & Hs' & Hc' & Hsent & Ht).
  set (st1 := run handleError events st) in *.
  assert (Hlive : isActive st1 || isConnecting st1 = true) by now rewrite Ha.
  rewrite (toggleSession_live _ _ _ Hlive).
  assert (Hcc : can_complete st1).
  { unfold can_complete. rewrite Hr, Hp. exact I. }
  split; [now apply cleanup_can_complete|].
  split; [|split].
  - rewrite (cleanup_settled st1 p Hr) by (rewrite Hp; exact I).
    rewrite Hp, release_eq. unfold release_calls.
    cbn [trace streamRef audioContextsRef sourcesRef close_session entering
         call setIsActive setIsConnecting].
    rewrite Hs', Hs, Hc', Hc. now rewrite <- !app_assoc.
  - now rewrite cleanup_sent.
  - now rewrite cleanup_teardowns, Ht.
Qed.

Lemma session_stop_releases_everything_witness :
  torn_down
    (toggleSession plain_error ready_env
       (run plain_error
          [EvMessage (stdAudioContext 5) (chunk_message "AAAAAAAA");
           EvAudioProcess 0 half_scale_block; EvEnded 0;
           EvMessage (stdAudioContext 6) (chunk_message "AAAA")]
          (settle 0 Fulfilled (onopen connecting)))).
Proof.
  apply (session_stop_releases_everything plain_error ready_env
           [EvMessage (stdAudioContext 5) (chunk_message "AAAAAAAA");
            EvAudioProcess 0 half_scale_block; EvEnded 0;
            EvMessage (stdAudioContext 6) (chunk_message "AAAA")]
           0%nat [0%nat] {| input := 16000; output := 24000 |}
           (settle 0 Fulfilled (onopen connecting))).
  - vm_compute. repeat split.
  - reflexivity.
  - reflexivity.
  - repeat constructor.
Defined.

(** ** The chat pane *)

(** ** Teardown and the connection promise *)

Module TeardownFacts.
Import Codec Live LiveFacts Session SessionFacts MessageFacts LifecycleFacts.

(** *** Handlers only add to the calls made *)




Lemma cleanup_extends st : exists tail, trace (cleanup st) = trace st ++ tail.
Proof. destruct (cleanup_trace st) as (tail & H & _). eauto. Qed.


(** *** While a teardown waits *)














(** *** When the promise settles *)






(** *** Sends that wait on the promise *)



End TeardownFacts.

Import TeardownFacts.

(** ** C8: what the destruction of a session resets *)




(** ** C9: the toggle *)




(** ** A teardown overtaken by the next start *)


Module ChatFacts.
Import Chat.

Lemma filter_other_twice (botMessageId : MsgId) (l : list ChatMessage) m :
  id m = botMessageId ->
  filter (fun m => id m <> botMessageId)
         (filter (fun m => id m <> botMessageId) l ++ [m])
  = filter (fun m => id m <> botMessageId) l.
Proof.
  intros Hm. rewrite filter_app.
  rewrite (Base64Facts.filter_keep_all _ (filter _ l)).
  - rewrite filter_cons_False, filter_nil by (intros H; now apply H).
    apply app_nil_r.
  - apply Forall_forall. intros x Hx.
    now apply list_elem_of_filter in Hx as [Hx _].
Qed.

(** The loop, after at least one chunk. *)
Lemma loop_after_chunks (botMessageId : MsgId) chunks : forall arrival l,
  let l' := fold_left (on_chunk botMessageId) (arrival :: chunks) l in
  fullResponse l' = fullResponse l ++ reply_text (arrival :: chunks) /\
  soundPlayed l' = true /\
  messages (state l')
  = filter (fun m => id m <> botMessageId) (messages (state l))
    ++ [{| id := botMessageId; role := assistant;
           content := fullResponse l ++ reply_text (arrival :: chunks);
           timestamp := fst (List.last chunks arrival) |}] /\
  isTyping (state l') = false /\
  effects (state l')
  = effects (state l)
    ++ (if soundPlayed l then [] else [PlayChatSound receive]) /\
  input (state l') = input (state l) /\
  isAutoSpeech (state l') = isAutoSpeech (state l) /\
  lastError (state l') = lastError (state l) /\
  feedbackMsgId (state l') = feedbackMsgId (state l).
Proof.
  induction chunks as [|next chunks IH]; intros [now chunk] l.
  - cbn [fold_left List.last fst reply_text flat_map snd].
    rewrite app_nil_r. unfold on_chunk. cbn.
    destruct (soundPlayed l), (groundingChunks chunk); cbn;
      rewrite ?app_nil_r; repeat split; reflexivity.
  - cbn zeta in *.
    change (fold_left (on_chunk botMessageId) ((now, chunk) :: next :: chunks) l)
      with (fold_left (on_chunk botMessageId) (next :: chunks)
              (on_chunk botMessageId l (now, chunk))).
    destruct (IH next (on_chunk botMessageId l (now, chunk)))
      as (H1 & H2 & H3 & H4 & H5 & H6 & H7 & H8 & H9).
    rewrite H1, H2, H3, H4, H5, H6, H7, H8, H9.
    assert (Hfull : fullResponse (on_chunk botMessageId l (now, chunk))
                    = fullResponse l ++ reply_text [(now, chunk)]).
    { cbn. now rewrite app_nil_r. }
    assert (Hmsgs : messages (state (on_chunk botMessageId l (now, chunk)))
                    = filter (fun m => id m <> botMessageId) (messages (state l))
                      ++ [{| id := botMessageId; role := assistant;
                             content := fullResponse l ++ reply_text [(now, chunk)];
                             timestamp := now |}]).
    { unfold on_chunk. cbn. rewrite app_nil_r.
      destruct (soundPlayed l), (groundingChunks chunk); reflexivity. }
    rewrite Hfull, Hmsgs, filter_other_twice by reflexivity.
    assert (Hrt : forall a rest, reply_text (a :: rest)
                                 = reply_text [a] ++ reply_text rest).
    { intros a rest. cbn. now rewrite app_nil_r. }
    rewrite (Hrt (now, chunk) (next :: chunks)).
    rewrite <- !app_assoc.
    assert (Hlast : List.last (next :: chunks) (now, chunk)
                    = List.last chunks next).
    { clear. revert next. induction chunks as [|c chunks IH]; intros next;
        [reflexivity|]. cbn in *. destruct chunks; [reflexivity|]. apply IH. }
    rewrite Hlast.
    split; [reflexivity|]. split; [reflexivity|]. split; [reflexivity|].
    split; [reflexivity|]. split.
    + unfold on_chunk. cbn.
      destruct (soundPlayed l), (groundingChunks chunk); cbn;
        rewrite ?app_nil_r; reflexivity.
    + unfold on_chunk. cbn.
      destruct (soundPlayed l), (groundingChunks chunk); cbn; auto.
Qed.

Lemma filter_drop_all {A} (P : A -> Prop) `{!forall x, Decision (P x)} l :
  Forall (fun x => ~ P x) l -> filter P l = [].
Proof.
  induction 1 as [|x l Hx _ IH]; [reflexivity|].
  rewrite filter_cons_False by exact Hx. exact IH.
Qed.

(** The messages after a send that received at least one chunk. *)
Lemma handleSend_messages (handleError : Exn -> AIError) (env : SendEnv)
    (text : jsstring) (arrival : Z * Chunk) (chunks : list (Z * Chunk))
    (ending : option Exn) (st : State) :
  blank text = false ->
  reply env = Ok (arrival :: chunks, ending) ->
  messages (handleSend handleError env text st)
  = filter (fun m => id m <> TimeId (now_bot env + 1))
      (messages st
       ++ [{| id := TimeId (now_user env); role := user; content := text;
              timestamp := now_user env |}])
    ++ [{| id := TimeId (now_bot env + 1); role := assistant;
           content := reply_text (arrival :: chunks);
           timestamp := fst (List.last chunks arrival) |}].
Proof.
  intros Hb Hr.
  unfold handleSend. rewrite Hb, Hr.
  match goal with
  | |- context [fold_left (on_chunk ?b) (arrival :: chunks) ?l] =>
      destruct (loop_after_chunks b chunks arrival l)
        as (_ & _ & H3 & _)
  end.
  cbn zeta in H3.
  destruct ending as [e|]; cbn [failed setLastError setIsTyping messages].
  - exact H3.
  - match goal with
    | |- context [if ?c then _ else _] => destruct c
    end; exact H3.
Qed.

End ChatFacts.

Import Chat ChatFacts.

(** X19.  While a reply streams in, the list of messages holds exactly one
    message for it: after a send that received at least one chunk, whether
    the stream then ended or failed, the list is the earlier messages that
    do not carry the reply's id, the user's message, and last the reply
    with all the text received so far. *)
Theorem reply_is_one_message (handleError : Exn -> AIError) (env : SendEnv)
    (text : jsstring) (arrival : Z * Chunk) (chunks : list (Z * Chunk))
    (ending : option Exn) (st : State) :
  blank text = false ->
  reply env = Ok (arrival :: chunks, ending) ->
  messages (handleSend handleError env text st)
  = filter (fun m => id m <> TimeId (now_bot env + 1))
      (messages st
       ++ [{| id := TimeId (now_user env); role := user; content := text;
              timestamp := now_user env |}])
    ++ [{| id := TimeId (now_bot env + 1); role := assistant;
           content := reply_text (arrival :: chunks);
           timestamp := fst (List.last chunks arrival) |}] /\
  length (filter (fun m => id m = TimeId (now_bot env + 1))
            (messages (handleSend handleError env text st))) = 1%nat.
Proof.
  intros Hb Hr.
  pose proof (handleSend_messages handleError env text arrival chunks ending
                st Hb Hr) as Hm.
  split; [exact Hm|]. rewrite Hm, filter_app.
  rewrite filter_cons_True, filter_nil by reflexivity.
  rewrite length_app. cbn [length].
  rewrite filter_drop_all; [reflexivity|].
  apply Forall_forall. intros m Hin.
  now apply list_elem_of_filter in Hin as [Hne _].
Qed.

Lemma reply_is_one_message_witness :
  length
    (filter (fun m => id m = TimeId (1000 + 1))
       (messages
          (handleSend (fun _ => {| type := "network"; message := "failed";
                                   isRetryable := true |})
             {| now_user := 1000; now_bot := 1000;
                reply := Ok ([(1010, {| text := Some (js "Nama");
                                        groundingChunks := None |});
                              (1020, {| text := Some (js "ste");
                                        groundingChunks := None |})],
                             None) |}
             (js "hello")
             {| messages := [{| id := TimeId 1001; role := assistant;
                                content := js "stale"; timestamp := 1 |}];
                input := js "hello"; isTyping := false;
                isAutoSpeech := false; groundingUrls := [];
                lastError := None; feedbackRating := None;
                feedbackComment := []; isFeedbackSubmitted := false;
                feedbackMsgId := None; effects := [] |})))
  = 1%nat.
Proof.
  apply (reply_is_one_message
           (fun _ => {| type := "network"; message := "failed";
                        isRetryable := true |})
           {| now_user := 1000; now_bot := 1000;
              reply := Ok ([(1010, {| text := Some (js "Nama");
                                      groundingChunks := None |});
                            (1020, {| text := Some (js "ste");
                                      groundingChunks := None |})],
                           None) |}
           (js "hello")
           (1010, {| text := Some (js "Nama"); groundingChunks := None |})
           [(1020, {| text := Some (js "ste"); groundingChunks := None |})]
           None).
  - reflexivity.
  - reflexivity.
Defined.

(** X20.  A send that streams to its end.  When the text is not blank, the
    clock does not run backwards, no earlier message carries the reply's
    id and the stream delivers at least one chunk and ends: the list of
    messages grows by the user's message and the reply whose content is
    the texts of the chunks in order; the input is emptied, the typing
    mark is off, no error is shown, the feedback pane is offered for this
    reply; the send sound and the receive sound are each played once, and
    the reply is read aloud exactly when auto-read is on and the reply is
    not empty. *)
Theorem send_streams_to_the_end (handleError : Exn -> AIError)
    (env : SendEnv) (text : jsstring) (arrival : Z * Chunk)
    (chunks : list (Z * Chunk)) (st : State) :
  blank text = false ->
  reply env = Ok (arrival :: chunks, None) ->
  now_user env <= now_bot env ->
  Forall (fun m => id m <> TimeId (now_bot env + 1)) (messages st) ->
  messages (handleSend handleError env text st)
  = messages st
    ++ [{| id := TimeId (now_user env); role := user; content := text;
           timestamp := now_user env |};
        {| id := TimeId (now_bot env + 1); role := assistant;
           content := reply_text (arrival :: chunks);
           timestamp := fst (List.last chunks arrival) |}] /\
  input (handleSend handleError env text st) = [] /\
  isTyping (handleSend handleError env text st) = false /\
  lastError (handleSend handleError env text st) = None /\
  feedbackMsgId (handleSend handleError env text st)
  = Some (TimeId (now_bot env + 1)) /\
  feedbackShown (handleSend handleError env text st) = true /\
  effects (handleSend handleError env text st)
  = effects st
    ++ [PlayChatSound send; SendMessageStream text; PlayChatSound receive]
    ++ (if isAutoSpeech st && truthy (Some (reply_text (arrival :: chunks)))
        then [GenerateSpeech (reply_text (arrival :: chunks))] else []).
Proof.
  intros Hb Hr Hclock Hfresh.
  unfold feedbackShown, handleSend. rewrite Hb, Hr.
  match goal with
  | |- context [fold_left (on_chunk ?b) (arrival :: chunks) ?l] =>
      pose proof (loop_after_chunks b chunks arrival l) as H;
      set (l' := fold_left (on_chunk b) (arrival :: chunks) l) in *
  end.
  clearbody l'. cbv zeta in H.
  destruct H as (H1 & H2 & H3 & H4 & H5 & H6 & H7 & H8 & H9).
  cbn [state fullResponse soundPlayed messages effects input isAutoSpeech
       lastError feedbackMsgId effect app] in H1, H3, H5, H6, H7, H8, H9.
  rewrite filter_app, (Base64Facts.filter_keep_all _ (messages st)) in H3
    by exact Hfresh.
  rewrite filter_cons_True, filter_nil in H3
    by (cbn; intros E; injection E; lia).
  rewrite <- app_assoc in H3. cbn [app] in H3.
  rewrite H1 in *. rewrite H7.
  assert (Hfin : forall s : State,
    messages s = messages (state l') -> input s = input (state l') ->
    isTyping s = isTyping (state l') -> lastError s = lastError (state l') ->
    feedbackMsgId s = Some (TimeId (now_bot env + 1)) ->
    effects s
    = effects st
      ++ [PlayChatSound send; SendMessageStream text; PlayChatSound receive]
      ++ (if isAutoSpeech st && truthy (Some (reply_text (arrival :: chunks)))
          then [GenerateSpeech (reply_text (arrival :: chunks))] else []) ->
    messages s
    = messages st
      ++ [{| id := TimeId (now_user env); role := user; content := text;
             timestamp := now_user env |};
          {| id := TimeId (now_bot env + 1); role := assistant;
             content := reply_text (arrival :: chunks);
             timestamp := fst (List.last chunks arrival) |}] /\
    input s = [] /\ isTyping s = false /\ lastError s = None /\
    feedbackMsgId s = Some (TimeId (now_bot env + 1)) /\
    match feedbackMsgId s, last (messages s) with
    | Some botMessageId, Some m => bool_decide (id m = botMessageId)
    | _, _ => false
    end = true /\
    effects s
    = effects st
      ++ [PlayChatSound send; SendMessageStream text; PlayChatSound receive]
      ++ (if isAutoSpeech st && truthy (Some (reply_text (arrival :: chunks)))
          then [GenerateSpeech (reply_text (arrival :: chunks))] else [])).
  { intros s E1 E2 E3 E4 E5 E6.
    rewrite E1, E2, E3, E4, E5, E6, H3, H4, H6, H8.
    repeat split; try reflexivity.
    change (messages st ++ [?a; ?b]) with (messages st ++ [a] ++ [b]).
    rewrite app_assoc, last_snoc. cbn. now rewrite bool_decide_true. }
  destruct (isAutoSpeech st && truthy (Some (reply_text (arrival :: chunks))));
    apply Hfin; try reflexivity; cbn; rewrite H5; cbn;
    rewrite <- ?app_assoc; reflexivity.
Qed.

Lemma send_streams_to_the_end_witness :
  isTyping
    (handleSend (fun _ => {| type := "network"; message := "failed";
                             isRetryable := true |})
       {| now_user := 1000; now_bot := 1000;
          reply := Ok ([(1010, {| text := Some (js "Namaste");
                                  groundingChunks := None |})], None) |}
       (js "hello")
       {| messages := [{| id := InitialId; role := assistant;
                          content := js "Namaste!"; timestamp := 1 |}];
          input := js "hello"; isTyping := false; isAutoSpeech := true;
          groundingUrls := []; lastError := None; feedbackRating := None;
          feedbackComment := []; isFeedbackSubmitted := false;
          feedbackMsgId := None; effects := [] |})
  = false.
Proof.
  apply (send_streams_to_the_end
           (fun _ => {| type := "network"; message := "failed";
                        isRetryable := true |})
           {| now_user := 1000; now_bot := 1000;
              reply := Ok ([(1010, {| text := Some (js "Namaste");
                                      groundingChunks := None |})], None) |}
           (js "hello")
           (1010, {| text := Some (js "Namaste"); groundingChunks := None |})
           []).
  - reflexivity.
  - reflexivity.
  - cbn. lia.
  - repeat constructor; discriminate.
Defined.

(** X21.  A reply stream that ends without a single chunk leaves the
    typing mark on: nothing in [handleSend] turns it off except a chunk or
    a failure, so the form's button stays disabled; the user's message is
    the last one and the feedback pane, though armed for the reply, is not
    shown. *)
Theorem empty_reply_keeps_typing (handleError : Exn -> AIError)
    (env : SendEnv) (text : jsstring) (isRecording : bool) (st : State) :
  blank text = false -> reply env = Ok ([], None) ->
  now_user env <= now_bot env ->
  isTyping (handleSend handleError env text st) = true /\
  submitDisabled isRecording (handleSend handleError env text st) = true /\
  messages (handleSend handleError env text st)
  = messages st
    ++ [{| id := TimeId (now_user env); role := user; content := text;
           timestamp := now_user env |}] /\
  feedbackMsgId (handleSend handleError env text st)
  = Some (TimeId (now_bot env + 1)) /\
  feedbackShown (handleSend handleError env text st) = false /\
  lastError (handleSend handleError env text st) = None.
Proof.
  intros Hb Hr Hclock. unfold feedbackShown, submitDisabled, handleSend.
  rewrite Hb, Hr. cbn [fold_left state fullResponse truthy].
  rewrite andb_false_r. cbn.
  rewrite last_snoc. cbn.
  rewrite bool_decide_false by (intros E; injection E; lia).
  repeat split; reflexivity.
Qed.

Lemma empty_reply_keeps_typing_witness :
  isTyping
    (handleSend (fun _ => {| type := "network"; message := "failed";
                             isRetryable := true |})
       {| now_user := 1000; now_bot := 1000; reply := Ok ([], None) |}
       (js "hello")
       {| messages := []; input := js "hello"; isTyping := false;
          isAutoSpeech := true; groundingUrls := []; lastError := None;
          feedbackRating := None; feedbackComment := [];
          isFeedbackSubmitted := false; feedbackMsgId := None;
          effects := [] |})
  = true.
Proof.
  apply (empty_reply_keeps_typing
           (fun _ => {| type := "network"; message := "failed";
                        isRetryable := true |})
           {| now_user := 1000; now_bot := 1000; reply := Ok ([], None) |}
           (js "hello") false).
  - reflexivity.
  - reflexivity.
  - cbn. lia.
Defined.

(** X22.  A send that fails turns the typing mark off, shows the error and
    does not offer feedback.  What Try Again then sends is the content of
    the last message: the user's text when the failure came before the
    first chunk, but the part of the reply received so far when the stream
    failed after a chunk. *)
Theorem try_again_sends_last_message (handleError : Exn -> AIError)
    (env env' : SendEnv) (text : jsstring) (chunks : list (Z * Chunk))
    (e : Exn) (st : State) :
  blank text = false ->
  reply env = Throw e \/ reply env = Ok (chunks, Some e) ->
  isTyping (handleSend handleError env text st) = false /\
  lastError (handleSend handleError env text st) = Some (handleError e) /\
  feedbackMsgId (handleSend handleError env text st) = None /\
  tryAgain handleError env' (handleSend handleError env text st)
  = handleSend handleError env'
      (match reply env with
       | Ok (_ :: _, _) => reply_text chunks
       | _ => text
       end)
      (handleSend handleError env text st).
Proof.
  intros Hb Hr. unfold tryAgain.
  destruct Hr as [Hr|Hr].
  - unfold handleSend. rewrite Hb, Hr. cbn. rewrite last_snoc. auto.
  - destruct chunks as [|arrival chunks].
    + unfold handleSend. rewrite Hb, Hr. cbn. rewrite last_snoc. auto.
    + pose proof (handleSend_messages handleError env text arrival chunks
                    (Some e) st Hb Hr) as Hm.
      rewrite Hm, last_snoc. cbn [content]. rewrite Hr.
      unfold handleSend. rewrite Hb, Hr.
      match goal with
      | |- context [fold_left (on_chunk ?b) (arrival :: chunks) ?l] =>
          destruct (loop_after_chunks b chunks arrival l)
            as (_ & _ & _ & _ & _ & _ & _ & _ & H9)
      end.
      cbn zeta in H9. cbn in H9. cbn. rewrite H9. auto.
Qed.

Lemma try_again_sends_last_message_witness :
  tryAgain (fun _ => {| type := "network"; message := "failed";
                        isRetryable := true |})
    {| now_user := 2000; now_bot := 2000; reply := Ok ([], None) |}
    (handleSend (fun _ => {| type := "network"; message := "failed";
                             isRetryable := true |})
       {| now_user := 1000; now_bot := 1000;
          reply := Ok ([(1010, {| text := Some (js "Nama");
                                  groundingChunks := None |})],
                       Some (OtherError "stream closed")) |}
       (js "hello")
       {| messages := []; input := js "hello"; isTyping := false;
          isAutoSpeech := false; groundingUrls := []; lastError := None;
          feedbackRating := None; feedbackComment := [];
          isFeedbackSubmitted := false; feedbackMsgId := None;
          effects := [] |})
  = handleSend (fun _ => {| type := "network"; message := "failed";
                            isRetryable := true |})
      {| now_user := 2000; now_bot := 2000; reply := Ok ([], None) |}
      (js "Nama")
      (handleSend (fun _ => {| type := "network"; message := "failed";
                               isRetryable := true |})
         {| now_user := 1000; now_bot := 1000;
            reply := Ok ([(1010, {| text := Some (js "Nama");
                                    groundingChunks := None |})],
                         Some (OtherError "stream closed")) |}
         (js "hello")
         {| messages := []; input := js "hello"; isTyping := false;
            isAutoSpeech := false; groundingUrls := []; lastError := None;
            feedbackRating := None; feedbackComment := [];
            isFeedbackSubmitted := false; feedbackMsgId := None;
            effects := [] |}).
Proof.
  exact (proj2 (proj2 (proj2
    (try_again_sends_last_message
       (fun _ => {| type := "network"; message := "failed";
                    isRetryable := true |})
       {| now_user := 1000; now_bot := 1000;
          reply := Ok ([(1010, {| text := Some (js "Nama");
                                  groundingChunks := None |})],
                       Some (OtherError "stream closed")) |}
       {| now_user := 2000; now_bot := 2000; reply := Ok ([], None) |}
       (js "hello")
       [(1010, {| text := Some (js "Nama"); groundingChunks := None |})]
       (OtherError "stream closed")
       {| messages := []; input := js "hello"; isTyping := false;
          isAutoSpeech := false; groundingUrls := []; lastError := None;
          feedbackRating := None; feedbackComment := [];
          isFeedbackSubmitted := false; feedbackMsgId := None;
          effects := [] |}
       eq_refl (or_intror eq_refl))))).
Defined.

(** X23.  The references shown under a reply: every one has a link that is
    not empty and a title that is not empty (the title falls back to
    "Reference"), there are no more of them than grounding chunks, and a
    chunk whose map and web entries both lack a link gives none. *)
Theorem references_have_links (grounding : list GroundingChunk) :
  Forall (fun u => truthy (url_uri u) = true /\ truthy (url_title u) = true)
         (references grounding) /\
  (length (references grounding) <= length grounding)%nat /\
  length (references grounding)
  = length (List.filter
              (fun c => truthy (field (maps c) uri)
                        || truthy (field (web c) uri)) grounding).
Proof.
  assert (Hu : forall a b, truthy (or_else a b) = truthy a || truthy b).
  { intros a b. unfold or_else. destruct (truthy a) eqn:E; [exact E|reflexivity]. }
  unfold references. split; [|split].
  - apply Forall_forall. intros u Hu'.
    apply list_elem_of_In, filter_In in Hu' as [Hin Huri].
    split; [exact Huri|].
    apply in_map_iff in Hin as (c & <- & _). cbn [url_title].
    unfold or_else at 1.
    destruct (truthy (or_else (field (maps c) title) (field (web c) title)))
      eqn:E; [exact E|reflexivity].
  - etransitivity; [apply List.filter_length_le|]. now rewrite length_map.
  - induction grounding as [|c g IH]; [reflexivity|].
    cbn [map List.filter url_uri]. rewrite Hu.
    destruct (truthy (field (maps c) uri) || truthy (field (web c) uri));
      cbn [length]; now rewrite IH.
Qed.

Module MediaFacts.
Import Media.

Lemma split_no_separator (sep : Z) (s : jsstring) :
  ~ In sep s -> split sep s = [s].
Proof.
  induction s as [|c s IH]; intros Hs; [reflexivity|].
  cbn [split]. destruct (Z.eqb_spec c sep) as [->|_].
  - exfalso. apply Hs. now left.
  - rewrite IH; [reflexivity|]. intros H. apply Hs. now right.
Qed.

Lemma split_at_separator (sep : Z) (header rest : jsstring) :
  ~ In sep header ->
  split sep (header ++ sep :: rest) = header :: split sep rest.
Proof.
  induction header as [|c header IH]; intros Hh.
  - cbn [app split]. now rewrite Z.eqb_refl.
  - cbn [app split]. destruct (Z.eqb_spec c sep) as [->|_].
    + exfalso. apply Hh. now left.
    + rewrite IH; [reflexivity|]. intros H. apply Hh. now right.
Qed.

(** A click ends with the loading mark off, or hangs with nothing shown. *)
Lemma step_results (handleError : Exn -> AIError) (ev : Event) (st : State) :
  resultUrl st = None \/ analysis st = None ->
  resultUrl (step handleError ev st) = None
  \/ analysis (step handleError ev st) = None.
Proof.
  intros Hst. destruct ev as [tab|chosen|value|env]; cbn; try exact Hst.
  destruct (buttonDisabled st); [exact Hst|].
  unfold handleEditImage, handleAnalyze, wrapAiTask.
  destruct (activeTab st); cbn;
    (destruct (file st) as [f|]; cbn; [|exact Hst]).
  - destruct (dataURL f); cbn; [|now left].
    destruct (editImage env); cbn; [now right|].
    destruct (String.eqb _ _); cbn; [|now left].
    destruct (openSelectKey env); cbn; now left.
  - destruct (analyzeMedia env); cbn; [now left|].
    destruct (String.eqb _ _); cbn; [|now left].
    destruct (openSelectKey env); cbn; now left.
Qed.

Lemma step_stuck (handleError : Exn -> AIError) (ev : Event) (st : State) :
  loading st = true ->
  loading (step handleError ev st) = true /\
  effects (step handleError ev st) = effects st /\
  resultUrl (step handleError ev st) = resultUrl st /\
  analysis (step handleError ev st) = analysis st.
Proof.
  intros Hl. destruct ev as [tab|chosen|value|env]; cbn; auto.
  unfold buttonDisabled. rewrite Hl. cbn. auto.
Qed.

End MediaFacts.

Import Media MediaFacts.

(** X24.  The result pane never holds an image and an analysis at once:
    whatever the user does from the start, one of [resultUrl] and
    [analysis] is empty, so the image the pane prefers never hides a later
    analysis. *)
Theorem results_never_both (handleError : Exn -> AIError)
    (evs : list Event) :
  resultUrl (Media.run handleError evs Media.initial) = None
  \/ analysis (Media.run handleError evs Media.initial) = None.
Proof.
  unfold Media.run.
  assert (H : resultUrl Media.initial = None
              \/ analysis Media.initial = None) by now left.
  revert H. generalize Media.initial.
  induction evs as [|ev evs IH]; intros st Hst; [exact Hst|].
  cbn [fold_left]. apply IH, step_results, Hst.
Qed.

(** X25.  A task that fails clears the pane.  When the button is enabled
    and the service call of the active tab throws, the click leaves no
    image and no analysis (the pane shows the placeholder, whatever it
    showed before), the error of [handleError], the loading mark off, and
    the key dialogue is opened exactly when the error is of type key. *)
Theorem failed_task_clears_pane (handleError : Exn -> AIError)
    (env : TaskEnv) (e : Exn) (st : State) :
  buttonDisabled st = false ->
  match activeTab st with
  | edit => (exists f data, file st = Some f /\ dataURL f = Some data)
            /\ editImage env = Throw e
  | analyze => analyzeMedia env = Throw e
  end ->
  let st' := Media.step handleError (EvClick env) st in
  pane st' = Placeholder /\
  resultUrl st' = None /\ analysis st' = None /\
  error st' = Some (handleError e) /\
  loading st' = false /\
  (In OpenSelectKey (skipn (length (effects st)) (effects st'))
   <-> Chat.type (handleError e) = "key"%string).
Proof.
  intros Hb Hthrow. cbn zeta. unfold pane. cbn [Media.step]. rewrite Hb.
  unfold buttonDisabled in Hb. apply orb_false_elim in Hb as [Hl Hf].
  apply negb_false_iff, bool_decide_eq_true in Hf. destruct Hf as [f Hf].
  assert (Hskip : forall (l t : list MediaEffect),
            skipn (length l) (l ++ t) = t).
  { intros l t. rewrite skipn_app, skipn_all, Nat.sub_diag. reflexivity. }
  unfold handleEditImage, handleAnalyze, wrapAiTask.
  destruct (activeTab st).
  - destruct Hthrow as [(f' & data & Hf' & Hdata) Hthrow].
    rewrite Hf in Hf'. injection Hf' as <-.
    cbn. rewrite Hf. cbn. rewrite Hdata, Hthrow. cbn.
    destruct (String.eqb_spec (Chat.type (handleError e)) "key") as [Hk|Hk].
    + destruct (openSelectKey env); cbn; rewrite <- app_assoc, Hskip;
        repeat split; auto; intros _; cbn; auto.
    + cbn. rewrite Hskip. repeat split; auto.
      * intros [H|[]]. discriminate.
      * intros H. contradiction.
  - cbn. rewrite Hf. cbn. rewrite Hthrow. cbn.
    destruct (String.eqb_spec (Chat.type (handleError e)) "key") as [Hk|Hk].
    + destruct (openSelectKey env); cbn; rewrite <- app_assoc, Hskip;
        repeat split; auto; intros _; cbn; auto.
    + cbn. rewrite Hskip. repeat split; auto.
      * intros [H|[]]. discriminate.
      * intros H. contradiction.
Qed.

Lemma failed_task_clears_pane_witness :
  pane (Media.step
          (fun _ => {| Chat.type := "key"; Chat.message := "no key";
                       Chat.isRetryable := false |})
          (EvClick {| editImage := Throw (OtherError "denied");
                      analyzeMedia := Throw (OtherError "denied");
                      openSelectKey := Ok tt |})
          {| activeTab := analyze; loading := false; prompt := [];
             resultUrl := Some (Chat.js "blob:1"); analysis := None;
             file := Some {| file_type := Chat.js "image/png";
                             dataURL := None |};
             error := None; effects := [] |})
  = Placeholder.
Proof.
  exact (proj1
    (failed_task_clears_pane
       (fun _ => {| Chat.type := "key"; Chat.message := "no key";
                    Chat.isRetryable := false |})
       {| editImage := Throw (OtherError "denied");
          analyzeMedia := Throw (OtherError "denied");
          openSelectKey := Ok tt |}
       (OtherError "denied")
       {| activeTab := analyze; loading := false; prompt := [];
          resultUrl := Some (Chat.js "blob:1"); analysis := None;
          file := Some {| file_type := Chat.js "image/png";
                          dataURL := None |};
          error := None; effects := [] |}
       eq_refl eq_refl)).
Defined.

(** X26.  A file that cannot be read blocks the centre.  On the edit tab,
    when the reader never calls [onload], the click leaves the loading
    mark on, with the earlier result cleared; from then on the button is
    disabled and nothing the user does turns the mark off or reaches the
    service again. *)
Theorem unreadable_file_blocks_centre (handleError : Exn -> AIError)
    (env : TaskEnv) (f : File) (st : State) (evs : list Event) :
  buttonDisabled st = false -> activeTab st = edit ->
  file st = Some f -> dataURL f = None ->
  let st' := Media.step handleError (EvClick env) st in
  loading st' = true /\ effects st' = effects st /\
  loading (Media.run handleError evs st') = true /\
  buttonDisabled (Media.run handleError evs st') = true /\
  effects (Media.run handleError evs st') = effects st /\
  pane (Media.run handleError evs st') = Placeholder.
Proof.
  intros Hb Ht Hf Hd. cbn zeta. cbn [Media.step]. rewrite Hb, Ht.
  unfold handleEditImage, wrapAiTask. cbn. rewrite Hf. cbn. rewrite Hd. cbn.
  split; [reflexivity|]. split; [reflexivity|].
  match goal with
  | |- context [Media.run handleError evs ?s] =>
      assert (H : loading s = true /\ effects s = effects st
                  /\ resultUrl s = None /\ analysis s = None)
        by (cbn; auto);
      revert H; generalize s
  end.
  unfold Media.run. induction evs as [|ev evs IH]; intros s (H1 & H2 & H3 & H4).
  - cbn [fold_left]. unfold buttonDisabled, pane. rewrite H1, H3, H4. auto.
  - cbn [fold_left]. apply IH.
    destruct (step_stuck handleError ev s H1) as (G1 & G2 & G3 & G4).
    rewrite G1, G2, G3, G4. auto.
Qed.

Lemma unreadable_file_blocks_centre_witness :
  loading
    (Media.step
       (fun _ => {| Chat.type := "network"; Chat.message := "failed";
                    Chat.isRetryable := true |})
       (EvClick {| editImage := Ok (Chat.js "blob:2");
                   analyzeMedia := Ok (Chat.js "fine");
                   openSelectKey := Ok tt |})
       {| activeTab := edit; loading := false; prompt := [];
          resultUrl := None; analysis := None;
          file := Some {| file_type := Chat.js "image/png";
                          dataURL := None |};
          error := None; effects := [] |})
  = true.
Proof.
  exact (proj1
    (unreadable_file_blocks_centre
       (fun _ => {| Chat.type := "network"; Chat.message := "failed";
                    Chat.isRetryable := true |})
       {| editImage := Ok (Chat.js "blob:2");
          analyzeMedia := Ok (Chat.js "fine");
          openSelectKey := Ok tt |}
       {| file_type := Chat.js "image/png"; dataURL := None |}
       {| activeTab := edit; loading := false; prompt := [];
          resultUrl := None; analysis := None;
          file := Some {| file_type := Chat.js "image/png";
                          dataURL := None |};
          error := None; effects := [] |}
       [] eq_refl eq_refl eq_refl eq_refl)).
Defined.

(** X27.  What the edit task sends for the image.  For a data URL made of
    a header without a comma, a comma and a payload without a comma, the
    first thing the click does to the service is [editImage] with exactly
    the payload, the type of the file and the instructions; for a data URL
    without any comma the image passed is undefined. *)
Theorem edit_sends_payload (handleError : Exn -> AIError) (env : TaskEnv)
    (f : File) (data : jsstring) (st : State) :
  buttonDisabled st = false -> activeTab st = edit ->
  file st = Some f -> dataURL f = Some data ->
  (forall header payload,
     data = header ++ comma :: payload ->
     ~ In comma header -> ~ In comma payload ->
     effects (Media.step handleError (EvClick env) st) !! length (effects st)
     = Some (EditImage (Some payload) (file_type f) (prompt st))) /\
  (~ In comma data ->
   effects (Media.step handleError (EvClick env) st) !! length (effects st)
   = Some (EditImage None (file_type f) (prompt st))).
Proof.
  intros Hb Ht Hf Hd.
  assert (Hat : forall (l t : list MediaEffect) x,
            (l ++ x :: t) !! length l = Some x).
  { intros l t x. rewrite lookup_app_r, Nat.sub_diag by lia. reflexivity. }
  assert (Hstep : forall base64,
            split comma data !! 1%nat = base64 ->
            effects (Media.step handleError (EvClick env) st)
              !! length (effects st)
            = Some (EditImage base64 (file_type f) (prompt st))).
  { intros base64 Hs. cbn [Media.step]. rewrite Hb, Ht.
    unfold handleEditImage, wrapAiTask. cbn. rewrite Hf. cbn.
    rewrite Hd. cbn. rewrite Hs.
    destruct (editImage env); cbn; [apply (Hat _ [])|].
    destruct (String.eqb _ _); cbn; [|apply (Hat _ [])].
    destruct (openSelectKey env); cbn; rewrite <- app_assoc; apply Hat. }
  split.
  - intros header payload -> Hh Hp. apply Hstep.
    rewrite split_at_separator, split_no_separator by assumption.
    reflexivity.
  - intros Hn. apply Hstep. now rewrite split_no_separator.
Qed.

Lemma edit_sends_payload_witness :
  effects
    (Media.step
       (fun _ => {| Chat.type := "network"; Chat.message := "failed";
                    Chat.isRetryable := true |})
       (EvClick {| editImage := Ok (Chat.js "blob:2");
                   analyzeMedia := Ok (Chat.js "fine");
                   openSelectKey := Ok tt |})
       {| activeTab := edit; loading := false; prompt := Chat.js "circle";
          resultUrl := None; analysis := None;
          file := Some {| file_type := Chat.js "image/png";
                          dataURL :=
                            Some (Chat.js "data:image/png;base64,iVBORw0KGgo=") |};
          error := None; effects := [] |})
    !! 0%nat
  = Some (EditImage (Some (Chat.js "iVBORw0KGgo=")) (Chat.js "image/png")
            (Chat.js "circle")).
Proof.
  apply (proj1
    (edit_sends_payload
       (fun _ => {| Chat.type := "network"; Chat.message := "failed";
                    Chat.isRetryable := true |})
       {| editImage := Ok (Chat.js "blob:2");
          analyzeMedia := Ok (Chat.js "fine");
          openSelectKey := Ok tt |}
       {| file_type := Chat.js "image/png";
          dataURL := Some (Chat.js "data:image/png;base64,iVBORw0KGgo=") |}
       (Chat.js "data:image/png;base64,iVBORw0KGgo=")
       {| activeTab := edit; loading := false; prompt := Chat.js "circle";
          resultUrl := None; analysis := None;
          file := Some {| file_type := Chat.js "image/png";
                          dataURL :=
                            Some (Chat.js "data:image/png;base64,iVBORw0KGgo=") |};
          error := None; effects := [] |}
       eq_refl eq_refl eq_refl eq_refl)
    (Chat.js "data:image/png;base64") (Chat.js "iVBORw0KGgo=")).
  - reflexivity.
  - vm_compute. intros H. repeat (destruct H as [H|H]; [discriminate H|]).
    exact H.
  - vm_compute. intros H. repeat (destruct H as [H|H]; [discriminate H|]).
    exact H.
Defined.
